(** * Real-time city synchronisation client

    A shallow embedding of the dashboard's synchronisation client:

    - [useCityWebSocket]: the React hook that owns one WebSocket, merges
      inbound messages into the city store and exposes the outbound
      commands;
    - [WebSocketService] (services/websocketService.ts): the module-level
      connection service with its event emitter;
    - [useCityData]: the React hook that listens to the service, with the
      render of its memos;
    - [ReplayPage]: the page with the bounded replay buffer and its cursor.

    JavaScript values are modelled untyped, as the handlers receive them from
    [JSON.parse]; exceptions are explicit; the browser's sockets and timers
    are an explicit part of the machine state, and every call that leaves the
    client (constructing a socket, sending a frame, arming a timer) is
    recorded in a trace of effects. React is modelled as far as the hooks
    depend on it: an effect runs again when a dependency is a new value, and
    a render that throws unmounts the hook, whose cleanup then runs. *)

From stdpp Require Import gmap strings list.
From Stdlib Require Import ZArith Lia.

Open Scope Z_scope.

(** ** JavaScript values *)

Module JS.

(** What [JSON.parse] can return, plus [undefined] (the value of a missing
    property).  Numbers are kept as integers: no handler computes with a
    number of the feed, and the identifiers of the feed are strings. *)
#[warnings="-register-all"]
Inductive value : Type :=
| VUndefined
| VNull
| VBool (b : bool)
| VNum (n : Z)
| VStr (s : string)
| VArr (xs : list value)
| VObj (props : gmap string value).

Inductive exn : Type :=
| SyntaxError
| TypeError.

(** The result of running a piece of JavaScript: it returns or it throws. *)
Inductive outcome (A : Type) : Type :=
| Returned (a : A)
| Threw (e : exn).
Arguments Returned {A} a.
Arguments Threw {A} e.

#[global] Instance outcome_ret : MRet outcome := fun _ a => Returned a.
#[global] Instance outcome_bind : MBind outcome := fun _ _ k m =>
  match m with
  | Returned a => k a
  | Threw e => Threw e
  end.

Definition nullish (v : value) : bool :=
  match v with
  | VUndefined | VNull => true
  | _ => false
  end.

(** [prop v k] is [v[k]] for a [v] that is neither [null] nor [undefined]:
    an own property of an object, [undefined] otherwise (none of the keys
    the client reads is a prototype property of a string, number, boolean
    or array). *)
Definition prop (v : value) (k : string) : value :=
  match v with
  | VObj props => default VUndefined (props !! k)
  | _ => VUndefined
  end.

(** [get v k] is the member access [v.k], which throws a [TypeError] on
    [null] and [undefined]. *)
Definition get (v : value) (k : string) : outcome value :=
  if nullish v then Threw TypeError else Returned (prop v k).

(** [opt v k] is the optional chaining [v?.k]. *)
Definition opt (v : value) (k : string) : value :=
  if nullish v then VUndefined else prop v k.

(** [v ?? d]. *)
Definition coalesce (v d : value) : value :=
  if nullish v then d else v.

(** [a === b] on values that come out of [JSON.parse]: primitives are
    compared by value, while objects and arrays are compared by identity and
    two parsed objects are never the same object. *)
Definition strict_eq (a b : value) : bool :=
  match a, b with
  | VUndefined, VUndefined => true
  | VNull, VNull => true
  | VBool x, VBool y => bool_decide (x = y)
  | VNum x, VNum y => bool_decide (x = y)
  | VStr x, VStr y => bool_decide (x = y)
  | _, _ => false
  end.

(** [typeof v === "string"]. *)
Definition is_string (v : value) : bool :=
  match v with
  | VStr _ => true
  | _ => false
  end.

(** [!v]: the falsy values. *)
Definition falsy (v : value) : bool :=
  match v with
  | VUndefined | VNull => true
  | VBool b => negb b
  | VNum n => bool_decide (n = 0)
  | VStr s => bool_decide (s = "")
  | VArr _ | VObj _ => false
  end.

(** [xs.filter(p)] for a callback that may throw. *)
Fixpoint filterM (p : value -> outcome bool) (xs : list value)
  : outcome (list value) :=
  match xs with
  | [] => Returned []
  | x :: rest =>
      keep ← p x;
      rest' ← filterM p rest;
      Returned (if keep : bool then x :: rest' else rest')
  end.

(** The keys a plain object ([{}] or an object literal) inherits from
    [Object.prototype]: under each of them [obj[k]] is a function, or for
    [__proto__] the prototype itself, unless the object has a property of
    its own under [k]. Each of these values is truthy and has none of the
    methods of an array. *)
Definition inherited_keys : list string :=
  ["constructor"; "hasOwnProperty"; "isPrototypeOf"; "propertyIsEnumerable";
   "toLocaleString"; "toString"; "valueOf"; "__proto__";
   "__defineGetter__"; "__defineSetter__"; "__lookupGetter__";
   "__lookupSetter__"].

Definition inherited (k : string) : bool :=
  existsb (String.eqb k) inherited_keys.

(** A frame as it arrives in [evt.data], seen through [JSON.parse]. *)
Inductive inbound : Type :=
| Malformed               (* JSON.parse(evt.data) throws a SyntaxError *)
| Json (v : value).       (* JSON.parse(evt.data) returns v *)

End JS.
Import JS.

(** ** The browser: sockets, timers and the trace of effects *)

Module Browser.

Inductive readyState : Type := CONNECTING | OPEN | CLOSING | CLOSED.

#[global] Instance readyState_eq_dec : EqDecision readyState.
Proof. solve_decision. Defined.

(** What is handed to [ws.send]. [Serialized m] stands for the text
    [JSON.stringify(m)]. *)
Inductive frame : Type :=
| Serialized (msg : value)
| Text (s : string).

(** Every call that leaves the client, in the order the calls are made. *)
Inductive effect : Type :=
| NewWebSocket (id : nat)            (* new WebSocket(url) succeeded *)
| WsClose (id : nat)                 (* ws.close() *)
| WsSend (id : nat) (data : frame)   (* ws.send(data) *)
| SetTimeout (ms : Z)                (* setTimeout(callback, ms) *)
| ClearTimeout                       (* clearTimeout(handle) *)
| SetInterval (ms : Z)               (* setInterval(callback, ms) *)
| ClearInterval                      (* clearInterval(handle) *)
| Invoke (callback : nat) (arg : value)   (* a registered listener runs *)
| Uncaught (e : exn).                (* an exception escapes a handler *)

(** The sockets constructed so far; a socket is named by its position. *)
Definition sockets : Type := list readyState.

(** [ws.readyState === st] for the socket [id]. *)
Definition in_state (tbl : sockets) (id : nat) (st : readyState) : bool :=
  bool_decide (tbl !! id = Some st).

(** [ws.close()]: a connecting or open socket starts closing; on a closing
    or closed socket the call does nothing. *)
Definition close (id : nat) (tbl : sockets) : sockets :=
  match tbl !! id with
  | Some CONNECTING | Some OPEN => <[id := CLOSING]> tbl
  | _ => tbl
  end.

(** State and effect-trace monad in which the client code runs. *)
Definition M (S A : Type) : Type := S -> A * S * list effect.

#[global] Instance M_ret {S} : MRet (M S) := fun _ a s => (a, s, []).
#[global] Instance M_bind {S} : MBind (M S) := fun _ _ k m s =>
  let '(a, s1, e1) := m s in
  let '(b, s2, e2) := k a s1 in
  (b, s2, e1 ++ e2).

Definition gets {S A} (f : S -> A) : M S A := fun s => (f s, s, []).
Definition modify {S} (f : S -> S) : M S unit := fun s => (tt, f s, []).
Definition tell {S} (e : effect) : M S unit := fun s => (tt, s, [e]).
Definition skip {S} : M S unit := mret tt.

(** The sockets constructed and the delays of the timeouts armed in a
    trace, in order. *)
Fixpoint connection_attempts (es : list effect) : list nat :=
  match es with
  | [] => []
  | NewWebSocket id :: rest => id :: connection_attempts rest
  | _ :: rest => connection_attempts rest
  end.

Fixpoint scheduled_delays (es : list effect) : list Z :=
  match es with
  | [] => []
  | SetTimeout ms :: rest => ms :: scheduled_delays rest
  | _ :: rest => scheduled_delays rest
  end.

End Browser.
Import Browser.

(** ** The hook [useCityWebSocket] *)

Module CityHook.

Inductive ConnectionStatus : Type :=
| connecting | connected | disconnected | error.

(** The texts of [lastError]. *)
Inductive error_message : Type :=
| FailedToReconnect (attempts : Z)   (* "Failed to reconnect after N attempts. ..." *)
| ErrorConnecting                    (* "WebSocket error connecting to URL" *)
| ConstructorError.                  (* the message of the caught exception *)

Record options : Type := {
  url_valid : bool;            (* [new WebSocket(url)] does not throw *)
  reconnectIntervalMs : Z;
  reconnectMaxAttempts : Z;
}.

(** The defaults of the hook: 1000 ms, 10 attempts. *)
Definition default_options : options :=
  {| url_valid := true; reconnectIntervalMs := 1000; reconnectMaxAttempts := 10 |}.

(** The React state that holds the city view. *)
Record store : Type := {
  cityUpdate : value;
  incidents : value;
  routes : value;
  events : value;
}.

Definition initial_store : store :=
  {| cityUpdate := VNull; incidents := VArr []; routes := VArr [];
     events := VArr [] |}.

(** [const nodes = cityUpdate?.city?.nodes ?? []]. *)
Definition nodes (s : store) : value :=
  coalesce (opt (opt (cityUpdate s) "city") "nodes") (VArr []).

(** The updater of both incremental branches:
    [prev => [entry, ...prev.filter(r => r.key !== entry.key)]]. *)
Definition upsert (key : string) (entry prev : value) : outcome value :=
  match prev with
  | VArr xs =>
      filtered ← filterM (fun r =>
                    a ← get r key;
                    b ← get entry key;
                    mret (negb (strict_eq a b))) xs;
      mret (VArr (entry :: filtered))
  | _ => Threw TypeError          (* prev.filter is not a function *)
  end.

(** [ws.onmessage]. *)
Definition onmessage (data : inbound) (s : store) : outcome store :=
  match data with
  | Malformed => mret s
  | Json msg =>
      ty ← get msg "type";
      if strict_eq ty (VStr "city_update") then
        incs ← get msg "incidents";
        rts ← get msg "ambulance_routes";
        evs ← get msg "event_log_tail";
        mret {| cityUpdate := msg;
                incidents := coalesce incs (VArr []);
                routes := coalesce rts (VArr []);
                events := coalesce evs (VArr []) |}
      else
        ty ← get msg "type";
        if strict_eq ty (VStr "ambulance_route_update") then
          route ← get msg "route";
          routes' ← upsert "route_id" route (routes s);
          mret {| cityUpdate := cityUpdate s; incidents := incidents s;
                  routes := routes'; events := events s |}
        else
          ty ← get msg "type";
          if strict_eq ty (VStr "incident_update") then
            incident ← get msg "incident";
            incidents' ← upsert "incident_id" incident (incidents s);
            mret {| cityUpdate := cityUpdate s; incidents := incidents';
                    routes := routes s; events := events s |}
          else mret s
  end.

(** The handler itself throws only where it reads [msg.type], when
    [JSON.parse] returned [null]; every other exception of [onmessage] is
    thrown by an updater the handler queued ([setRoutes], [setIncidents]),
    which React runs when it renders. *)
Definition handler_throws (data : inbound) : bool :=
  match data with
  | Malformed => false
  | Json msg => nullish msg
  end.

(** The view after one frame: the state the setters of the handler lead to.
    When the handler or an updater throws, no state is replaced. (When it is
    an updater that throws, the hook is moreover unmounted, see [deliver]:
    the view is then the last one the hook held.) *)
Definition handle (s : store) (data : inbound) : store :=
  match onmessage data s with
  | Returned s' => s'
  | Threw _ => s
  end.

(** The frames of one connection, merged in the order received. *)
Definition process (frames : list inbound) (s : store) : store :=
  foldl handle s frames.

(** The refs and the React state of one hook instance, with the sockets the
    browser holds for it. *)
Record state : Type := {
  wsRef : option nat;
  reconnectAttemptRef : Z;
  reconnectTimerRef : option Z;     (* the armed timeout, with its delay *)
  status : ConnectionStatus;
  lastError : option error_message;
  view : store;
  browser : sockets;
}.

Definition initial : state :=
  {| wsRef := None; reconnectAttemptRef := 0; reconnectTimerRef := None;
     status := connecting; lastError := None; view := initial_store;
     browser := [] |}.

Definition set_wsRef (v : option nat) (s : state) : state :=
  {| wsRef := v; reconnectAttemptRef := reconnectAttemptRef s;
     reconnectTimerRef := reconnectTimerRef s; status := status s;
     lastError := lastError s; view := view s; browser := browser s |}.

Definition set_reconnectAttemptRef (v : Z) (s : state) : state :=
  {| wsRef := wsRef s; reconnectAttemptRef := v;
     reconnectTimerRef := reconnectTimerRef s; status := status s;
     lastError := lastError s; view := view s; browser := browser s |}.

Definition set_reconnectTimerRef (v : option Z) (s : state) : state :=
  {| wsRef := wsRef s; reconnectAttemptRef := reconnectAttemptRef s;
     reconnectTimerRef := v; status := status s;
     lastError := lastError s; view := view s; browser := browser s |}.

Definition setStatus (v : ConnectionStatus) (s : state) : state :=
  {| wsRef := wsRef s; reconnectAttemptRef := reconnectAttemptRef s;
     reconnectTimerRef := reconnectTimerRef s; status := v;
     lastError := lastError s; view := view s; browser := browser s |}.

Definition setLastError (v : option error_message) (s : state) : state :=
  {| wsRef := wsRef s; reconnectAttemptRef := reconnectAttemptRef s;
     reconnectTimerRef := reconnectTimerRef s; status := status s;
     lastError := v; view := view s; browser := browser s |}.

Definition set_view (v : store) (s : state) : state :=
  {| wsRef := wsRef s; reconnectAttemptRef := reconnectAttemptRef s;
     reconnectTimerRef := reconnectTimerRef s; status := status s;
     lastError := lastError s; view := v; browser := browser s |}.

Definition set_browser (v : sockets) (s : state) : state :=
  {| wsRef := wsRef s; reconnectAttemptRef := reconnectAttemptRef s;
     reconnectTimerRef := reconnectTimerRef s; status := status s;
     lastError := lastError s; view := view s; browser := v |}.

(** [ws && ws.readyState === WebSocket.OPEN] for the socket of a ref. *)
Definition is_open (tbl : sockets) (ws : option nat) : bool :=
  match ws with
  | Some id => in_state tbl id OPEN
  | None => false
  end.

Section Connection.

Variable opts : options.

Definition clearReconnectTimer : M state unit :=
  t ← gets reconnectTimerRef;
  match t with
  | Some _ => tell ClearTimeout;; modify (set_reconnectTimerRef None)
  | None => skip
  end.

Definition closeSocket : M state unit :=
  clearReconnectTimer;;
  ws ← gets wsRef;
  modify (set_wsRef None);;
  match ws with
  | Some id =>
      tbl ← gets browser;
      if in_state tbl id OPEN || in_state tbl id CONNECTING
      then tell (WsClose id);; modify (set_browser (close id tbl))
      else skip
  | None => skip
  end.

Definition sendMessage (msg : value) : M state bool :=
  ws ← gets wsRef;
  tbl ← gets browser;
  if negb (is_open tbl ws) then mret false
  else
    match ws with
    | Some id => tell (WsSend id (Serialized msg));; mret true
    | None => mret false
    end.

Definition scheduleReconnect : M state unit :=
  clearReconnectTimer;;
  n ← gets reconnectAttemptRef;
  if bool_decide (reconnectMaxAttempts opts <= n) then
    modify (setStatus error);;
    modify (setLastError (Some (FailedToReconnect (reconnectMaxAttempts opts))))
  else
    let attempt := n + 1 in
    modify (set_reconnectAttemptRef attempt);;
    let delay := reconnectIntervalMs opts * attempt in
    modify (setStatus connecting);;
    tell (SetTimeout delay);;
    modify (set_reconnectTimerRef (Some delay)).

Definition connect : M state unit :=
  closeSocket;;
  modify (setStatus connecting);;
  modify (setLastError None);;
  if url_valid opts then
    tbl ← gets browser;
    let ws := length tbl in
    tell (NewWebSocket ws);;
    modify (set_browser (tbl ++ [CONNECTING]));;
    modify (set_wsRef (Some ws))
  else
    modify (setStatus error);;
    modify (setLastError (Some ConstructorError));;
    scheduleReconnect.

Definition onopen : M state unit :=
  modify (set_reconnectAttemptRef 0);;
  modify (setStatus connected).

Definition onerror : M state unit :=
  modify (setStatus error);;
  modify (setLastError (Some ErrorConnecting)).

Definition onclose : M state unit :=
  modify (setStatus disconnected);;
  scheduleReconnect.

(** One run of [ws.onmessage] by the event loop, and the render it causes.
    An exception of the handler escapes it and nothing was queued. An
    exception of a queued updater is raised while React renders: the render
    fails, React unmounts the hook, and the cleanup of its effect,
    [closeSocket], runs. *)
Definition deliver (data : inbound) : M state unit :=
  v ← gets view;
  match onmessage data v with
  | Returned v' => modify (set_view v')
  | Threw e =>
      tell (Uncaught e);;
      if handler_throws data then skip else closeSocket
  end.

(** What can happen to a hook instance: its effect and the effect's cleanup,
    a command of the user interface, the reconnect timeout, and the events
    of the sockets it constructed. *)
Inductive event : Type :=
| Mount                       (* useEffect: connect() *)
| Unmount                     (* the cleanup: closeSocket() *)
| Command (msg : value)       (* sendMessage(msg) *)
| TimerFired                  (* the reconnect timeout: connect() *)
| SocketOpened (id : nat)
| SocketMessage (id : nat) (data : inbound)
| SocketError (id : nat)
| SocketClosed (id : nat).

Definition exec {A} (m : M state A) (s : state) : state * list effect :=
  let '(_, s', es) := m s in (s', es).

(** One turn of the event loop; [None] when the browser cannot raise the
    event in this state (a cleared timeout does not fire, a closed socket
    raises nothing, only a connecting socket opens). The handlers stay
    attached to a socket after the ref has dropped it. *)
Definition step (ev : event) (s : state) : option (state * list effect) :=
  match ev with
  | Mount => Some (exec connect s)
  | Unmount => Some (exec closeSocket s)
  | Command msg => Some (exec (sendMessage msg) s)
  | TimerFired =>
      match reconnectTimerRef s with
      | Some _ => Some (exec connect s)
      | None => None
      end
  | SocketOpened id =>
      if in_state (browser s) id CONNECTING
      then Some (exec onopen (set_browser (<[id := OPEN]> (browser s)) s))
      else None
  | SocketMessage id data =>
      if in_state (browser s) id OPEN || in_state (browser s) id CLOSING
      then Some (exec (deliver data) s)
      else None
  | SocketError id =>
      match browser s !! id with
      | Some CONNECTING | Some OPEN | Some CLOSING => Some (exec onerror s)
      | _ => None
      end
  | SocketClosed id =>
      match browser s !! id with
      | Some CONNECTING | Some OPEN | Some CLOSING =>
          Some (exec onclose (set_browser (<[id := CLOSED]> (browser s)) s))
      | _ => None
      end
  end.

Fixpoint run (evs : list event) (s : state) : option (state * list effect) :=
  match evs with
  | [] => Some (s, [])
  | ev :: rest =>
      '(s1, e1) ← step ev s;
      '(s2, e2) ← run rest s1;
      Some (s2, e1 ++ e2)
  end.

End Connection.

(** [routes.filter((r) => r.status === "enroute")], the memo [activeRoutes]. *)
Definition activeRoutes (s : store) : outcome value :=
  match routes s with
  | VArr xs =>
      active ← filterM (fun r =>
                  st ← get r "status";
                  mret (strict_eq st (VStr "enroute"))) xs;
      mret (VArr active)
  | _ => Threw TypeError          (* routes.filter is not a function *)
  end.

(** An object literal with distinct keys. *)
Definition literal (fields : list (string * value)) : value :=
  VObj (list_to_map fields).

(** The memo [actions]: one function per outbound command, each a call of
    [sendMessage] on an object literal. *)
Definition dispatchAmbulance (from to etaSeconds : value) : M state bool :=
  sendMessage (literal [("type", VStr "dispatch_ambulance");
                        ("from_intersection", from);
                        ("to_intersection", to);
                        ("eta_seconds", etaSeconds)]).

Definition clearAmbulanceRoute (routeId : value) : M state bool :=
  sendMessage (literal [("type", VStr "clear_ambulance_route");
                        ("route_id", routeId)]).

Definition createIncident (intersectionId direction incidentType severity : value)
  : M state bool :=
  sendMessage (literal [("type", VStr "incident_create");
                        ("intersection_id", intersectionId);
                        ("direction", direction);
                        ("incident_type", incidentType);
                        ("severity", severity)]).

Definition clearIncident (incidentId : value) : M state bool :=
  sendMessage (literal [("type", VStr "incident_clear");
                        ("incident_id", incidentId)]).

Definition ping : M state bool :=
  sendMessage (literal [("type", VStr "ping")]).

End CityHook.

(** ** The connection service [WebSocketService] *)

Module Service.

Definition maxReconnectAttempts : Z := 5.
Definition reconnectInterval : Z := 5000.
Definition pingPeriod : Z := 30000.

(** The fields of the service; listeners are named by numbers. The last
    three fields are the browser's: the sockets constructed, the reconnect
    timeouts armed and not yet fired (their handles are not kept), and the
    ping intervals running. *)
Record state : Type := {
  ws : option nat;
  reconnectAttempts : Z;
  pingInterval : bool;              (* an interval handle is held *)
  eventListeners : gmap string (list nat);
  connectionStatusListeners : list nat;
  isConnected : bool;
  browser : sockets;
  timeouts : nat;
  intervals : nat;
}.

Definition initial : state :=
  {| ws := None; reconnectAttempts := 0; pingInterval := false;
     eventListeners := ∅; connectionStatusListeners := [];
     isConnected := false; browser := []; timeouts := 0%nat;
     intervals := 0%nat |}.

Definition set_ws (v : option nat) (s : state) : state :=
  {| ws := v; reconnectAttempts := reconnectAttempts s;
     pingInterval := pingInterval s; eventListeners := eventListeners s;
     connectionStatusListeners := connectionStatusListeners s;
     isConnected := isConnected s; browser := browser s;
     timeouts := timeouts s; intervals := intervals s |}.

Definition set_reconnectAttempts (v : Z) (s : state) : state :=
  {| ws := ws s; reconnectAttempts := v;
     pingInterval := pingInterval s; eventListeners := eventListeners s;
     connectionStatusListeners := connectionStatusListeners s;
     isConnected := isConnected s; browser := browser s;
     timeouts := timeouts s; intervals := intervals s |}.

Definition set_pingInterval (v : bool) (s : state) : state :=
  {| ws := ws s; reconnectAttempts := reconnectAttempts s;
     pingInterval := v; eventListeners := eventListeners s;
     connectionStatusListeners := connectionStatusListeners s;
     isConnected := isConnected s; browser := browser s;
     timeouts := timeouts s; intervals := intervals s |}.

Definition set_eventListeners (v : gmap string (list nat)) (s : state) : state :=
  {| ws := ws s; reconnectAttempts := reconnectAttempts s;
     pingInterval := pingInterval s; eventListeners := v;
     connectionStatusListeners := connectionStatusListeners s;
     isConnected := isConnected s; browser := browser s;
     timeouts := timeouts s; intervals := intervals s |}.

Definition set_connectionStatusListeners (v : list nat) (s : state) : state :=
  {| ws := ws s; reconnectAttempts := reconnectAttempts s;
     pingInterval := pingInterval s; eventListeners := eventListeners s;
     connectionStatusListeners := v;
     isConnected := isConnected s; browser := browser s;
     timeouts := timeouts s; intervals := intervals s |}.

Definition set_isConnected (v : bool) (s : state) : state :=
  {| ws := ws s; reconnectAttempts := reconnectAttempts s;
     pingInterval := pingInterval s; eventListeners := eventListeners s;
     connectionStatusListeners := connectionStatusListeners s;
     isConnected := v; browser := browser s;
     timeouts := timeouts s; intervals := intervals s |}.

Definition set_browser (v : sockets) (s : state) : state :=
  {| ws := ws s; reconnectAttempts := reconnectAttempts s;
     pingInterval := pingInterval s; eventListeners := eventListeners s;
     connectionStatusListeners := connectionStatusListeners s;
     isConnected := isConnected s; browser := v;
     timeouts := timeouts s; intervals := intervals s |}.

Definition set_timeouts (v : nat) (s : state) : state :=
  {| ws := ws s; reconnectAttempts := reconnectAttempts s;
     pingInterval := pingInterval s; eventListeners := eventListeners s;
     connectionStatusListeners := connectionStatusListeners s;
     isConnected := isConnected s; browser := browser s;
     timeouts := v; intervals := intervals s |}.

Definition set_intervals (v : nat) (s : state) : state :=
  {| ws := ws s; reconnectAttempts := reconnectAttempts s;
     pingInterval := pingInterval s; eventListeners := eventListeners s;
     connectionStatusListeners := connectionStatusListeners s;
     isConnected := isConnected s; browser := browser s;
     timeouts := timeouts s; intervals := v |}.

(** [this.ws?.readyState === WebSocket.OPEN]. *)
Definition is_open (tbl : sockets) (w : option nat) : bool :=
  match w with
  | Some id => in_state tbl id OPEN
  | None => false
  end.

(** [callbacks.forEach(callback => { try { callback(arg) } catch ... })]. *)
Definition invoke_all (callbacks : list nat) (arg : value) : M state unit :=
  fun s => (tt, s, (fun cb => Invoke cb arg) <$> callbacks).

(** [eventListeners] is a plain object, [{}], whose own properties the map
    holds. Under a key it inherits, [this.eventListeners[event]] is truthy
    and is no array: [on] does not create a list and [push] is not a
    function, and likewise [filter] in [off] and [forEach] in [emit]. The
    [TypeError] leaves the registry as it was; no own property is ever
    created under such a key. *)
Definition on (event : string) (callback : nat) : M state unit :=
  if inherited event then tell (Uncaught TypeError)
  else
    ls ← gets eventListeners;
    modify (set_eventListeners
              (<[event := default [] (ls !! event) ++ [callback]]> ls)).

Definition off (event : string) (callback : nat) : M state unit :=
  if inherited event then tell (Uncaught TypeError)
  else
    ls ← gets eventListeners;
    match ls !! event with
    | Some cbs =>
        modify (set_eventListeners
                  (<[event := filter (fun cb => cb <> callback) cbs]> ls))
    | None => skip
    end.

Definition onConnectionStatus (callback : nat) : M state unit :=
  cbs ← gets connectionStatusListeners;
  modify (set_connectionStatusListeners (cbs ++ [callback])).

Definition offConnectionStatus (callback : nat) : M state unit :=
  cbs ← gets connectionStatusListeners;
  modify (set_connectionStatusListeners (filter (fun cb => cb <> callback) cbs)).

(** [emit] is private: the service calls it with the literal names of its
    events, none of which is an inherited key. *)
Definition emit (event : string) (data : value) : M state unit :=
  if inherited event then tell (Uncaught TypeError)
  else
    ls ← gets eventListeners;
    match ls !! event with
    | Some cbs => invoke_all cbs data
    | None => skip
    end.

Definition notifyConnectionStatus (connected : bool) : M state unit :=
  cbs ← gets connectionStatusListeners;
  invoke_all cbs (VBool connected).

(** [handleMessage]. After the guard [!message] the value is neither [null]
    nor [undefined], so its members are read with [prop]. *)
Definition handleMessage (message : value) : M state unit :=
  if falsy message || negb (is_string (prop message "type")) then skip
  else
    match prop message "type" with
    | VStr ty =>
        if bool_decide (ty = "simulation_update") then
          if falsy (prop message "data") then skip
          else emit "simulationUpdate" (prop message "data")
        else if bool_decide (ty = "city_update") then
          emit "cityUpdate" message
        else if bool_decide (ty = "incident_update") then
          emit "incidentUpdate" message
        else if bool_decide (ty = "ambulance_route_update") then
          emit "ambulanceRouteUpdate" message
        else if bool_decide (ty = "connection_status") then
          emit "connectionStatus"
            (VObj (<["status" := prop message "message"]>
                   (<["timestamp" := prop message "timestamp"]> ∅)))
        else if bool_decide (ty = "pong") then
          emit "pong" message
        else if bool_decide (ty = "error") then
          emit "error"
            (VObj (<["error" := prop message "message"]>
                   (<["timestamp" := prop message "timestamp"]> ∅)))
        else skip                      (* default: the kind is logged *)
    | _ => skip
    end.

(** [ws.onmessage]: parse and handle inside one [try]; the [catch] logs. *)
Definition onmessage (data : inbound) : M state unit :=
  match data with
  | Malformed => skip
  | Json message => handleMessage message
  end.

Section Connection.

Variable wsUrl_valid : bool.       (* [new WebSocket(this.wsUrl)] does not throw *)

Definition attemptReconnect : M state unit :=
  n ← gets reconnectAttempts;
  modify (set_reconnectAttempts (n + 1));;
  tell (SetTimeout reconnectInterval);;
  k ← gets timeouts;
  modify (set_timeouts (S k)).

Definition handleConnectionError : M state unit :=
  modify (set_isConnected false);;
  notifyConnectionStatus false;;
  n ← gets reconnectAttempts;
  if bool_decide (n < maxReconnectAttempts) then attemptReconnect else skip.

Definition connect : M state unit :=
  w ← gets ws;
  tbl ← gets browser;
  if is_open tbl w then skip
  else if wsUrl_valid then
    let id := length tbl in
    tell (NewWebSocket id);;
    modify (set_browser (tbl ++ [CONNECTING]));;
    modify (set_ws (Some id))
  else handleConnectionError.

(** The callback armed by [attemptReconnect]. *)
Definition reconnectTimeout : M state unit :=
  n ← gets reconnectAttempts;
  if bool_decide (n <= maxReconnectAttempts) then connect
  else emit "maxReconnectAttemptsReached" (VObj ∅).

Definition clearPingInterval : M state unit :=
  p ← gets pingInterval;
  if p : bool then
    tell ClearInterval;;
    k ← gets intervals;
    modify (set_intervals (pred k));;
    modify (set_pingInterval false)
  else skip.

Definition disconnect : M state unit :=
  w ← gets ws;
  match w with
  | Some id =>
      tbl ← gets browser;
      tell (WsClose id);;
      modify (set_browser (close id tbl));;
      modify (set_ws None)
  | None => skip
  end;;
  clearPingInterval;;
  modify (set_isConnected false);;
  notifyConnectionStatus false.

Definition startPingInterval : M state unit :=
  tell (SetInterval pingPeriod);;
  k ← gets intervals;
  modify (set_intervals (S k));;
  modify (set_pingInterval true).

(** The callback of the ping interval. *)
Definition pingTick : M state unit :=
  w ← gets ws;
  tbl ← gets browser;
  if negb (is_open tbl w) then skip
  else
    match w with
    | Some id => tell (WsSend id (Text "ping"))
    | None => skip
    end.

Definition onopen : M state unit :=
  modify (set_isConnected true);;
  modify (set_reconnectAttempts 0);;
  notifyConnectionStatus true;;
  startPingInterval.

Definition onclose (code : Z) : M state unit :=
  modify (set_isConnected false);;
  notifyConnectionStatus false;;
  clearPingInterval;;
  n ← gets reconnectAttempts;
  if bool_decide (code <> 1000) && bool_decide (n < maxReconnectAttempts)
  then attemptReconnect
  else skip.

Definition onerror : M state unit := handleConnectionError.

(** [send] returns nothing. *)
Definition send (message : value) : M state unit :=
  w ← gets ws;
  tbl ← gets browser;
  if negb (is_open tbl w) then skip     (* console.warn *)
  else
    match w with
    | Some id => tell (WsSend id (Serialized message))
    | None => skip
    end.

Inductive event : Type :=
| Connect
| Disconnect
| Send (message : value)
| On (name : string) (callback : nat)
| Off (name : string) (callback : nat)
| OnConnectionStatus (callback : nat)
| OffConnectionStatus (callback : nat)
| ReconnectTimeout            (* a timeout armed by attemptReconnect fires *)
| PingTick                    (* a ping interval ticks *)
| SocketOpened (id : nat)
| SocketMessage (id : nat) (data : inbound)
| SocketError (id : nat)
| SocketClosed (id : nat) (code : Z).

Definition exec {A} (m : M state A) (s : state) : state * list effect :=
  let '(_, s', es) := m s in (s', es).

(** One turn of the event loop; [None] when the browser cannot raise the
    event in this state. *)
Definition step (ev : event) (s : state) : option (state * list effect) :=
  match ev with
  | Connect => Some (exec connect s)
  | Disconnect => Some (exec disconnect s)
  | Send message => Some (exec (send message) s)
  | On name cb => Some (exec (on name cb) s)
  | Off name cb => Some (exec (off name cb) s)
  | OnConnectionStatus cb => Some (exec (onConnectionStatus cb) s)
  | OffConnectionStatus cb => Some (exec (offConnectionStatus cb) s)
  | ReconnectTimeout =>
      match timeouts s with
      | S k => Some (exec reconnectTimeout (set_timeouts k s))
      | O => None
      end
  | PingTick =>
      match intervals s with
      | S _ => Some (exec pingTick s)
      | O => None
      end
  | SocketOpened id =>
      if in_state (browser s) id CONNECTING
      then Some (exec onopen (set_browser (<[id := OPEN]> (browser s)) s))
      else None
  | SocketMessage id data =>
      if in_state (browser s) id OPEN || in_state (browser s) id CLOSING
      then Some (exec (onmessage data) s)
      else None
  | SocketError id =>
      match browser s !! id with
      | Some CONNECTING | Some OPEN | Some CLOSING => Some (exec onerror s)
      | _ => None
      end
  | SocketClosed id code =>
      match browser s !! id with
      | Some CONNECTING | Some OPEN | Some CLOSING =>
          Some (exec (onclose code)
                  (set_browser (<[id := CLOSED]> (browser s)) s))
      | _ => None
      end
  end.

Fixpoint run (evs : list event) (s : state) : option (state * list effect) :=
  match evs with
  | [] => Some (s, [])
  | ev :: rest =>
      '(s1, e1) ← step ev s;
      '(s2, e2) ← run rest s1;
      Some (s2, e1 ++ e2)
  end.

End Connection.

End Service.

(** ** The hook [useCityData] over the service *)

Module CityData.

(** [a || b]. *)
Definition or_else (a b : value) : value :=
  if falsy a then b else a.

(** [v.length] for a [v] that is neither [null] nor [undefined]. For a
    string the count is of its characters; the hook only tests it for
    zero. *)
Definition length_of (v : value) : value :=
  match v with
  | VArr xs => VNum (Z.of_nat (length xs))
  | VStr s => VNum (Z.of_nat (String.length s))
  | _ => prop v "length"
  end.

(** [v[0]] for a [v] that is neither [null] nor [undefined]. *)
Definition first_of (v : value) : value :=
  match v with
  | VArr xs => default VUndefined (head xs)
  | VStr (String c _) => VStr (String c EmptyString)
  | VStr EmptyString => VUndefined
  | _ => prop v "0"
  end.

(** The ref and the React state of the hook. [lastUpdateTime] holds the
    clock reading of [new Date()]. *)
Record store : Type := {
  mountedRef : bool;
  city : value;
  latestCityUpdate : value;
  incidents : value;
  ambulanceRoutes : value;
  selectedIntersectionId : value;
  isConnected : value;
  error : value;
  lastUpdateTime : option Z;
}.

Definition initial : store :=
  {| mountedRef := true; city := VNull; latestCityUpdate := VNull;
     incidents := VArr []; ambulanceRoutes := VArr [];
     selectedIntersectionId := VNull; isConnected := VBool false;
     error := VNull; lastUpdateTime := None |}.

Definition set_mountedRef (v : bool) (s : store) : store :=
  {| mountedRef := v; city := city s;
     latestCityUpdate := latestCityUpdate s; incidents := incidents s;
     ambulanceRoutes := ambulanceRoutes s;
     selectedIntersectionId := selectedIntersectionId s;
     isConnected := isConnected s; error := error s;
     lastUpdateTime := lastUpdateTime s |}.

Definition setCity (v : value) (s : store) : store :=
  {| mountedRef := mountedRef s; city := v;
     latestCityUpdate := latestCityUpdate s; incidents := incidents s;
     ambulanceRoutes := ambulanceRoutes s;
     selectedIntersectionId := selectedIntersectionId s;
     isConnected := isConnected s; error := error s;
     lastUpdateTime := lastUpdateTime s |}.

Definition setLatestCityUpdate (v : value) (s : store) : store :=
  {| mountedRef := mountedRef s; city := city s;
     latestCityUpdate := v; incidents := incidents s;
     ambulanceRoutes := ambulanceRoutes s;
     selectedIntersectionId := selectedIntersectionId s;
     isConnected := isConnected s; error := error s;
     lastUpdateTime := lastUpdateTime s |}.

Definition setIncidents (v : value) (s : store) : store :=
  {| mountedRef := mountedRef s; city := city s;
     latestCityUpdate := latestCityUpdate s; incidents := v;
     ambulanceRoutes := ambulanceRoutes s;
     selectedIntersectionId := selectedIntersectionId s;
     isConnected := isConnected s; error := error s;
     lastUpdateTime := lastUpdateTime s |}.

Definition setAmbulanceRoutes (v : value) (s : store) : store :=
  {| mountedRef := mountedRef s; city := city s;
     latestCityUpdate := latestCityUpdate s; incidents := incidents s;
     ambulanceRoutes := v;
     selectedIntersectionId := selectedIntersectionId s;
     isConnected := isConnected s; error := error s;
     lastUpdateTime := lastUpdateTime s |}.

Definition setSelectedIntersectionId (v : value) (s : store) : store :=
  {| mountedRef := mountedRef s; city := city s;
     latestCityUpdate := latestCityUpdate s; incidents := incidents s;
     ambulanceRoutes := ambulanceRoutes s;
     selectedIntersectionId := v;
     isConnected := isConnected s; error := error s;
     lastUpdateTime := lastUpdateTime s |}.

Definition setIsConnected (v : value) (s : store) : store :=
  {| mountedRef := mountedRef s; city := city s;
     latestCityUpdate := latestCityUpdate s; incidents := incidents s;
     ambulanceRoutes := ambulanceRoutes s;
     selectedIntersectionId := selectedIntersectionId s;
     isConnected := v; error := error s;
     lastUpdateTime := lastUpdateTime s |}.

Definition setError (v : value) (s : store) : store :=
  {| mountedRef := mountedRef s; city := city s;
     latestCityUpdate := latestCityUpdate s; incidents := incidents s;
     ambulanceRoutes := ambulanceRoutes s;
     selectedIntersectionId := selectedIntersectionId s;
     isConnected := isConnected s; error := v;
     lastUpdateTime := lastUpdateTime s |}.

Definition setLastUpdateTime (v : option Z) (s : store) : store :=
  {| mountedRef := mountedRef s; city := city s;
     latestCityUpdate := latestCityUpdate s; incidents := incidents s;
     ambulanceRoutes := ambulanceRoutes s;
     selectedIntersectionId := selectedIntersectionId s;
     isConnected := isConnected s; error := error s;
     lastUpdateTime := v |}.

(** Code of a listener: it updates the store and may throw; what it has
    set before throwing stays set. *)
Definition H (A : Type) : Type := store -> outcome A * store.

#[global] Instance H_ret : MRet H := fun _ a s => (Returned a, s).
#[global] Instance H_bind : MBind H := fun _ _ k m s =>
  match m s with
  | (Returned a, s1) => k a s1
  | (Threw e, s1) => (Threw e, s1)
  end.

Definition read {A} (f : store -> A) : H A := fun s => (Returned (f s), s).
Definition set (f : store -> store) : H unit := fun s => (Returned tt, f s).
Definition eval {A} (o : outcome A) : H A := fun s => (o, s).

(** [msg.city?.nodes?.length]. *)
Definition nodes_length (msg : value) : outcome value :=
  c ← get msg "city";
  if nullish c then mret VUndefined
  else
    let n := prop c "nodes" in
    if nullish n then mret VUndefined else mret (length_of n).

(** [msg.city.nodes[0].intersection_id]. *)
Definition first_node_id (msg : value) : outcome value :=
  c ← get msg "city";
  n ← get c "nodes";
  first ← (if nullish n then Threw TypeError else mret (first_of n));
  get first "intersection_id".

(** [handleCityUpdate]; [now] is the reading of [new Date()]. The callback
    is created again whenever the selection changes, so the selection it
    closes over is the one of the store. *)
Definition handleCityUpdate (now : Z) (msg : value) : H unit :=
  mounted ← read mountedRef;
  if negb mounted then mret tt
  else
    set (setLatestCityUpdate msg);;
    c ← eval (get msg "city");
    set (setCity c);;
    i ← eval (get msg "incidents");
    set (setIncidents (or_else i (VArr [])));;
    r ← eval (get msg "ambulance_routes");
    set (setAmbulanceRoutes (or_else r (VArr [])));;
    set (setLastUpdateTime (Some now));;
    set (setError VNull);;
    selected ← read selectedIntersectionId;
    if negb (falsy selected) then mret tt
    else
      len ← eval (nodes_length msg);
      if falsy len then mret tt
      else
        id ← eval (first_node_id msg);
        set (setSelectedIntersectionId id).

(** [handleConnectionStatus]. *)
Definition handleConnectionStatus (connected : value) (s : store) : store :=
  if negb (mountedRef s) then s
  else
    setError (if falsy connected
              then VStr "Connection lost. Trying to reconnect..."
              else VNull)
      (setIsConnected connected s).

(** [handleError]. *)
Definition handleError (payload : value) (s : store) : store :=
  if negb (mountedRef s) then s
  else setError (or_else (opt payload "error") (VStr "WebSocket error")) s.

(** [const nodes = city?.nodes || []]. *)
Definition nodes (s : store) : value :=
  or_else (opt (city s) "nodes") (VArr []).

(** The commands, each a call of the service's [send]. *)
Definition dispatchAmbulance (fromIntersection toIntersection etaSeconds : value)
  : M Service.state unit :=
  Service.send (CityHook.literal
    [("type", VStr "dispatch_ambulance");
     ("from_intersection", fromIntersection);
     ("to_intersection", toIntersection);
     ("eta_seconds", coalesce etaSeconds (VNum 30))]).

Definition createIncident (intersectionId direction incidentType severity : value)
  : M Service.state unit :=
  Service.send (CityHook.literal
    [("type", VStr "incident_create");
     ("intersection_id", intersectionId);
     ("direction", direction);
     ("incident_type", coalesce incidentType (VStr "accident"));
     ("severity", coalesce severity (VNum 2))]).

Definition clearIncident (incidentId : value) : M Service.state unit :=
  Service.send (CityHook.literal
    [("type", VStr "incident_clear"); ("incident_id", incidentId)]).

(** The three listeners, as the service knows them. *)
Definition cb_cityUpdate : nat := 0.
Definition cb_error : nat := 1.
Definition cb_connectionStatus : nat := 2.

(** A listener call of the service's trace, run on the store; an exception
    of the listener is caught by the service. *)
Definition listen (now : Z) (s : store) (e : effect) : store :=
  match e with
  | Invoke 0 arg => (handleCityUpdate now arg s).2
  | Invoke 1 arg => handleError arg s
  | Invoke 2 arg => handleConnectionStatus arg s
  | _ => s
  end.

(** *** The render of the hook *)

(** [dirShortMap[name]] is truthy: the map is an object literal with the
    four directions, and it inherits the keys of every plain object. *)
Definition dirShort (name : string) : bool :=
  existsb (String.eqb name) ["north"; "south"; "east"; "west"]
  || inherited name.

(** [Number(v)] throws a [TypeError]: a parsed object that has a property
    [toString] of its own cannot be converted to a primitive (the property
    is no function and hides the inherited one), and an array is converted
    by joining its entries, each converted in the same way. *)
Fixpoint unprintable (v : value) : bool :=
  match v with
  | VObj props => bool_decide (is_Some (props !! "toString"))
  | VArr xs =>
      (fix any (xs : list value) : bool :=
         match xs with
         | [] => false
         | x :: rest => unprintable x || any rest
         end) xs
  | _ => false
  end.

Fixpoint chars (s : string) : list value :=
  match s with
  | EmptyString => []
  | String c rest => VStr (String c EmptyString) :: chars rest
  end.

(** [Object.values(v)] for a [v] that is neither [null] nor [undefined];
    the order of an object's values plays no role in [lanes]. *)
Definition values_of (v : value) : list value :=
  match v with
  | VObj props => (map_to_list props).*2
  | VArr xs => xs
  | VStr s => chars s
  | _ => []
  end.

(** The entries of [Object.entries(v)] that the loop of [lanes] does not
    skip: the properties of an object whose name [dirShortMap] knows. The
    keys of an array or of a string are indices, which [dirShortMap] does
    not have, and a number or a boolean has no entries. Whether the loop
    throws does not depend on the order of the entries. *)
Definition known_entries (v : value) : list (string * value) :=
  match v with
  | VObj props => filter (fun kv => dirShort kv.1 = true) (map_to_list props)
  | _ => []
  end.

(** One pass of the loop of [lanes] for an entry that is not skipped. The
    lane it pushes is built from member reads that do not throw. *)
Definition lane (currentPhase metrics : value) : outcome unit :=
  vehicleCounts ← get metrics "vehicle_counts";
  (if nullish vehicleCounts then Threw TypeError   (* Object.values(undefined) *)
   else if existsb unprintable (values_of vehicleCounts)
        then Threw TypeError                       (* Number(count) *)
        else mret tt);;
  active ← get currentPhase "active_directions";
  match active with
  | VArr _ | VStr _ => mret tt      (* active_directions.includes(name) *)
  | _ => Threw TypeError            (* no [includes] to call *)
  end.

Fixpoint each (f : value -> outcome unit) (xs : list (string * value))
  : outcome unit :=
  match xs with
  | [] => mret tt
  | kv :: rest => f kv.2;; each f rest
  end.

(** The memo [lanes], as far as it can throw. *)
Definition lanes (selectedNode : value) : outcome unit :=
  if falsy selectedNode then mret tt
  else
    let currentPhase := prop selectedNode "current_phase" in
    let directionMetrics := prop selectedNode "direction_metrics" in
    if nullish directionMetrics then Threw TypeError  (* Object.entries(undefined) *)
    else each (lane currentPhase) (known_entries directionMetrics).

(** [n.intersection_id === selectedIntersectionId] for the node at position
    [i]. Primitives are compared by value. A selection that is an object or
    an array was taken by [handleCityUpdate] from the first node of a
    snapshot, and it is that node's identifier and no other value;
    [first_selected] says that the snapshot is still the stored city. *)
Definition is_selected (first_selected : bool) (selected : value)
    (i : nat) (id : value) : bool :=
  match selected with
  | VObj _ | VArr _ => first_selected && bool_decide (i = 0%nat)
  | _ => strict_eq id selected
  end.

(** [nodes.find(n => n.intersection_id === selectedIntersectionId)] from
    position [i] on. *)
Fixpoint find_node (first_selected : bool) (selected : value) (i : nat)
    (xs : list value) : outcome value :=
  match xs with
  | [] => mret VUndefined
  | n :: rest =>
      id ← get n "intersection_id";
      if is_selected first_selected selected i id then mret n
      else find_node first_selected selected (S i) rest
  end.

(** The memo [selectedNode]. *)
Definition selectedNode (first_selected : bool) (s : store) : outcome value :=
  if falsy (selectedIntersectionId s) then mret VUndefined
  else
    match nodes s with
    | VArr xs => find_node first_selected (selectedIntersectionId s) 0 xs
    | _ => Threw TypeError          (* nodes.find is not a function *)
    end.

(** The body of the hook as React runs it to render: the memos
    [selectedNode] and [lanes]. The memo [simulationData] and the object
    the hook returns read members of truthy values only. *)
Definition render_body (first_selected : bool) (s : store) : outcome unit :=
  node ← selectedNode first_selected s;
  lanes node.

(** A listener of the hook runs in a trace; [handleCityUpdate] does. *)
Definition heard (es : list effect) : bool :=
  existsb (fun e => match e with
                    | Invoke 0 _ | Invoke 1 _ | Invoke 2 _ => true
                    | _ => false
                    end) es.

Definition snapshot_heard (es : list effect) : bool :=
  existsb (fun e => match e with Invoke 0 _ => true | _ => false end) es.

Section Mounted.

Variable wsUrl_valid : bool.

(** The body of the hook's effect and its cleanup, on the service. *)
Definition subscribe : M Service.state unit :=
  Service.on "cityUpdate" cb_cityUpdate;;
  Service.on "error" cb_error;;
  Service.onConnectionStatus cb_connectionStatus;;
  Service.connect wsUrl_valid.

Definition unsubscribe : M Service.state unit :=
  Service.off "cityUpdate" cb_cityUpdate;;
  Service.off "error" cb_error;;
  Service.offConnectionStatus cb_connectionStatus;;
  Service.disconnect.

(** The hook with the service it drives. [first_selected]: the selection is
    the identifier of the first node of the stored city, taken from it by
    [handleCityUpdate]. *)
Record state : Type := {
  service : Service.state;
  data : store;
  first_selected : bool;
}.

(** The effect's cleanup followed by the effect, as React runs them when
    [handleCityUpdate] is a new function. *)
Definition resubscribe (now : Z) (s : state) : state * list effect :=
  let d1 := set_mountedRef false (data s) in
  let '(_, sv1, e1) := unsubscribe (service s) in
  let d2 := set_mountedRef true (foldl (listen now) d1 e1) in
  let '(_, sv2, e2) := subscribe sv1 in
  ({| service := sv2; data := foldl (listen now) d2 e2;
      first_selected := first_selected s |}, e1 ++ e2).

(** The effect's cleanup alone, as React runs it when it unmounts the
    hook. *)
Definition unmount (now : Z) (s : state) : state * list effect :=
  let d1 := set_mountedRef false (data s) in
  let '(_, sv1, e1) := unsubscribe (service s) in
  ({| service := sv1; data := foldl (listen now) d1 e1;
      first_selected := first_selected s |}, e1).

(** [Object.is(after, before)] for the selection before and after a turn.
    Primitives are compared by value. A selection that is an object is only
    ever replaced by a string ([handleCityUpdate] sets the selection only
    when it is falsy), so an object after an object is the same object. *)
Definition same_selection (before after : value) : bool :=
  match before, after with
  | (VArr _ | VObj _), (VArr _ | VObj _) => true
  | _, _ => strict_eq after before
  end.

(** React renders after a turn that called a setter. When the body of the
    hook throws, the render fails and React unmounts the hook: the cleanup
    of the effect runs and the effect does not. Otherwise, when the
    selection is another value than before, [handleCityUpdate] is a new
    function and the effect runs again. *)
Definition render (now : Z) (before : value) (s : state) (es : list effect)
  : state * list effect :=
  match render_body (first_selected s) (data s) with
  | Threw e =>
      let '(s', es') := unmount now s in (s', es ++ Uncaught e :: es')
  | Returned _ =>
      if same_selection before (selectedIntersectionId (data s)) then (s, es)
      else
        let '(s', es') := resubscribe now s in (s', es ++ es')
  end.

Inductive event : Type :=
| Turn (ev : Service.event)           (* a turn of the service *)
| Select (id : string).               (* setSelectedIntersectionId(id) *)

(** One turn of the hook over the service, at the clock reading [now]. A
    turn of the service in which no listener of a mounted hook ran calls no
    setter, and nothing renders; no more does the selection of the
    identifier that is selected already. An unmounted hook offers nothing
    to select. *)
Definition step (now : Z) (ev : event) (s : state)
  : option (state * list effect) :=
  let before := selectedIntersectionId (data s) in
  match ev with
  | Turn ev' =>
      '(sv, es) ← Service.step wsUrl_valid ev' (service s);
      let s1 :=
        {| service := sv; data := foldl (listen now) (data s) es;
           first_selected :=
             if mountedRef (data s) && snapshot_heard es then falsy before
             else first_selected s |} in
      Some (if mountedRef (data s) && heard es then render now before s1 es
            else (s1, es))
  | Select id =>
      if negb (mountedRef (data s)) then None
      else if same_selection before (VStr id) then Some (s, [])
      else
        Some (render now before
                {| service := service s;
                   data := setSelectedIntersectionId (VStr id) (data s);
                   first_selected := false |} [])
  end.

(** The first run of the effect. *)
Definition mount (now : Z) : state * list effect :=
  let '(_, sv, es) := subscribe Service.initial in
  ({| service := sv; data := foldl (listen now) initial es;
      first_selected := false |}, es).

(** Turns, each at its clock reading. *)
Fixpoint run (evs : list (Z * event)) (s : state)
  : option (state * list effect) :=
  match evs with
  | [] => Some (s, [])
  | (now, ev) :: rest =>
      '(s1, e1) ← step now ev s;
      '(s2, e2) ← run rest s1;
      Some (s2, e1 ++ e2)
  end.

End Mounted.

End CityData.

(** ** The replay buffer of [ReplayPage] *)

Module Replay.

(** [xs.slice(start)]: a negative [start] counts from the end. *)
Definition slice {A} (start : Z) (xs : list A) : list A :=
  let len := Z.of_nat (length xs) in
  let k := if bool_decide (start < 0) then Z.max (len + start) 0
           else Z.min start len in
  drop (Z.to_nat k) xs.

(** [xs[i]] for an integer [i]; [None] is [undefined]. *)
Definition index {A} (xs : list A) (i : Z) : option A :=
  if bool_decide (0 <= i) then xs !! Z.to_nat i else None.

(** The ref and the state of the page, with the prop it receives. *)
Record state : Type := {
  latestCityUpdate : option value;    (* [None] is null or undefined *)
  bufferRef : list value;
  isRecording : bool;
  isPlaying : bool;
  playIndex : Z;
}.

Definition mounted (latest : option value) : state :=
  {| latestCityUpdate := latest; bufferRef := []; isRecording := true;
     isPlaying := false; playIndex := 0 |}.

Definition set_latestCityUpdate (v : option value) (s : state) : state :=
  {| latestCityUpdate := v; bufferRef := bufferRef s;
     isRecording := isRecording s; isPlaying := isPlaying s;
     playIndex := playIndex s |}.

Definition set_bufferRef (v : list value) (s : state) : state :=
  {| latestCityUpdate := latestCityUpdate s; bufferRef := v;
     isRecording := isRecording s; isPlaying := isPlaying s;
     playIndex := playIndex s |}.

Definition setIsRecording (v : bool) (s : state) : state :=
  {| latestCityUpdate := latestCityUpdate s; bufferRef := bufferRef s;
     isRecording := v; isPlaying := isPlaying s;
     playIndex := playIndex s |}.

Definition setIsPlaying (v : bool) (s : state) : state :=
  {| latestCityUpdate := latestCityUpdate s; bufferRef := bufferRef s;
     isRecording := isRecording s; isPlaying := v;
     playIndex := playIndex s |}.

Definition setPlayIndex (v : Z) (s : state) : state :=
  {| latestCityUpdate := latestCityUpdate s; bufferRef := bufferRef s;
     isRecording := isRecording s; isPlaying := isPlaying s;
     playIndex := v |}.

(** The effect "Record incoming updates"; React runs it whenever
    [latestCityUpdate], [isRecording] or [isPlaying] has changed. *)
Definition record (s : state) : state :=
  match latestCityUpdate s with
  | None => s
  | Some update =>
      if negb (isRecording s) then s
      else
        let s' := set_bufferRef (slice (-300) (bufferRef s ++ [update])) s in
        if negb (isPlaying s') then
          setPlayIndex (Z.of_nat (length (bufferRef s')) - 1) s'
        else s'
  end.

(** The callback of the playback interval (every 500 ms while playing). *)
Definition tick (s : state) : state :=
  let next := playIndex s + 1 in
  let max := Z.max 0 (Z.of_nat (length (bufferRef s)) - 1) in
  if bool_decide (max <= next)
  then setPlayIndex max (setIsPlaying false s)
  else setPlayIndex next s.

(** The slider's [onValueChange]. *)
Definition seek (v : Z) (s : state) : state :=
  setPlayIndex v (setIsPlaying false s).

(** [const current = buffer.length ? buffer[max(0, min(playIndex, length - 1))] : null];
    [None] is "no snapshot" (null or undefined). *)
Definition current (s : state) : option value :=
  let buffer := bufferRef s in
  if bool_decide (length buffer = 0%nat) then None
  else index buffer
         (Z.max 0 (Z.min (playIndex s) (Z.of_nat (length buffer) - 1))).

Inductive event : Type :=
| Update (update : value)     (* the parent passes a new latestCityUpdate *)
| ToggleRecording
| TogglePlaying
| Tick
| Seek (v : Z).

(** [record] runs again after a turn that changed [isPlaying]. *)
Definition rerun_if_playing_changed (before : bool) (s : state) : state :=
  if bool_decide (isPlaying s = before) then s else record s.

(** One turn of the page. The Play button is disabled below two snapshots;
    the machine lets it toggle in every state. *)
Definition step (ev : event) (s : state) : state :=
  match ev with
  | Update update => record (set_latestCityUpdate (Some update) s)
  | ToggleRecording => record (setIsRecording (negb (isRecording s)) s)
  | TogglePlaying => record (setIsPlaying (negb (isPlaying s)) s)
  | Tick =>
      if isPlaying s then rerun_if_playing_changed (isPlaying s) (tick s)
      else s
  | Seek v => rerun_if_playing_changed (isPlaying s) (seek v s)
  end.

Definition run (evs : list event) (s : state) : state :=
  foldl (fun s ev => step ev s) s evs.

End Replay.

(** ** Vocabulary of the properties *)

Module Spec.

(** The entry [r] of a keyed collection has the identifier [id]. *)
Definition has_id (key id : string) (r : value) : bool :=
  strict_eq (prop r key) (VStr id).

(** The number of entries of a collection that have the identifier [id]. *)
Definition count_id (key id : string) (xs : list value) : nat :=
  length (filter (fun r => has_id key id r = true) xs).

(** The entries of a collection that have another identifier, in order. *)
Definition others (key id : string) (xs : list value) : list value :=
  filter (fun r => has_id key id r = false) xs.

(** The last [n] entries of a log. *)
Definition last_entries {A} (n : nat) (xs : list A) : list A :=
  drop (length xs - n) xs.

(** A parsed message announces the kind [kind]. *)
Definition has_type (msg : value) (kind : string) : Prop :=
  prop msg "type" = VStr kind.

(** The kinds the hook dispatches on, and the kinds the service dispatches
    on. *)
Definition hook_kinds : list string :=
  ["city_update"; "ambulance_route_update"; "incident_update"].

Definition service_kinds : list string :=
  ["simulation_update"; "city_update"; "incident_update";
   "ambulance_route_update"; "connection_status"; "pong"; "error"].

(** A payload that is not a typed message: it does not parse, or it parses
    to a value without a string [type]. *)
Definition untyped (data : inbound) : Prop :=
  match data with
  | Malformed => True
  | Json v => is_string (prop v "type") = false
  end.

(** The event log as the spec words it: every snapshot's tail is appended
    to the retained log, which keeps its last [bound] entries. *)
Definition appended_log {A} (bound : nat) (retained tail : list A) : list A :=
  last_entries bound (retained ++ tail).










End Spec.
Import Spec.

(** ** Sample messages *)

Module Samples.

(** An object literal. *)
Definition obj (fields : list (string * value)) : value :=
  VObj (list_to_map fields).

Definition node (id : string) : value :=
  obj [("intersection_id", VStr id); ("name", VStr id)].

Definition incident (id status : string) : value :=
  obj [("incident_id", VStr id); ("intersection_id", VStr "A");
       ("direction", VStr "north"); ("status", VStr status)].

Definition route (id status : string) : value :=
  obj [("route_id", VStr id); ("from_intersection", VStr "A");
       ("to_intersection", VStr "B"); ("status", VStr status)].

Definition log_entry (kind : string) : value :=
  obj [("type", VStr kind); ("timestamp", VStr "t")].

Definition city_update (nodes incidents routes tail : list value) : value :=
  obj [("type", VStr "city_update"); ("timestamp", VStr "t");
       ("city", obj [("city_id", VStr "city"); ("nodes", VArr nodes)]);
       ("incidents", VArr incidents);
       ("ambulance_routes", VArr routes);
       ("event_log_tail", VArr tail)].

Definition incident_update (i : value) : value :=
  obj [("type", VStr "incident_update"); ("timestamp", VStr "t");
       ("incident", i)].

Definition ambulance_route_update (r : value) : value :=
  obj [("type", VStr "ambulance_route_update"); ("timestamp", VStr "t");
       ("route", r)].

(** A node with the metrics of one direction, as the simulation sends
    them. *)
Definition junction (id : string) : value :=
  obj [("intersection_id", VStr id); ("name", VStr id);
       ("current_phase",
        obj [("active_directions", VArr [VStr "north"]);
             ("status", VStr "GREEN"); ("remaining_time", VNum 12)]);
       ("direction_metrics",
        obj [("north",
              obj [("vehicle_counts", obj [("car", VNum 3); ("bus", VNum 1)]);
                   ("queue_length", VNum 4)])])].

Definition unrecognized : value :=
  obj [("type", VStr "unrecognized_kind"); ("timestamp", VStr "t")].

Definition dispatch_ambulance : value :=
  obj [("type", VStr "dispatch_ambulance"); ("from_intersection", VStr "A");
       ("to_intersection", VStr "B"); ("eta_seconds", VNum 30)].

End Samples.

(** ** Vocabulary of the further properties *)

Module Terms.

(** The entries of a route collection whose status is [enroute]. *)
Definition active (xs : list value) : list value :=
  filter (fun r => strict_eq (prop r "status") (VStr "enroute") = true) xs.

(** No two entries of a collection have the same string identifier. *)
Definition unique_ids (key : string) (xs : list value) : Prop :=
  forall id, (count_id key id xs <= 1)%nat.

(** A collection as the types declare it: every entry is an object or at
    least not [null] or [undefined]. *)
Definition entries (xs : list value) : Prop :=
  Forall (fun r => nullish r = false) xs.

(** The frames handed to sockets in a trace, in order. *)
Fixpoint sent (es : list effect) : list (nat * frame) :=
  match es with
  | [] => []
  | WsSend id data :: rest => (id, data) :: sent rest
  | _ :: rest => sent rest
  end.

(** The sockets on which [close()] is called in a trace, in order. *)
Fixpoint closes (es : list effect) : list nat :=
  match es with
  | [] => []
  | WsClose id :: rest => id :: closes rest
  | _ :: rest => closes rest
  end.

(** The listener calls of a trace, in order. *)
Fixpoint calls (es : list effect) : list (nat * value) :=
  match es with
  | [] => []
  | Invoke cb arg :: rest => (cb, arg) :: calls rest
  | _ :: rest => calls rest
  end.

(** Some socket of the table is open. *)
Definition some_open (tbl : sockets) : Prop :=
  exists id, tbl !! id = Some OPEN.

(** The hook holds at most one live socket: the ref names a socket that
    exists, and every other socket is closing or closed. *)
Definition single_socket (s : CityHook.state) : Prop :=
  (forall id, CityHook.wsRef s = Some id ->
     (id < length (CityHook.browser s))%nat) /\
  (forall id st, CityHook.browser s !! id = Some st ->
     CityHook.wsRef s <> Some id -> st = CLOSING \/ st = CLOSED).

(** The attempt counter of the hook is within its bounds. *)
Definition hook_attempts_bounded (opts : CityHook.options) (s : CityHook.state)
  : Prop :=
  0 <= CityHook.reconnectAttemptRef s <= CityHook.reconnectMaxAttempts opts.

(** The attempt counter of the service is within its bounds. *)
Definition service_attempts_bounded (s : Service.state) : Prop :=
  0 <= Service.reconnectAttempts s <= Service.maxReconnectAttempts.

(** The listeners of [useCityData] are registered under their own events
    only. *)
Definition wired (s : Service.state) : Prop :=
  forall name cbs, Service.eventListeners s !! name = Some cbs ->
    (CityData.cb_cityUpdate ∈ cbs -> name = "cityUpdate") /\
    (CityData.cb_error ∈ cbs -> name = "error") /\
    CityData.cb_connectionStatus ∉ cbs.

(** A turn of the service that does not register one of the three
    listeners of [useCityData] by hand. *)
Definition foreign (ev : Service.event) : Prop :=
  match ev with
  | Service.On _ cb => (2 < cb)%nat
  | _ => True
  end.

(** The replay page follows the feed: recording, not playing. *)
Definition live (s : Replay.state) : Prop :=
  Replay.isRecording s = true /\ Replay.isPlaying s = false.

End Terms.
Import Terms.

(** ** Proof steps *)

(** Splits on every [match] and every decision of the goal and hypotheses. *)
Ltac cases :=
  simplify_eq/=;
  repeat (first [case_match | case_bool_decide]; simplify_eq/=).

(** Unfolds the monadic code of the hook down to pairs. *)
Ltac hook_code :=
  unfold CityHook.exec, CityHook.deliver, CityHook.onclose, CityHook.onopen,
    CityHook.onerror, CityHook.connect, CityHook.scheduleReconnect,
    CityHook.closeSocket, CityHook.clearReconnectTimer, CityHook.sendMessage,
    skip, gets, modify, tell, mbind, M_bind, mret, M_ret;
  simpl.

(** Unfolds the monadic code of the service down to pairs. *)
Ltac service_code :=
  unfold Service.exec, Service.onclose, Service.onopen, Service.onerror,
    Service.disconnect, Service.reconnectTimeout, Service.connect,
    Service.handleConnectionError, Service.attemptReconnect,
    Service.startPingInterval, Service.clearPingInterval, Service.pingTick,
    Service.send, Service.onmessage, Service.on, Service.off,
    Service.onConnectionStatus, Service.offConnectionStatus,
    Service.notifyConnectionStatus, Service.emit, Service.invoke_all,
    skip, gets, modify, tell, mbind, M_bind, mret, M_ret;
  simpl.

(** ** Facts about values *)

Lemma prop_string_not_nullish (v : value) (k s : string) :
  prop v k = VStr s -> nullish v = false.
Proof. destruct v; simpl; congruence. Qed.

Lemma prop_array_not_nullish (v : value) (k : string) (xs : list value) :
  prop v k = VArr xs -> nullish v = false.
Proof. destruct v; simpl; congruence. Qed.

Lemma get_not_nullish (v : value) (k : string) :
  nullish v = false -> get v k = Returned (prop v k).
Proof. unfold get. intros ->. reflexivity. Qed.

Lemma strict_eq_string (a : value) (s : string) :
  strict_eq a (VStr s) = true <-> a = VStr s.
Proof.
  destruct a; simpl; try (split; [discriminate | congruence]).
  rewrite bool_decide_eq_true. split; congruence.
Qed.

Lemma strict_eq_string_ne (s t : string) :
  s <> t -> strict_eq (VStr s) (VStr t) = false.
Proof. intros H. simpl. by rewrite bool_decide_eq_false. Qed.

(** ** Merging messages into the store of the hook *)

Section HookMessages.

Import CityHook.

Lemma process_snoc (history : list inbound) (f : inbound) (s : store) :
  process (history ++ [f]) s = handle (process history s) f.
Proof. unfold process. by rewrite foldl_app. Qed.

(** A full snapshot overwrites the four pieces of the view, whatever they
    held. *)
Lemma onmessage_city_update (msg : value) (s : store) :
  has_type msg "city_update" ->
  onmessage (Json msg) s =
    Returned {| cityUpdate := msg;
                incidents := coalesce (prop msg "incidents") (VArr []);
                routes := coalesce (prop msg "ambulance_routes") (VArr []);
                events := coalesce (prop msg "event_log_tail") (VArr []) |}.
Proof.
  intros Hty. pose proof (prop_string_not_nullish _ _ _ Hty) as Hn.
  unfold onmessage. rewrite !(get_not_nullish _ _ Hn). simpl.
  rewrite Hty. reflexivity.
Qed.

(** The filter of the updater keeps exactly the entries with another
    identifier, in their order. *)
Lemma filterM_others (key id : string) (entry : value) (xs : list value) :
  prop entry key = VStr id ->
  Forall (fun r => nullish r = false) xs ->
  filterM (fun r => a ← get r key; b ← get entry key;
                    mret (negb (strict_eq a b))) xs
  = Returned (others key id xs).
Proof.
  intros Hid Hxs. pose proof (prop_string_not_nullish _ _ _ Hid) as Hn.
  rewrite (get_not_nullish _ _ Hn).
  induction Hxs as [|r xs Hr _ IH]; [reflexivity|].
  simpl. rewrite (get_not_nullish _ _ Hr). simpl.
  simpl in IH. rewrite IH. simpl. rewrite Hid. unfold others.
  rewrite filter_cons. fold (has_id key id r).
  destruct (has_id key id r); reflexivity.
Qed.

Lemma count_id_others (key id : string) (xs : list value) :
  count_id key id (others key id xs) = 0%nat.
Proof.
  unfold count_id, others. induction xs as [|r xs IH]; [reflexivity|].
  rewrite filter_cons. destruct (decide (has_id key id r = false)) as [E|E].
  - rewrite filter_cons. rewrite decide_False by congruence. exact IH.
  - exact IH.
Qed.

Lemma others_absent (key id : string) (xs : list value) :
  count_id key id xs = 0%nat -> others key id xs = xs.
Proof.
  unfold count_id, others. induction xs as [|r xs IH]; [reflexivity|].
  rewrite !filter_cons. destruct (has_id key id r) eqn:E.
  - rewrite decide_True by reflexivity. discriminate.
  - rewrite decide_False by discriminate. rewrite decide_True by reflexivity.
    intros H. by rewrite IH.
Qed.

Lemma upsert_array (key id : string) (entry : value) (prev : list value) :
  prop entry key = VStr id ->
  Forall (fun r => nullish r = false) prev ->
  upsert key entry (VArr prev) = Returned (VArr (entry :: others key id prev)).
Proof.
  intros Hid Hxs. unfold upsert.
  rewrite (filterM_others key id entry prev Hid Hxs). reflexivity.
Qed.

Lemma count_id_upserted (key id : string) (entry : value) (prev : list value) :
  prop entry key = VStr id ->
  count_id key id (entry :: others key id prev) = 1%nat.
Proof.
  intros Hid. unfold count_id. rewrite filter_cons.
  rewrite decide_True.
  - simpl. f_equal. apply count_id_others.
  - unfold has_id. rewrite Hid. by apply strict_eq_string.
Qed.

End HookMessages.

Section HookClaims.

Import CityHook.

(** C1 (snapshot authority). Whatever frames were merged before, incremental
    updates included, a [city_update] message is handled without an
    exception, and right after it the node list, the incident collection and
    the route collection of the hook are exactly the [city.nodes],
    [incidents] and [ambulance_routes] arrays that this message carries. *)
Theorem snapshot_authority
    (history : list inbound) (msg : value) (s0 : store)
    (ns incs rts : list value) :
  has_type msg "city_update" ->
  prop (prop msg "city") "nodes" = VArr ns ->
  prop msg "incidents" = VArr incs ->
  prop msg "ambulance_routes" = VArr rts ->
  let s := process (history ++ [Json msg]) s0 in
  onmessage (Json msg) (process history s0) = Returned s /\
  nodes s = VArr ns /\ incidents s = VArr incs /\ routes s = VArr rts.
Proof.
  intros Hty Hns Hincs Hrts. cbv zeta.
  rewrite process_snoc. unfold handle.
  rewrite !(onmessage_city_update msg _ Hty).
  split; [reflexivity|]. unfold nodes. simpl.
  rewrite Hincs, Hrts. repeat split.
  pose proof (prop_string_not_nullish _ _ _ Hty) as Hn.
  pose proof (prop_array_not_nullish _ _ _ Hns) as Hc.
  unfold opt. rewrite Hn, Hc, Hns. reflexivity.
Qed.

(** The scenario of the spec: a snapshot with nodes A and B, an incident X
    that arrives incrementally, then a snapshot without incidents. *)
Lemma snapshot_authority_witness :
  let history :=
    [Json (Samples.city_update [Samples.node "A"; Samples.node "B"] [] [] []);
     Json (Samples.incident_update (Samples.incident "X" "active"))] in
  let msg := Samples.city_update [Samples.node "A"; Samples.node "B"] [] [] [] in
  incidents (process history initial_store)
    = VArr [Samples.incident "X" "active"] /\
  let s := process (history ++ [Json msg]) initial_store in
  onmessage (Json msg) (process history initial_store) = Returned s /\
  nodes s = VArr [Samples.node "A"; Samples.node "B"] /\
  incidents s = VArr [] /\ routes s = VArr [].
Proof.
  intros history msg. split; [vm_compute; reflexivity|].
  apply (snapshot_authority history msg initial_store); reflexivity.
Defined.

(** C2 (incremental upsert). An [incident_update] (an
    [ambulance_route_update]) whose entry has the string identifier [id],
    merged into a collection of objects, leaves the message's entry first,
    followed by the entries that had another identifier, in their order:
    exactly one entry has the identifier [id], and when no entry had it
    the former collection follows the new entry unchanged. The rest of the
    view is untouched. *)
Theorem incremental_upsert (msg entry : value) (id : string)
    (prev : list value) (s : store) :
  Forall (fun r => nullish r = false) prev ->
  (has_type msg "incident_update" ->
   prop msg "incident" = entry ->
   prop entry "incident_id" = VStr id ->
   incidents s = VArr prev ->
   exists rest,
     onmessage (Json msg) s =
       Returned {| cityUpdate := cityUpdate s;
                   incidents := VArr (entry :: rest);
                   routes := routes s; events := events s |} /\
     rest = others "incident_id" id prev /\
     count_id "incident_id" id (entry :: rest) = 1%nat /\
     (forall r, r ∈ prev -> has_id "incident_id" id r = false -> r ∈ rest) /\
     (count_id "incident_id" id prev = 0%nat -> rest = prev))
  /\
  (has_type msg "ambulance_route_update" ->
   prop msg "route" = entry ->
   prop entry "route_id" = VStr id ->
   routes s = VArr prev ->
   exists rest,
     onmessage (Json msg) s =
       Returned {| cityUpdate := cityUpdate s;
                   incidents := incidents s;
                   routes := VArr (entry :: rest); events := events s |} /\
     rest = others "route_id" id prev /\
     count_id "route_id" id (entry :: rest) = 1%nat /\
     (forall r, r ∈ prev -> has_id "route_id" id r = false -> r ∈ rest) /\
     (count_id "route_id" id prev = 0%nat -> rest = prev)).
Proof.
  intros Hprev. split; intros Hty Hentry Hid Hcoll;
    pose proof (prop_string_not_nullish _ _ _ Hty) as Hn.
  - exists (others "incident_id" id prev). split; [|repeat split].
    + unfold onmessage. rewrite !(get_not_nullish _ _ Hn). simpl.
      rewrite !Hty. simpl. rewrite Hentry, Hcoll.
      rewrite (upsert_array _ _ _ _ Hid Hprev). reflexivity.
    + by apply count_id_upserted.
    + intros r Hr Hne. unfold others. by apply list_elem_of_filter.
    + apply others_absent.
  - exists (others "route_id" id prev). split; [|repeat split].
    + unfold onmessage. rewrite !(get_not_nullish _ _ Hn). simpl.
      rewrite !Hty. simpl. rewrite Hentry, Hcoll.
      rewrite (upsert_array _ _ _ _ Hid Hprev). reflexivity.
    + by apply count_id_upserted.
    + intros r Hr Hne. unfold others. by apply list_elem_of_filter.
    + apply others_absent.
Qed.

End HookClaims.

Section HookClaimsMessages.

Import CityHook.

(** Incident A is active, then an update for A says cleared: one entry for
    A, the cleared one, first, and B behind it; a route that was not there
    is inserted before the others. *)
Lemma incremental_upsert_witness :
  (exists rest,
     onmessage (Json (Samples.incident_update (Samples.incident "A" "cleared")))
       {| cityUpdate := VNull;
          incidents := VArr [Samples.incident "A" "active";
                             Samples.incident "B" "active"];
          routes := VArr []; events := VArr [] |} =
       Returned {| cityUpdate := VNull;
                   incidents := VArr (Samples.incident "A" "cleared" :: rest);
                   routes := VArr []; events := VArr [] |} /\
     rest = [Samples.incident "B" "active"] /\
     count_id "incident_id" "A" (Samples.incident "A" "cleared" :: rest) = 1%nat)
  /\
  (exists rest,
     onmessage (Json (Samples.ambulance_route_update (Samples.route "R2" "enroute")))
       {| cityUpdate := VNull; incidents := VArr [];
          routes := VArr [Samples.route "R1" "enroute"];
          events := VArr [] |} =
       Returned {| cityUpdate := VNull; incidents := VArr [];
                   routes := VArr (Samples.route "R2" "enroute" :: rest);
                   events := VArr [] |} /\
     rest = [Samples.route "R1" "enroute"]).
Proof.
  split.
  - destruct (proj1 (incremental_upsert
        (Samples.incident_update (Samples.incident "A" "cleared"))
        (Samples.incident "A" "cleared") "A"
        [Samples.incident "A" "active"; Samples.incident "B" "active"]
        {| cityUpdate := VNull;
           incidents := VArr [Samples.incident "A" "active";
                              Samples.incident "B" "active"];
           routes := VArr []; events := VArr [] |}
        ltac:(repeat constructor))
        eq_refl eq_refl eq_refl eq_refl) as (rest & Hrun & Hrest & Hcount & _).
    exists rest. split; [exact Hrun|]. split; [|exact Hcount].
    rewrite Hrest. vm_compute. reflexivity.
  - destruct (proj2 (incremental_upsert
        (Samples.ambulance_route_update (Samples.route "R2" "enroute"))
        (Samples.route "R2" "enroute") "R2"
        [Samples.route "R1" "enroute"]
        {| cityUpdate := VNull; incidents := VArr [];
           routes := VArr [Samples.route "R1" "enroute"];
           events := VArr [] |}
        ltac:(repeat constructor))
        eq_refl eq_refl eq_refl eq_refl) as (rest & Hrun & Hrest & _).
    exists rest. split; [exact Hrun|].
    rewrite Hrest. vm_compute. reflexivity.
Defined.

(** The hook lets a message of a kind it does not dispatch on fall through
    every branch. *)
Lemma hook_onmessage_unknown (msg : value) (kind : string) (s : store) :
  has_type msg kind -> kind ∉ hook_kinds ->
  onmessage (Json msg) s = Returned s.
Proof.
  intros Hty Hkind. pose proof (prop_string_not_nullish _ _ _ Hty) as Hn.
  unfold onmessage. rewrite !(get_not_nullish _ _ Hn). simpl.
  rewrite !Hty. unfold hook_kinds in Hkind.
  rewrite !strict_eq_string_ne; [reflexivity|..];
    intros ->; apply Hkind; set_solver.
Qed.

(** A payload without a string [type] that is not [null] is dropped by the
    hook: [null] is the only parsed value on which reading [type] throws. *)
Lemma hook_onmessage_untyped (data : inbound) (s : store) :
  untyped data -> data <> Json VNull -> data <> Json VUndefined ->
  onmessage data s = Returned s.
Proof.
  destruct data as [|v]; [reflexivity|]. simpl. intros Hty Hnull Hundef.
  assert (nullish v = false) as Hn by (destruct v; simpl; congruence).
  unfold onmessage. rewrite !(get_not_nullish _ _ Hn). simpl.
  destruct (prop v "type"); try discriminate; reflexivity.
Qed.

(** C3 at the failing payload: the frame [null] parses, to a value without
    a [type], and the hook's handler throws a [TypeError] on it; the event
    loop reports the exception. *)
Theorem hook_onmessage_null_throws (st : state) :
  untyped (Json VNull) /\
  onmessage (Json VNull) (view st) = Threw TypeError /\
  exec (deliver (Json VNull)) st = (st, [Uncaught TypeError]).
Proof. repeat split. Qed.

(** C8 as the spec words it fails: after a snapshot with two log entries
    the hook retains both but not the entry it held, and after the next
    snapshot, with one entry, it retains that one alone; no bound makes
    both the result of appending to the retained log. *)
Lemma event_log_appended_counterexample :
  let e0 := Samples.log_entry "e0" in
  let e1 := Samples.log_entry "e1" in
  let e2 := Samples.log_entry "e2" in
  let e3 := Samples.log_entry "e3" in
  let s0 := {| cityUpdate := VNull; incidents := VArr []; routes := VArr [];
               events := VArr [e0] |} in
  exists s1 s2,
    onmessage (Json (Samples.city_update [] [] [] [e1; e2])) s0 = Returned s1 /\
    onmessage (Json (Samples.city_update [] [] [] [e3])) s1 = Returned s2 /\
    events s1 = VArr [e1; e2] /\
    events s2 = VArr [e3] /\
    ~ (exists bound : nat,
         events s1 = VArr (appended_log bound [e0] [e1; e2]) /\
         events s2 = VArr (appended_log bound [e1; e2] [e3])).
Proof.
  intros e0 e1 e2 e3 s0. eexists _, _.
  split; [vm_compute; reflexivity|]. split; [vm_compute; reflexivity|].
  split; [reflexivity|]. split; [reflexivity|].
  intros [bound [H1 H2]]. simpl in H1, H2.
  injection H1 as H1. injection H2 as H2.
  apply (f_equal length) in H1, H2. unfold appended_log, last_entries in *.
  rewrite length_drop in H1, H2. simpl in H1, H2. lia.
Qed.

(** C8, amended: a [city_update] message replaces the retained event log by
    the [event_log_tail] it carries, and by the empty log when it carries
    none; nothing of the former log is kept. *)
Theorem event_log_replaced (msg : value) (s : store) :
  has_type msg "city_update" ->
  exists s',
    onmessage (Json msg) s = Returned s' /\
    events s' = coalesce (prop msg "event_log_tail") (VArr []).
Proof.
  intros Hty. rewrite (onmessage_city_update msg s Hty).
  eexists. split; reflexivity.
Qed.

Lemma event_log_replaced_witness :
  exists s',
    onmessage (Json (Samples.city_update [] [] [] [Samples.log_entry "e1"]))
      {| cityUpdate := VNull; incidents := VArr []; routes := VArr [];
         events := VArr [Samples.log_entry "e0"] |} = Returned s' /\
    events s' = VArr [Samples.log_entry "e1"].
Proof.
  apply (event_log_replaced
           (Samples.city_update [] [] [] [Samples.log_entry "e1"])).
  vm_compute. reflexivity.
Defined.

End HookClaimsMessages.

(** ** The reconnection of the hook *)

Lemma scheduled_delays_app (es1 es2 : list effect) :
  scheduled_delays (es1 ++ es2) = scheduled_delays es1 ++ scheduled_delays es2.
Proof.
  induction es1 as [|e es1 IH]; [reflexivity|].
  destruct e; simpl; rewrite ?IH; reflexivity.
Qed.

Lemma connection_attempts_app (es1 es2 : list effect) :
  connection_attempts (es1 ++ es2) =
  connection_attempts es1 ++ connection_attempts es2.
Proof.
  induction es1 as [|e es1 IH]; [reflexivity|].
  destruct e; simpl; rewrite ?IH; reflexivity.
Qed.



Section HookConnection.

Import CityHook.

Variable opts : options.

(** What one call of [scheduleReconnect] does once the attempts are used
    up: the status is [error], no timer is armed. *)
Lemma scheduleReconnect_exhausted (s : state) :
  reconnectMaxAttempts opts <= reconnectAttemptRef s ->
  let '(s', es) := exec (scheduleReconnect opts) s in
  status s' = error /\ reconnectTimerRef s' = None /\
  reconnectAttemptRef s' = reconnectAttemptRef s /\
  scheduled_delays es = [] /\ connection_attempts es = [].
Proof.
  intros Hmax. destruct s as [ws n t st le v b]. simpl in Hmax. hook_code.
  destruct t; simpl; rewrite bool_decide_eq_true_2 by exact Hmax; simpl; auto.
Qed.






End HookConnection.

(** ** The service *)


Lemma connection_attempts_invokes (cbs : list nat) (arg : value) :
  connection_attempts ((fun cb => Invoke cb arg) <$> cbs) = [].
Proof. induction cbs as [|cb cbs IH]; [reflexivity | exact IH]. Qed.


Section ServiceMessages.

Import Service.

(** [emit] only calls listeners and leaves the service as it is. *)
Lemma emit_run (name : string) (data : value) (s : state) :
  inherited name = false ->
  exists cbs, emit name data s = (tt, s, (fun cb => Invoke cb data) <$> cbs).
Proof.
  intros Hname. unfold emit. rewrite Hname. service_code.
  destruct (eventListeners s !! name) as [cbs|].
  - by exists cbs.
  - by exists [].
Qed.

(** So does [handleMessage], on every value. *)
Lemma handleMessage_run (message : value) (s : state) :
  exists cbs arg,
    handleMessage message s = (tt, s, (fun cb => Invoke cb arg) <$> cbs).
Proof.
  assert (forall name data, inherited name = false -> exists cbs arg,
    emit name data s = (tt, s, (fun cb => Invoke cb arg) <$> cbs)) as Hemit.
  { intros name data Hname. destruct (emit_run name data s Hname) as [cbs H].
    eauto. }
  assert (exists (cbs : list nat) (arg : value),
    @skip state s = (tt, s, (fun cb => Invoke cb arg) <$> cbs)) as Hskip.
  { by exists [], VNull. }
  unfold handleMessage.
  repeat (case_match; try case_bool_decide); auto.
Qed.

(** A payload that does not parse, or parses to a value without a string
    [type], is dropped by the service: no listener runs, nothing changes,
    nothing is thrown. *)
Lemma service_onmessage_untyped (data : inbound) (s : state) :
  untyped data -> onmessage data s = (tt, s, []).
Proof.
  destruct data as [|v]; [reflexivity|]. simpl. intros Hty.
  unfold onmessage, handleMessage. rewrite Hty, orb_true_r. reflexivity.
Qed.

(** A message of a kind outside the [switch] reaches its [default]. *)
Lemma service_onmessage_unknown (msg : value) (kind : string) (s : state) :
  has_type msg kind -> kind ∉ service_kinds ->
  onmessage (Json msg) s = (tt, s, []).
Proof.
  intros Hty Hkind. unfold has_type in Hty.
  assert (falsy msg = false) as Hf by (destruct msg; simpl in *; congruence).
  unfold onmessage, handleMessage. rewrite Hty, Hf. simpl.
  unfold service_kinds in Hkind.
  repeat (case_bool_decide; [subst; exfalso; apply Hkind; set_solver|]).
  reflexivity.
Qed.

End ServiceMessages.

Section ServiceConnection.

Import Service.

Variable wsUrl_valid : bool.

Lemma onmessage_exec (data : inbound) (s : state) :
  exists cbs arg,
    exec (onmessage data) s = (s, (fun cb => Invoke cb arg) <$> cbs).
Proof.
  unfold exec. destruct data as [|v]; simpl.
  - by exists [], VNull.
  - destruct (handleMessage_run v s) as (cbs & arg & ->). by exists cbs, arg.
Qed.







End ServiceConnection.

(** ** Reconnection, in the hook and in the service *)





(** ** Unknown kinds, sending, and intentional disconnects *)

(** C7 (unknown-type robustness). A parsed message whose [type] is a string
    outside the kinds a client dispatches on changes nothing: in the hook
    the handler returns the view as it was (cityUpdate and with it the node
    list, incidents, routes, events), the whole state of the hook, status
    and last error included, is the same and nothing is reported; in the
    service no listener runs and the state is the same. *)
Theorem unknown_type_ignored (msg : value) (kind : string) :
  has_type msg kind ->
  (kind ∉ hook_kinds ->
   forall st : CityHook.state,
     CityHook.onmessage (Json msg) (CityHook.view st)
       = Returned (CityHook.view st) /\
     CityHook.exec (CityHook.deliver (Json msg)) st = (st, []))
  /\
  (kind ∉ service_kinds ->
   forall s : Service.state,
     Service.exec (Service.onmessage (Json msg)) s = (s, [])).
Proof.
  intros Hty. split; intros Hkind s.
  - pose proof (hook_onmessage_unknown msg kind (CityHook.view s) Hty Hkind)
      as Hview.
    split; [exact Hview|].
    cbv beta iota zeta delta [CityHook.exec CityHook.deliver gets mbind M_bind].
    rewrite Hview. by destruct s.
  - unfold Service.exec.
    by rewrite (service_onmessage_unknown msg kind s Hty Hkind).
Qed.

Lemma unknown_type_ignored_witness :
  has_type Samples.unrecognized "unrecognized_kind" /\
  (forall st : CityHook.state,
     CityHook.onmessage (Json Samples.unrecognized) (CityHook.view st)
       = Returned (CityHook.view st) /\
     CityHook.exec (CityHook.deliver (Json Samples.unrecognized)) st = (st, []))
  /\
  (forall s : Service.state,
     Service.exec (Service.onmessage (Json Samples.unrecognized)) s = (s, [])).
Proof.
  split; [reflexivity|].
  pose proof (unknown_type_ignored Samples.unrecognized "unrecognized_kind"
                eq_refl) as [Hhook Hservice].
  split.
  - apply Hhook. compute_done.
  - apply Hservice. compute_done.
Defined.

(** C5 as stated fails on the service: its [send] hands the caller the same
    (empty) result when the socket is not open and when it is, so no
    failure is reported. *)
Lemma send_failure_result_counterexample :
  let closed := Service.initial in
  exists opened es,
    Service.run true [Service.Connect; Service.SocketOpened 0] closed
      = Some (opened, es) /\
    Service.is_open (Service.browser closed) (Service.ws closed) = false /\
    Service.is_open (Service.browser opened) (Service.ws opened) = true /\
    Service.send Samples.dispatch_ambulance closed = (tt, closed, []) /\
    Service.send Samples.dispatch_ambulance opened
      = (tt, opened, [WsSend 0 (Serialized Samples.dispatch_ambulance)]) /\
    ~ (exists failure success : unit,
         failure <> success /\
         (Service.send Samples.dispatch_ambulance closed).1.1 = failure /\
         (Service.send Samples.dispatch_ambulance opened).1.1 = success).
Proof.
  intros closed. eexists _, _. split; [vm_compute; reflexivity|].
  repeat (split; [vm_compute; reflexivity|]).
  intros ([] & [] & Hne & _). by apply Hne.
Qed.

(** C5, amended. A send while the socket is not open transmits nothing and
    changes nothing, and a send while it is open hands the serialized
    message to the socket; [sendMessage] of the hook returns [false] in the
    first case and [true] in the second, while [send] of the service returns
    nothing in either. *)
Theorem send_only_when_open (msg : value) :
  (forall s : CityHook.state,
     (CityHook.is_open (CityHook.browser s) (CityHook.wsRef s) = false ->
      CityHook.sendMessage msg s = (false, s, [])) /\
     (forall id,
        CityHook.wsRef s = Some id -> CityHook.browser s !! id = Some OPEN ->
        CityHook.sendMessage msg s = (true, s, [WsSend id (Serialized msg)])))
  /\
  (forall s : Service.state,
     (Service.is_open (Service.browser s) (Service.ws s) = false ->
      Service.send msg s = (tt, s, [])) /\
     (forall id,
        Service.ws s = Some id -> Service.browser s !! id = Some OPEN ->
        Service.send msg s = (tt, s, [WsSend id (Serialized msg)]))).
Proof.
  split; intros s; split.
  - intros Hopen. hook_code. by rewrite Hopen.
  - intros id Hws Hst. hook_code. rewrite Hws. simpl.
    unfold in_state. by rewrite bool_decide_eq_true_2.
  - intros Hopen. service_code. by rewrite Hopen.
  - intros id Hws Hst. service_code. rewrite Hws. simpl.
    unfold in_state. by rewrite bool_decide_eq_true_2.
Qed.

(** The scenario of the spec: [dispatch_ambulance] before any connection. *)
Lemma send_only_when_open_witness :
  CityHook.sendMessage Samples.dispatch_ambulance CityHook.initial
    = (false, CityHook.initial, []) /\
  Service.send Samples.dispatch_ambulance Service.initial
    = (tt, Service.initial, []).
Proof.
  pose proof (send_only_when_open Samples.dispatch_ambulance) as [Hhook Hservice].
  split.
  - apply (proj1 (Hhook CityHook.initial)). reflexivity.
  - apply (proj1 (Hservice Service.initial)). reflexivity.
Defined.

(** C6 at the failing inputs. Service: the server is down, the socket of
    [connect()] errors and closes, [disconnect()] is called; the two
    timeouts armed meanwhile are still pending and the first to fire
    constructs a socket. Hook: the socket is open, the cleanup
    [closeSocket()] closes it; its close event arms a timer, which fires
    and constructs a socket. *)
Theorem disconnect_then_reconnects :
  (exists s1 e1 s2 e2,
     Service.run true
       [Service.Connect; Service.SocketError 0; Service.SocketClosed 0 1006;
        Service.Disconnect] Service.initial = Some (s1, e1) /\
     Service.timeouts s1 = 2%nat /\
     Service.run true [Service.ReconnectTimeout] s1 = Some (s2, e2) /\
     connection_attempts e2 = [1%nat])
  /\
  (exists s1 e1 s2 e2,
     CityHook.run CityHook.default_options
       [CityHook.Mount; CityHook.SocketOpened 0; CityHook.Unmount]
       CityHook.initial = Some (s1, e1) /\
     CityHook.reconnectTimerRef s1 = None /\
     CityHook.run CityHook.default_options
       [CityHook.SocketClosed 0; CityHook.TimerFired] s1 = Some (s2, e2) /\
     scheduled_delays e2 = [1000] /\
     connection_attempts e2 = [1%nat]).
Proof.
  split; eexists _, _, _, _.
  - split; [vm_compute; reflexivity|]. split; [reflexivity|].
    split; [vm_compute; reflexivity|]. reflexivity.
  - split; [vm_compute; reflexivity|]. split; [reflexivity|].
    split; [vm_compute; reflexivity|]. split; reflexivity.
Qed.

(** ** The replay buffer *)

Section ReplayBuffer.

Import Replay.

Lemma slice_last (n : nat) (xs : list value) :
  (0 < n)%nat -> slice (- Z.of_nat n) xs = last_entries n xs.
Proof.
  intros Hn. unfold slice, last_entries.
  rewrite bool_decide_eq_true_2 by lia. f_equal. lia.
Qed.

Lemma last_entries_length {A} (n : nat) (xs : list A) :
  length (last_entries n xs) = (length xs `min` n)%nat.
Proof. unfold last_entries. rewrite length_drop. lia. Qed.

(** Trimming a log before more entries arrive does not change what is kept
    in the end. *)
Lemma last_entries_app {A} (n : nat) (xs ys : list A) :
  last_entries n (last_entries n xs ++ ys) = last_entries n (xs ++ ys).
Proof.
  unfold last_entries. rewrite !length_app, length_drop.
  destruct (decide (length xs <= n)%nat) as [Hle|Hgt].
  - replace (length xs - n)%nat with 0%nat by lia.
    rewrite Nat.sub_0_r. reflexivity.
  - replace (length xs - (length xs - n) + length ys - n)%nat
      with (length ys) by lia.
    replace (length xs + length ys - n)%nat
      with ((length xs - n) + length ys)%nat by lia.
    rewrite <- drop_drop. f_equal.
    rewrite drop_app_le by lia. reflexivity.
Qed.

(** The effect while recording: the update joins the buffer, which keeps
    its last 300 entries. *)
Lemma record_buffer (update : value) (s : state) :
  latestCityUpdate s = Some update -> isRecording s = true ->
  bufferRef (record s) = last_entries 300 (bufferRef s ++ [update]) /\
  isRecording (record s) = true.
Proof.
  intros Hl Hr. unfold record. rewrite Hl, Hr. simpl.
  rewrite (slice_last 300) by lia. destruct (isPlaying s); simpl; auto.
Qed.

Lemma record_bound (s : state) :
  (length (bufferRef s) <= 300)%nat ->
  (length (bufferRef (record s)) <= 300)%nat.
Proof.
  intros Hlen. unfold record.
  destruct (latestCityUpdate s) as [update|]; [|exact Hlen].
  destruct (isRecording s); simpl; [|exact Hlen].
  destruct (isPlaying s); simpl; rewrite (slice_last 300), last_entries_length by lia; lia.
Qed.

Lemma step_bound (ev : event) (s : state) :
  (length (bufferRef s) <= 300)%nat ->
  (length (bufferRef (step ev s)) <= 300)%nat.
Proof.
  intros Hlen. destruct ev; simpl; try (by apply record_bound).
  - destruct (isPlaying s); [|exact Hlen].
    unfold rerun_if_playing_changed. case_bool_decide; [|apply record_bound];
      unfold tick; case_bool_decide; exact Hlen.
  - unfold rerun_if_playing_changed. case_bool_decide; [|apply record_bound];
      exact Hlen.
Qed.

Lemma run_bound (evs : list event) (s : state) :
  (length (bufferRef s) <= 300)%nat ->
  (length (bufferRef (run evs s)) <= 300)%nat.
Proof.
  revert s. induction evs as [|ev evs IH]; intros s Hlen; [exact Hlen|].
  apply IH, step_bound, Hlen.
Qed.

(** Updates that arrive while recording fill the buffer in arrival order. *)
Lemma run_updates (updates : list value) (s : state) :
  isRecording s = true ->
  (length (bufferRef s) <= 300)%nat ->
  bufferRef (run (Update <$> updates) s) =
    last_entries 300 (bufferRef s ++ updates).
Proof.
  revert s. induction updates as [|u us IH]; intros s Hr Hlen.
  - simpl. rewrite app_nil_r. unfold last_entries.
    by replace (length (bufferRef s) - 300)%nat with 0%nat by lia.
  - destruct (record_buffer u (set_latestCityUpdate (Some u) s) eq_refl Hr)
      as [Hbuf Hrec].
    change (run (Update <$> u :: us) s)
      with (run (Update <$> us) (record (set_latestCityUpdate (Some u) s))).
    rewrite IH.
    + rewrite Hbuf. simpl. rewrite last_entries_app, <- app_assoc. reflexivity.
    + exact Hrec.
    + apply record_bound. exact Hlen.
Qed.

(** C9 (replay FIFO bound). From an empty buffer with recording on, after
    301 updates the buffer holds the last 300 of them in arrival order, the
    first one gone, and its length is 300; and whatever happens to the page
    afterwards (updates, toggles, ticks, seeks), the buffer never holds more
    than 300 snapshots. *)
Theorem replay_fifo_bound (s : state) (first : value) (rest : list value)
    (evs : list event) :
  bufferRef s = [] -> isRecording s = true -> length rest = 300%nat ->
  bufferRef (run (Update <$> first :: rest) s) = rest /\
  length (bufferRef (run (Update <$> first :: rest) s)) = 300%nat /\
  (length (bufferRef (run evs (run (Update <$> first :: rest) s))) <= 300)%nat /\
  (length (bufferRef (run evs s)) <= 300)%nat.
Proof.
  intros Hempty Hrec Hlen.
  assert (bufferRef (run (Update <$> first :: rest) s) = rest) as Hbuf.
  { rewrite run_updates by (rewrite ?Hempty; simpl; auto with lia).
    rewrite Hempty. unfold last_entries. simpl. rewrite Hlen. reflexivity. }
  rewrite Hbuf. split; [reflexivity|]. split; [exact Hlen|].
  split; apply run_bound; rewrite ?Hbuf, ?Hempty; simpl; lia.
Qed.

Lemma replay_fifo_bound_witness :
  let rest := (fun n => VNum (Z.of_nat n)) <$> seq 1 300 in
  let s' := run (Update <$> VNum 0 :: rest) (mounted None) in
  bufferRef s' = rest /\
  length (bufferRef s') = 300%nat /\
  (length (bufferRef (run [TogglePlaying; Tick; Seek 7; Update (VNum 301)] s'))
     <= 300)%nat /\
  (length (bufferRef (run [TogglePlaying; Tick; Seek 7; Update (VNum 301)]
                        (mounted None))) <= 300)%nat.
Proof.
  intros rest s'.
  apply (replay_fifo_bound (mounted None) (VNum 0) rest); reflexivity.
Defined.

(** C10 (the cursor read is in bounds). When the buffer is not empty the
    read returns the entry at the cursor clamped into the buffer,
    [max(0, min(playIndex, length - 1))], which is a position of the buffer
    whatever integer the cursor is; and the read returns nothing exactly
    when the buffer is empty. *)
Theorem current_in_bounds (s : state) :
  (bufferRef s <> [] ->
   exists (i : nat) (entry : value),
     Z.of_nat i =
       Z.max 0 (Z.min (playIndex s) (Z.of_nat (length (bufferRef s)) - 1)) /\
     (i < length (bufferRef s))%nat /\
     bufferRef s !! i = Some entry /\
     current s = Some entry)
  /\
  (current s = None <-> bufferRef s = []).
Proof.
  assert (bufferRef s <> [] ->
   exists (i : nat) (entry : value),
     Z.of_nat i =
       Z.max 0 (Z.min (playIndex s) (Z.of_nat (length (bufferRef s)) - 1)) /\
     (i < length (bufferRef s))%nat /\
     bufferRef s !! i = Some entry /\
     current s = Some entry) as Hread.
  { intros Hne.
    assert (0 < length (bufferRef s))%nat as Hpos
      by (destruct (bufferRef s); [congruence | simpl; lia]).
    set (c := Z.max 0 (Z.min (playIndex s) (Z.of_nat (length (bufferRef s)) - 1))).
    assert (Z.to_nat c < length (bufferRef s))%nat as Hlt by lia.
    destruct (lookup_lt_is_Some_2 _ _ Hlt) as [entry Hentry].
    exists (Z.to_nat c), entry. split; [lia|]. split; [exact Hlt|].
    split; [exact Hentry|]. unfold current, index.
    rewrite bool_decide_eq_false_2 by lia. fold c.
    rewrite bool_decide_eq_true_2 by lia. exact Hentry. }
  split; [exact Hread|]. split.
  - intros Hnone. destruct (decide (bufferRef s = [])) as [|Hne]; [done|].
    destruct (Hread Hne) as (i & entry & _ & _ & _ & Hcur). congruence.
  - intros Hempty. unfold current. by rewrite Hempty.
Qed.

(** A cursor left at 7 over three snapshots reads the last one, a cursor at
    -2 the first one, and an empty buffer reads nothing. *)
Lemma current_in_bounds_witness :
  let buffer := [VNum 10; VNum 11; VNum 12] in
  let at_ (cursor : Z) :=
    {| latestCityUpdate := None; bufferRef := buffer; isRecording := true;
       isPlaying := false; playIndex := cursor |} in
  current (at_ 7) = Some (VNum 12) /\
  current (at_ (-2)) = Some (VNum 10) /\
  (current (mounted None) = None <-> bufferRef (mounted None) = []).
Proof.
  intros buffer at_.
  destruct (proj1 (current_in_bounds (at_ 7)) ltac:(discriminate))
    as (i & entry & Hi & _ & Hentry & Hcur).
  destruct (proj1 (current_in_bounds (at_ (-2))) ltac:(discriminate))
    as (j & entry' & Hj & _ & Hentry' & Hcur').
  split; [reflexivity|]. split; [reflexivity|].
  exact (proj2 (current_in_bounds (mounted None))).
Defined.

End ReplayBuffer.

(** ** Further properties of the hook's merge *)

Section HookMerge.

Import CityHook.

Lemma filterM_pure (key : string) (f : value -> bool) (xs : list value) :
  entries xs ->
  filterM (fun r => a ← get r key; mret (f a)) xs
  = Returned (filter (fun r => f (prop r key) = true) xs).
Proof.
  intros Hxs. induction Hxs as [|r xs Hr _ IH]; [reflexivity|].
  simpl. rewrite (get_not_nullish _ _ Hr). simpl.
  simpl in IH. rewrite IH. simpl. rewrite filter_cons.
  destruct (f (prop r key)); reflexivity.
Qed.

Lemma activeRoutes_array (xs : list value) (s : store) :
  entries xs -> routes s = VArr xs ->
  activeRoutes s = Returned (VArr (active xs)).
Proof.
  intros Hxs Hr. unfold activeRoutes. rewrite Hr.
  rewrite (filterM_pure "status" (fun a => strict_eq a (VStr "enroute")) xs Hxs).
  reflexivity.
Qed.

Lemma handle_route_update (msg entry : value) (id : string)
    (prev : list value) (s : store) :
  entries prev -> has_type msg "ambulance_route_update" ->
  prop msg "route" = entry -> prop entry "route_id" = VStr id ->
  routes s = VArr prev ->
  handle s (Json msg) =
    {| cityUpdate := cityUpdate s; incidents := incidents s;
       routes := VArr (entry :: others "route_id" id prev);
       events := events s |}.
Proof.
  intros Hprev Hty Hentry Hid Hcoll.
  pose proof (prop_string_not_nullish _ _ _ Hty) as Hn.
  unfold handle, onmessage. rewrite !(get_not_nullish _ _ Hn). simpl.
  rewrite !Hty. simpl. rewrite Hentry, Hcoll.
  rewrite (upsert_array _ _ _ _ Hid Hprev). reflexivity.
Qed.

Lemma handle_incident_update (msg entry : value) (id : string)
    (prev : list value) (s : store) :
  entries prev -> has_type msg "incident_update" ->
  prop msg "incident" = entry -> prop entry "incident_id" = VStr id ->
  incidents s = VArr prev ->
  handle s (Json msg) =
    {| cityUpdate := cityUpdate s;
       incidents := VArr (entry :: others "incident_id" id prev);
       routes := routes s; events := events s |}.
Proof.
  intros Hprev Hty Hentry Hid Hcoll.
  pose proof (prop_string_not_nullish _ _ _ Hty) as Hn.
  unfold handle, onmessage. rewrite !(get_not_nullish _ _ Hn). simpl.
  rewrite !Hty. simpl. rewrite Hentry, Hcoll.
  rewrite (upsert_array _ _ _ _ Hid Hprev). reflexivity.
Qed.

Lemma entries_others (key id : string) (xs : list value) :
  entries xs -> entries (others key id xs).
Proof.
  unfold entries, others. rewrite !Forall_forall. intros Hxs r Hr.
  apply list_elem_of_filter in Hr as [_ Hr]. by apply Hxs.
Qed.

Lemma others_has_id (key id : string) (entry : value) (xs : list value) :
  prop entry key = VStr id ->
  others key id (entry :: xs) = others key id xs.
Proof.
  intros Hid. unfold others. rewrite filter_cons.
  rewrite decide_False; [reflexivity|].
  unfold has_id. rewrite Hid. simpl. by rewrite bool_decide_eq_true_2.
Qed.

Lemma others_idempotent (key id : string) (xs : list value) :
  others key id (others key id xs) = others key id xs.
Proof.
  unfold others. rewrite list_filter_filter. apply list_filter_iff.
  intros r. tauto.
Qed.

Lemma active_others (id : string) (xs : list value) :
  active (others "route_id" id xs) = others "route_id" id (active xs).
Proof.
  unfold active, others. rewrite !list_filter_filter. apply list_filter_iff.
  intros r. tauto.
Qed.

(** X1. A typed route update puts its route first among the active routes
    when its status is [enroute] and takes the route of that identifier out
    of the active routes otherwise; the other active routes stay, in their
    order. *)
Theorem active_routes_after_update (msg entry : value) (id st : string)
    (prev : list value) (s : store) :
  entries prev -> has_type msg "ambulance_route_update" ->
  prop msg "route" = entry -> prop entry "route_id" = VStr id ->
  prop entry "status" = VStr st -> routes s = VArr prev ->
  activeRoutes s = Returned (VArr (active prev)) /\
  activeRoutes (handle s (Json msg)) =
    Returned (VArr ((if bool_decide (st = "enroute") then [entry] else [])
                    ++ others "route_id" id (active prev))) /\
  (st <> "enroute" ->
   exists act, activeRoutes (handle s (Json msg)) = Returned (VArr act) /\
               count_id "route_id" id act = 0%nat).
Proof.
  intros Hprev Hty Hentry Hid Hst Hcoll.
  pose proof (prop_string_not_nullish _ _ _ Hid) as Hn.
  assert (activeRoutes (handle s (Json msg)) =
    Returned (VArr ((if bool_decide (st = "enroute") then [entry] else [])
                    ++ others "route_id" id (active prev)))) as Hact.
  { rewrite (handle_route_update msg entry id prev s Hprev Hty Hentry Hid Hcoll).
    rewrite (activeRoutes_array (entry :: others "route_id" id prev)).
    - unfold active at 1. rewrite filter_cons. rewrite Hst. simpl.
      fold (active (others "route_id" id prev)). rewrite active_others.
      case_bool_decide; [rewrite decide_True by done | rewrite decide_False by done];
        reflexivity.
    - constructor; [exact Hn | by apply entries_others].
    - reflexivity. }
  split; [by apply activeRoutes_array|]. split; [exact Hact|].
  intros Hne. eexists. split; [exact Hact|].
  rewrite bool_decide_eq_false_2 by exact Hne. simpl. apply count_id_others.
Qed.

Lemma active_routes_after_update_witness :
  let r1 := Samples.route "R1" "enroute" in
  let r2 := Samples.route "R2" "enroute" in
  let s := {| cityUpdate := VNull; incidents := VArr [];
              routes := VArr [r1; r2]; events := VArr [] |} in
  let msg := Samples.ambulance_route_update (Samples.route "R1" "cleared") in
  activeRoutes s = Returned (VArr [r1; r2]) /\
  activeRoutes (handle s (Json msg)) = Returned (VArr [r2]).
Proof.
  intros r1 r2 s msg.
  destruct (active_routes_after_update msg (Samples.route "R1" "cleared")
              "R1" "cleared" [r1; r2] s ltac:(repeat constructor)
              eq_refl eq_refl eq_refl eq_refl eq_refl) as (H1 & H2 & _).
  split; [exact H1 | exact H2].
Defined.

Lemma process_pair (a b : inbound) (s : store) :
  process [a; b] s = handle (handle s a) b.
Proof. reflexivity. Qed.

Lemma handle_city_update (msg : value) (s : store) :
  has_type msg "city_update" ->
  handle s (Json msg) =
    {| cityUpdate := msg;
       incidents := coalesce (prop msg "incidents") (VArr []);
       routes := coalesce (prop msg "ambulance_routes") (VArr []);
       events := coalesce (prop msg "event_log_tail") (VArr []) |}.
Proof.
  intros Hty. unfold handle. by rewrite (onmessage_city_update msg s Hty).
Qed.

(** X2. A typed message that arrives twice in a row leaves the view as one
    delivery does: a snapshot overwrites itself, and an upsert of the same
    entry filters out the copy it inserted before. *)
Theorem repeated_update_absorbed (msg entry : value) (id : string)
    (prev : list value) (s : store) :
  entries prev ->
  (has_type msg "city_update" ->
   process [Json msg; Json msg] s = process [Json msg] s) /\
  (has_type msg "incident_update" ->
   prop msg "incident" = entry -> prop entry "incident_id" = VStr id ->
   incidents s = VArr prev ->
   process [Json msg; Json msg] s = process [Json msg] s) /\
  (has_type msg "ambulance_route_update" ->
   prop msg "route" = entry -> prop entry "route_id" = VStr id ->
   routes s = VArr prev ->
   process [Json msg; Json msg] s = process [Json msg] s).
Proof.
  intros Hprev. rewrite process_pair.
  change (process [Json msg] s) with (handle s (Json msg)).
  split; [|split].
  - intros Hty. by rewrite !(handle_city_update msg _ Hty).
  - intros Hty Hentry Hid Hcoll.
    pose proof (prop_string_not_nullish _ _ _ Hid) as Hn.
    rewrite (handle_incident_update msg entry id prev s) by assumption.
    rewrite (handle_incident_update msg entry id
               (entry :: others "incident_id" id prev));
      [| constructor; [exact Hn | by apply entries_others]
       | assumption | assumption | assumption | reflexivity].
    simpl. by rewrite others_has_id, others_idempotent.
  - intros Hty Hentry Hid Hcoll.
    pose proof (prop_string_not_nullish _ _ _ Hid) as Hn.
    rewrite (handle_route_update msg entry id prev s) by assumption.
    rewrite (handle_route_update msg entry id
               (entry :: others "route_id" id prev));
      [| constructor; [exact Hn | by apply entries_others]
       | assumption | assumption | assumption | reflexivity].
    simpl. by rewrite others_has_id, others_idempotent.
Qed.

Lemma repeated_update_absorbed_witness :
  let a := Samples.incident "A" "active" in
  let b := Samples.incident "B" "active" in
  let s := {| cityUpdate := VNull; incidents := VArr [a; b];
              routes := VArr []; events := VArr [] |} in
  let msg := Samples.incident_update (Samples.incident "B" "cleared") in
  process [Json msg; Json msg] s = process [Json msg] s /\
  incidents (process [Json msg] s) = VArr [Samples.incident "B" "cleared"; a].
Proof.
  intros a b s msg. split; [|vm_compute; reflexivity].
  apply (proj1 (proj2 (repeated_update_absorbed msg
           (Samples.incident "B" "cleared") "B" [a; b] s
           ltac:(repeat constructor)))); reflexivity.
Defined.

Lemma count_id_other_entry (key id id' : string) (entry : value)
    (xs : list value) :
  prop entry key = VStr id -> id <> id' ->
  count_id key id' (entry :: xs) = count_id key id' xs.
Proof.
  intros Hid Hne. unfold count_id. rewrite filter_cons.
  rewrite decide_False; [reflexivity|].
  unfold has_id. rewrite Hid. simpl. by rewrite bool_decide_eq_false_2.
Qed.

Lemma count_id_others_le (key id id' : string) (xs : list value) :
  (count_id key id' (others key id xs) <= count_id key id' xs)%nat.
Proof.
  unfold count_id, others. induction xs as [|r xs IH]; [done|].
  rewrite (filter_cons (fun r => has_id key id r = false)).
  rewrite (filter_cons (fun r => has_id key id' r = true) r xs).
  destruct (decide (has_id key id r = false));
    rewrite ?filter_cons; repeat case_decide; simpl; lia.
Qed.

Lemma unique_ids_upserted (key id : string) (entry : value) (prev : list value) :
  prop entry key = VStr id -> unique_ids key prev ->
  unique_ids key (entry :: others key id prev).
Proof.
  intros Hid Huniq id'. destruct (decide (id = id')) as [<-|Hne].
  - by rewrite count_id_upserted.
  - rewrite (count_id_other_entry key id id') by assumption.
    etrans; [apply count_id_others_le | apply Huniq].
Qed.

(** X3. Upserting keeps identifiers unique: when no two entries of the
    collection share a string identifier before a typed incremental update,
    none do after it, and the collection grows by at most one entry. *)
Theorem upsert_keeps_ids_unique (msg entry : value) (id : string)
    (prev : list value) (s : store) :
  entries prev ->
  (has_type msg "incident_update" ->
   prop msg "incident" = entry -> prop entry "incident_id" = VStr id ->
   incidents s = VArr prev -> unique_ids "incident_id" prev ->
   exists next,
     incidents (handle s (Json msg)) = VArr next /\
     unique_ids "incident_id" next /\ entries next /\
     (length next <= S (length prev))%nat) /\
  (has_type msg "ambulance_route_update" ->
   prop msg "route" = entry -> prop entry "route_id" = VStr id ->
   routes s = VArr prev -> unique_ids "route_id" prev ->
   exists next,
     routes (handle s (Json msg)) = VArr next /\
     unique_ids "route_id" next /\ entries next /\
     (length next <= S (length prev))%nat).
Proof.
  intros Hprev. split; intros Hty Hentry Hid Hcoll Huniq;
    pose proof (prop_string_not_nullish _ _ _ Hid) as Hn.
  - rewrite (handle_incident_update msg entry id prev s) by assumption.
    eexists. split; [reflexivity|]. split; [by apply unique_ids_upserted|].
    split; [constructor; [exact Hn | by apply entries_others]|].
    simpl. apply le_n_S. unfold others. apply length_filter.
  - rewrite (handle_route_update msg entry id prev s) by assumption.
    eexists. split; [reflexivity|]. split; [by apply unique_ids_upserted|].
    split; [constructor; [exact Hn | by apply entries_others]|].
    simpl. apply le_n_S. unfold others. apply length_filter.
Qed.

Lemma upsert_keeps_ids_unique_witness :
  let a := Samples.incident "A" "active" in
  let b := Samples.incident "B" "active" in
  let s := {| cityUpdate := VNull; incidents := VArr [a; b];
              routes := VArr []; events := VArr [] |} in
  let msg := Samples.incident_update (Samples.incident "C" "active") in
  unique_ids "incident_id" [a; b] /\
  exists next,
    incidents (handle s (Json msg)) = VArr next /\
    unique_ids "incident_id" next /\ entries next /\
    (length next <= 3)%nat.
Proof.
  intros a b s msg.
  assert (unique_ids "incident_id" [a; b]) as Huniq.
  { intros id'. unfold count_id. rewrite !filter_cons, filter_nil.
    repeat case_decide; simpl; try lia.
    exfalso. unfold has_id in *.
    repeat match goal with
           | H : strict_eq _ (VStr _) = true |- _ =>
               apply strict_eq_string in H; vm_compute in H
           end.
    congruence. }
  split; [exact Huniq|].
  apply (proj1 (upsert_keeps_ids_unique msg (Samples.incident "C" "active")
                  "C" [a; b] s ltac:(repeat constructor)));
    [reflexivity | reflexivity | reflexivity | reflexivity | exact Huniq].
Defined.

(** X4. A snapshot that lacks a collection empties it: when [incidents],
    [ambulance_routes] or [event_log_tail] is absent or [null] the hook
    holds the empty list for it afterwards, and when [city] or its [nodes]
    is absent or [null] the node list is empty. *)
Theorem snapshot_defaults (msg : value) (s : store) :
  has_type msg "city_update" ->
  let s' := handle s (Json msg) in
  (nullish (prop msg "incidents") = true -> incidents s' = VArr []) /\
  (nullish (prop msg "ambulance_routes") = true -> routes s' = VArr []) /\
  (nullish (prop msg "event_log_tail") = true -> events s' = VArr []) /\
  (nullish (opt (prop msg "city") "nodes") = true -> nodes s' = VArr []).
Proof.
  intros Hty. cbv zeta. rewrite (handle_city_update msg s Hty). simpl.
  pose proof (prop_string_not_nullish _ _ _ Hty) as Hn.
  unfold coalesce, nodes. simpl.
  repeat split; intros H; rewrite ?H; try reflexivity.
  unfold opt at 2. rewrite Hn. unfold coalesce. by rewrite H.
Qed.

Lemma snapshot_defaults_witness :
  let msg := Samples.obj [("type", VStr "city_update")] in
  let s := {| cityUpdate := Samples.city_update [Samples.node "A"] [] [] [];
              incidents := VArr [Samples.incident "X" "active"];
              routes := VArr [Samples.route "R" "enroute"];
              events := VArr [Samples.log_entry "e"] |} in
  let s' := handle s (Json msg) in
  incidents s' = VArr [] /\ routes s' = VArr [] /\ events s' = VArr [] /\
  nodes s' = VArr [].
Proof.
  intros msg s s'.
  destruct (snapshot_defaults msg s eq_refl) as (Hi & Hr & He & Hn).
  split; [apply Hi; reflexivity|]. split; [apply Hr; reflexivity|].
  split; [apply He; reflexivity | apply Hn; reflexivity].
Defined.

(** X5. A frame that does not parse, or that parses to a value other than
    [null] without a string [type], goes through the hook's handler without
    an exception and leaves the whole state of the hook as it was. *)
Theorem hook_drops_untyped_frames (data : inbound) (st : state) :
  untyped data ->
  (forall v, data = Json v -> nullish v = false) ->
  onmessage data (view st) = Returned (view st) /\
  exec (deliver data) st = (st, []).
Proof.
  intros Hty Hv.
  assert (onmessage data (view st) = Returned (view st)) as Hview.
  { apply hook_onmessage_untyped; [exact Hty | |];
      intros ->; by specialize (Hv _ eq_refl). }
  split; [exact Hview|].
  cbv beta iota zeta delta [exec deliver gets mbind M_bind].
  rewrite Hview. by destruct st.
Qed.

Lemma hook_drops_untyped_frames_witness :
  let frames := [Malformed; Json (VNum 7); Json (VStr "city_update");
                 Json (VArr []); Json (Samples.obj [("type", VNum 1)])] in
  Forall (fun data => exec (deliver data) initial = (initial, [])) frames.
Proof.
  intros frames.
  repeat apply Forall_cons_2; try apply Forall_nil_2;
    (refine (proj2 (hook_drops_untyped_frames _ initial _ _));
       [reflexivity | intros v [= <-]; reflexivity]).
Defined.

(** X6. Each of the five actions of the hook is one command: while the
    socket is not open it returns [false] and does nothing; while it is
    open it returns [true] and hands the socket one object whose [type] is
    the action's fixed discriminator and whose fields are the arguments.
    No discriminator is a kind the hook dispatches on, so a command echoed
    back to the hook leaves its view unchanged. *)
Theorem actions_send_tagged_commands (s : state) :
  let command (action : M state bool) (kind : string)
              (fields : list (string * value)) : Prop :=
    (is_open (browser s) (wsRef s) = false -> action s = (false, s, [])) /\
    (forall id,
       wsRef s = Some id -> browser s !! id = Some OPEN ->
       exists payload,
         action s = (true, s, [WsSend id (Serialized payload)]) /\
         has_type payload kind /\
         Forall (fun kv => prop payload kv.1 = kv.2) fields /\
         handle (view s) (Json payload) = view s) in
  (forall from to eta,
     command (dispatchAmbulance from to eta) "dispatch_ambulance"
       [("from_intersection", from); ("to_intersection", to);
        ("eta_seconds", eta)]) /\
  (forall routeId,
     command (clearAmbulanceRoute routeId) "clear_ambulance_route"
       [("route_id", routeId)]) /\
  (forall node direction kind severity,
     command (createIncident node direction kind severity) "incident_create"
       [("intersection_id", node); ("direction", direction);
        ("incident_type", kind); ("severity", severity)]) /\
  (forall incidentId,
     command (clearIncident incidentId) "incident_clear"
       [("incident_id", incidentId)]) /\
  command ping "ping" [].
Proof.
  intros command.
  assert (forall payload kind fields,
            has_type payload kind -> kind ∉ hook_kinds ->
            Forall (fun kv => prop payload kv.1 = kv.2) fields ->
            command (sendMessage payload) kind fields) as Hsend.
  { intros payload kind fields Hty Hkind Hfields. split.
    - intros Hopen. hook_code. by rewrite Hopen.
    - intros id Hws Hst. exists payload. split; [|split; [exact Hty|split]].
      + hook_code. rewrite Hws. simpl.
        unfold in_state. by rewrite bool_decide_eq_true_2.
      + exact Hfields.
      + unfold handle.
        by rewrite (hook_onmessage_unknown payload kind _ Hty Hkind). }
  unfold dispatchAmbulance, clearAmbulanceRoute, createIncident,
    clearIncident, ping.
  split; [|split; [|split; [|split]]]; intros; apply Hsend;
    try reflexivity; try compute_done; repeat constructor.
Qed.

Lemma actions_send_tagged_commands_witness :
  let opened := {| wsRef := Some 0%nat; reconnectAttemptRef := 0;
                   reconnectTimerRef := None; status := connected;
                   lastError := None; view := initial_store;
                   browser := [OPEN] |} in
  dispatchAmbulance (VStr "A") (VStr "B") (VNum 30) initial
    = (false, initial, []) /\
  exists payload,
    dispatchAmbulance (VStr "A") (VStr "B") (VNum 30) opened
      = (true, opened, [WsSend 0 (Serialized payload)]) /\
    has_type payload "dispatch_ambulance" /\
    prop payload "eta_seconds" = VNum 30.
Proof.
  intros opened.
  destruct (actions_send_tagged_commands initial) as [Hclosed _].
  destruct (actions_send_tagged_commands opened) as [Hopened _].
  split.
  - apply (proj1 (Hclosed (VStr "A") (VStr "B") (VNum 30))). reflexivity.
  - destruct (proj2 (Hopened (VStr "A") (VStr "B") (VNum 30)) 0%nat
                eq_refl eq_refl) as (payload & Hrun & Hty & Hfields & _).
    exists payload. split; [exact Hrun|]. split; [exact Hty|].
    apply Forall_cons in Hfields as [_ Hfields].
    apply Forall_cons in Hfields as [_ Hfields].
    apply Forall_cons in Hfields as [Heta _]. exact Heta.
Defined.

End HookMerge.

(** ** Further properties of the hook's connection *)

Lemma close_lookup (id j : nat) (tbl : sockets) :
  close id tbl !! j =
    if decide (j = id) then
      match tbl !! id with
      | Some CONNECTING | Some OPEN => Some CLOSING
      | other => other
      end
    else tbl !! j.
Proof.
  unfold close. destruct (decide (j = id)) as [->|Hne].
  - destruct (tbl !! id) as [[]|] eqn:Hid; try exact Hid.
    + apply list_lookup_insert_eq. by apply lookup_lt_Some in Hid.
    + apply list_lookup_insert_eq. by apply lookup_lt_Some in Hid.
  - destruct (tbl !! id) as [[]|]; try reflexivity;
      by apply list_lookup_insert_ne.
Qed.

Lemma close_length (id : nat) (tbl : sockets) :
  length (close id tbl) = length tbl.
Proof.
  unfold close.
  destruct (tbl !! id) as [[]|]; try reflexivity; apply length_insert.
Qed.

Lemma close_not_live (id : nat) (tbl : sockets) :
  in_state tbl id OPEN || in_state tbl id CONNECTING = false ->
  close id tbl = tbl.
Proof.
  unfold close, in_state. destruct (tbl !! id) as [[]|]; simpl; try done.
Qed.

(** The three ways a frame goes through the hook: it is merged, the handler
    throws, or an updater throws and the hook is unmounted. *)
Lemma deliver_cases (data : inbound) (s : CityHook.state) :
  (exists v,
     CityHook.onmessage data (CityHook.view s) = Returned v /\
     CityHook.exec (CityHook.deliver data) s = (CityHook.set_view v s, []))
  \/
  (exists e,
     CityHook.onmessage data (CityHook.view s) = Threw e /\
     CityHook.handler_throws data = true /\
     CityHook.exec (CityHook.deliver data) s = (s, [Uncaught e]))
  \/
  (exists e,
     CityHook.onmessage data (CityHook.view s) = Threw e /\
     CityHook.handler_throws data = false /\
     CityHook.exec (CityHook.deliver data) s
       = ((CityHook.exec CityHook.closeSocket s).1,
          Uncaught e :: (CityHook.exec CityHook.closeSocket s).2)).
Proof.
  unfold CityHook.exec, CityHook.deliver.
  cbv beta iota zeta delta [gets mbind M_bind tell modify skip mret M_ret].
  destruct (CityHook.onmessage data (CityHook.view s)) as [v|e].
  - left. by exists v.
  - right. destruct (CityHook.handler_throws data).
    + left. exists e. by destruct s.
    + right. exists e. split; [reflexivity|]. split; [reflexivity|].
      by destruct (CityHook.closeSocket s) as [[[] s1] e1].
Qed.

Section HookInvariants.

Import CityHook.

Variable opts : options.

(** What the pieces of [connect] do to the ref and the sockets. *)
Lemma scheduleReconnect_sockets (s : state) :
  wsRef (exec (scheduleReconnect opts) s).1 = wsRef s /\
  browser (exec (scheduleReconnect opts) s).1 = browser s.
Proof. destruct s as [ws n t st le v b]. hook_code. cases; auto. Qed.

Lemma closeSocket_sockets (s : state) :
  wsRef (exec closeSocket s).1 = None /\
  browser (exec closeSocket s).1 =
    match wsRef s with
    | Some id => close id (browser s)
    | None => browser s
    end.
Proof.
  destruct s as [ws n t st le v b]. hook_code.
  destruct t, ws as [id|]; simpl;
    try destruct (in_state b id OPEN || in_state b id CONNECTING) eqn:Hlive;
    simpl; auto using close_not_live; split; auto;
    symmetry; by apply close_not_live.
Qed.

Lemma connect_sockets (s : state) :
  let closed := browser (exec closeSocket s).1 in
  if url_valid opts then
    wsRef (exec (connect opts) s).1 = Some (length closed) /\
    browser (exec (connect opts) s).1 = closed ++ [CONNECTING]
  else
    wsRef (exec (connect opts) s).1 = None /\
    browser (exec (connect opts) s).1 = closed.
Proof.
  destruct s as [ws n t st le v b]. hook_code.
  destruct (url_valid opts), t, ws as [id|]; simpl;
    try destruct (in_state b id OPEN || in_state b id CONNECTING);
    simpl; cases; auto.
Qed.

Lemma closeSocket_single (s : state) :
  single_socket s ->
  forall id st, browser (exec closeSocket s).1 !! id = Some st ->
    st = CLOSING \/ st = CLOSED.
Proof.
  intros [_ Hothers] id st.
  destruct (closeSocket_sockets s) as [_ ->].
  destruct (wsRef s) as [cur|] eqn:Hws.
  - rewrite close_lookup. destruct (decide (id = cur)) as [->|Hne].
    + destruct (browser s !! cur) as [[]|]; intros [= <-]; auto.
    + intros Hid. apply (Hothers id st Hid). congruence.
  - intros Hid. by apply (Hothers id st Hid).
Qed.

Lemma step_single (ev : event) (s s' : state) (es : list effect) :
  single_socket s -> step opts ev s = Some (s', es) -> single_socket s'.
Proof.
  intros Hs Hstep. pose proof Hs as [Hws Hothers].
  assert (forall s1 : state,
            wsRef s1 = wsRef s -> browser s1 = browser s -> single_socket s1)
    as Hsame.
  { intros s1 Hw Hb. unfold single_socket. by rewrite Hw, Hb. }
  assert (single_socket (exec closeSocket s).1) as Hclose.
  { pose proof (closeSocket_single s Hs) as Hall.
    destruct (closeSocket_sockets s) as [Hw _]. split.
    - intros id. by rewrite Hw.
    - intros id st Hid _. by apply (Hall id st). }
  assert (single_socket (exec (connect opts) s).1) as Hconnect.
  { pose proof (closeSocket_single s Hs) as Hall.
    pose proof (connect_sockets s) as Hc. cbv zeta in Hc.
    destruct (url_valid opts); destruct Hc as [Hw Hb]; split.
    - intros id. rewrite Hw, Hb, length_app. intros [= <-]. simpl. lia.
    - intros id st. rewrite Hw, Hb. intros Hid Hne.
      apply lookup_app_Some in Hid as [Hid|[Hlen Hid]].
      + by apply (Hall id st).
      + exfalso. apply Hne. f_equal.
        apply lookup_lt_Some in Hid. simpl in Hid. lia.
    - intros id. by rewrite Hw.
    - intros id st. rewrite Hb. intros Hid _. by apply (Hall id st). }
  assert (forall p : state * list effect,
            Some p = Some (s', es) -> single_socket p.1 -> single_socket s')
    as Hfin.
  { intros p [= ->]. done. }
  destruct ev; simpl in Hstep.
  - eapply Hfin; [exact Hstep | exact Hconnect].
  - eapply Hfin; [exact Hstep | exact Hclose].
  - eapply Hfin; [exact Hstep|].
    apply Hsame; destruct s; hook_code; cases; reflexivity.
  - destruct (reconnectTimerRef s); [|discriminate].
    eapply Hfin; [exact Hstep | exact Hconnect].
  - unfold in_state in Hstep. case_bool_decide as Hid; [|discriminate].
    eapply Hfin; [exact Hstep|].
    assert (wsRef s = Some id) as Hcur.
    { destruct (decide (wsRef s = Some id)) as [|Hne]; [done|].
      by destruct (Hothers id CONNECTING Hid Hne). }
    split; simpl; unfold sockets in *.
    + intros id'. rewrite length_insert. apply Hws.
    + intros id' st Hid' Hne. destruct (decide (id' = id)) as [->|Hne'].
      * by rewrite Hcur in Hne.
      * rewrite list_lookup_insert_ne in Hid' by done.
        by apply (Hothers id' st).
  - destruct (in_state (browser s) id OPEN || in_state (browser s) id CLOSING);
      [|discriminate].
    eapply Hfin; [exact Hstep|].
    destruct (deliver_cases data s)
      as [(v & _ & ->)|[(e & _ & _ & ->)|(e & _ & _ & ->)]];
      [by apply Hsame | exact Hs | exact Hclose].
  - destruct (browser s !! id) as [[]|]; try discriminate;
      (eapply Hfin; [exact Hstep|]);
      apply Hsame; destruct s; hook_code; reflexivity.
  - assert (forall b' : sockets,
              (forall id' st, b' !! id' = Some st ->
                 id' = id /\ st = CLOSED \/ browser s !! id' = Some st) ->
              length b' = length (browser s) ->
              single_socket (exec (onclose opts) (set_browser b' s)).1) as Hset.
    { intros b' Hb' Hlen.
      destruct (scheduleReconnect_sockets (setStatus disconnected (set_browser b' s)))
        as [Hw Hb].
      assert (exec (onclose opts) (set_browser b' s)
              = exec (scheduleReconnect opts)
                  (setStatus disconnected (set_browser b' s))) as ->.
      { destruct s. hook_code. cases; reflexivity. }
      split.
      - intros id'. rewrite Hw, Hb. simpl. rewrite Hlen. apply Hws.
      - intros id' st. rewrite Hw, Hb. simpl. intros Hid Hne.
        destruct (Hb' id' st Hid) as [[_ ->]|Hold]; [auto|].
        by apply (Hothers id' st). }
    assert (forall id' st, <[id := CLOSED]> (browser s) !! id' = Some st ->
              id' = id /\ st = CLOSED \/ browser s !! id' = Some st) as Hins.
    { unfold sockets in *.
      intros id' st Hid'. destruct (decide (id' = id)) as [->|Hne].
      - apply list_lookup_insert_Some in Hid' as [(_ & <- & _)|[? _]]; auto.
        done.
      - rewrite list_lookup_insert_ne in Hid' by done. auto. }
    destruct (browser s !! id) as [[]|]; try discriminate;
      (eapply Hfin; [exact Hstep|]); apply Hset; auto using length_insert.
Qed.

Lemma run_single (evs : list event) :
  forall (s s' : state) (es : list effect),
    single_socket s -> run opts evs s = Some (s', es) -> single_socket s'.
Proof.
  induction evs as [|ev evs IH]; intros s s' es Hs Hrun; simpl in Hrun.
  - by simplify_eq.
  - destruct (step opts ev s) as [[s1 e1]|] eqn:Hstep; [|discriminate].
    simpl in Hrun.
    destruct (run opts evs s1) as [[s2 e2]|] eqn:Hrest; [|discriminate].
    simpl in Hrun. simplify_eq.
    eapply IH; [|exact Hrest]. by eapply step_single.
Qed.

(** X7. The hook never holds two live connections: in every state reached
    from the initial one, by whatever turns, at most one socket is
    connecting or open, and it is the socket of [wsRef]; every socket the
    ref has dropped is closing or closed. *)
Theorem hook_single_live_socket (evs : list event) (s : state)
    (es : list effect) :
  run opts evs initial = Some (s, es) ->
  single_socket s /\
  forall i j sti stj,
    browser s !! i = Some sti -> browser s !! j = Some stj ->
    sti = OPEN \/ sti = CONNECTING -> stj = OPEN \/ stj = CONNECTING ->
    i = j /\ wsRef s = Some i.
Proof.
  intros Hrun.
  assert (single_socket initial) as Hinit.
  { split; [discriminate|]. intros id st Hid. done. }
  pose proof (run_single evs initial s es Hinit Hrun) as Hs.
  split; [exact Hs|]. destruct Hs as [_ Hothers].
  intros i j sti stj Hi Hj Hli Hlj.
  assert (wsRef s = Some i) as Hwi.
  { destruct (decide (wsRef s = Some i)) as [|Hne]; [done|].
    destruct (Hothers i sti Hi Hne), Hli; congruence. }
  assert (wsRef s = Some j) as Hwj.
  { destruct (decide (wsRef s = Some j)) as [|Hne]; [done|].
    destruct (Hothers j stj Hj Hne), Hlj; congruence. }
  split; [congruence | exact Hwi].
Qed.

Lemma step_attempts (ev : event) (s s' : state) (es : list effect) :
  0 <= reconnectIntervalMs opts ->
  hook_attempts_bounded opts s ->
  step opts ev s = Some (s', es) ->
  hook_attempts_bounded opts s' /\
  Forall (fun d => reconnectIntervalMs opts <= d
                   <= reconnectIntervalMs opts * reconnectMaxAttempts opts)
    (scheduled_delays es).
Proof.
  intros Hint Hs. unfold hook_attempts_bounded in *.
  destruct s as [ws n t st le v b]. simpl in Hs.
  destruct ev; simpl; hook_code; intros H; cases;
    (split; [lia | repeat constructor; nia]).
Qed.

(** X8. The backoff of the hook is capped: in every state reached from the
    initial one the attempt counter is between 0 and the configured
    maximum, and every delay the hook has armed is between the interval
    and the interval times the maximum. *)
Theorem hook_delays_capped (evs : list event) (s : state) (es : list effect) :
  0 <= reconnectIntervalMs opts -> 0 <= reconnectMaxAttempts opts ->
  run opts evs initial = Some (s, es) ->
  0 <= reconnectAttemptRef s <= reconnectMaxAttempts opts /\
  Forall (fun d => reconnectIntervalMs opts <= d
                   <= reconnectIntervalMs opts * reconnectMaxAttempts opts)
    (scheduled_delays es).
Proof.
  intros Hint Hmax.
  assert (hook_attempts_bounded opts initial) as Hinit
    by (unfold hook_attempts_bounded; simpl; lia).
  revert Hinit. generalize initial as s0. revert s es.
  induction evs as [|ev evs IH]; intros s es s0 Hs0 Hrun; simpl in Hrun.
  - simplify_eq. split; [exact Hs0 | constructor].
  - destruct (step opts ev s0) as [[s1 e1]|] eqn:Hstep; [|discriminate].
    simpl in Hrun.
    destruct (run opts evs s1) as [[s2 e2]|] eqn:Hrest; [|discriminate].
    simpl in Hrun. simplify_eq.
    destruct (step_attempts _ _ _ _ Hint Hs0 Hstep) as [Hs1 Hd1].
    destruct (IH _ _ _ Hs1 Hrest) as [Hs2 Hd2].
    split; [exact Hs2|]. rewrite scheduled_delays_app.
    by apply Forall_app.
Qed.

(** X9. A successful connect restarts the backoff: when a socket opens the
    counter is reset to 0 and the status is [connected], so the next
    disconnect arms the shortest delay again, the interval itself, as
    attempt 1. *)
Theorem backoff_restarts_after_open (id id' : nat) (s s1 s2 : state)
    (e1 e2 : list effect) :
  0 < reconnectMaxAttempts opts ->
  step opts (SocketOpened id) s = Some (s1, e1) ->
  step opts (SocketClosed id') s1 = Some (s2, e2) ->
  reconnectAttemptRef s1 = 0 /\ status s1 = connected /\ e1 = [] /\
  scheduled_delays e2 = [reconnectIntervalMs opts] /\
  reconnectAttemptRef s2 = 1 /\ status s2 = connecting /\
  reconnectTimerRef s2 = Some (reconnectIntervalMs opts).
Proof.
  intros Hmax. destruct s as [ws n t st le v b]. simpl.
  destruct (in_state b id CONNECTING); [|discriminate].
  hook_code. intros [= <- <-]. simpl. hook_code. intros H.
  cases; repeat split; try lia; f_equal; lia.
Qed.

End HookInvariants.

Lemma hook_single_live_socket_witness :
  exists s es,
    CityHook.run CityHook.default_options
      [CityHook.Mount; CityHook.SocketOpened 0; CityHook.Mount;
       CityHook.SocketClosed 0; CityHook.TimerFired;
       CityHook.SocketClosed 1; CityHook.SocketOpened 2]
      CityHook.initial = Some (s, es) /\
    CityHook.browser s = [CLOSED; CLOSED; OPEN] /\
    single_socket s.
Proof.
  eexists _, _. split; [vm_compute; reflexivity|]. split; [reflexivity|].
  refine (proj1 (hook_single_live_socket CityHook.default_options
            [CityHook.Mount; CityHook.SocketOpened 0; CityHook.Mount;
             CityHook.SocketClosed 0; CityHook.TimerFired;
             CityHook.SocketClosed 1; CityHook.SocketOpened 2] _ _ _)).
  vm_compute. reflexivity.
Defined.


Lemma hook_delays_capped_witness :
  let opts := {| CityHook.url_valid := true;
                 CityHook.reconnectIntervalMs := 1000;
                 CityHook.reconnectMaxAttempts := 3 |} in
  let evs := [CityHook.Mount; CityHook.SocketClosed 0; CityHook.TimerFired;
              CityHook.SocketClosed 1; CityHook.TimerFired;
              CityHook.SocketOpened 2; CityHook.SocketClosed 2] in
  exists s es,
    CityHook.run opts evs CityHook.initial = Some (s, es) /\
    scheduled_delays es = [1000; 2000; 1000] /\
    0 <= CityHook.reconnectAttemptRef s <= 3 /\
    Forall (fun d => 1000 <= d <= 1000 * 3) (scheduled_delays es).
Proof.
  intros opts evs. eexists _, _. split; [vm_compute; reflexivity|].
  split; [reflexivity|].
  apply (hook_delays_capped opts evs); [simpl; lia | simpl; lia |].
  vm_compute. reflexivity.
Defined.

Lemma backoff_restarts_after_open_witness :
  exists s s1 s2 e0 e1 e2,
    CityHook.run CityHook.default_options
      [CityHook.Mount; CityHook.SocketClosed 0; CityHook.TimerFired]
      CityHook.initial = Some (s, e0) /\
    CityHook.reconnectAttemptRef s = 1 /\
    CityHook.step CityHook.default_options (CityHook.SocketOpened 1) s
      = Some (s1, e1) /\
    CityHook.step CityHook.default_options (CityHook.SocketClosed 1) s1
      = Some (s2, e2) /\
    CityHook.reconnectAttemptRef s1 = 0 /\
    scheduled_delays e2 = [1000] /\
    CityHook.reconnectAttemptRef s2 = 1.
Proof.
  eexists _, _, _, _, _, _.
  split; [vm_compute; reflexivity|]. split; [reflexivity|].
  split; [vm_compute; reflexivity|]. split; [vm_compute; reflexivity|].
  match goal with
  | |- CityHook.reconnectAttemptRef ?s1 = _ /\ scheduled_delays ?e2 = _ /\
       CityHook.reconnectAttemptRef ?s2 = _ =>
      destruct (backoff_restarts_after_open CityHook.default_options
                  1 1 {| CityHook.wsRef := Some 1%nat;
                         CityHook.reconnectAttemptRef := 1;
                         CityHook.reconnectTimerRef := None;
                         CityHook.status := CityHook.connecting;
                         CityHook.lastError := None;
                         CityHook.view := CityHook.initial_store;
                         CityHook.browser := [CLOSED; CONNECTING] |}
                  s1 s2 [] e2 ltac:(simpl; lia) eq_refl eq_refl)
        as (H1 & _ & _ & H2 & H3 & _)
  end.
  split; [exact H1|]. split; [exact H2 | exact H3].
Defined.

(** ** What the clients transmit *)

Lemma sent_app (es1 es2 : list effect) :
  sent (es1 ++ es2) = sent es1 ++ sent es2.
Proof.
  induction es1 as [|e es1 IH]; [reflexivity|].
  destruct e; simpl; rewrite ?IH; reflexivity.
Qed.

Lemma sent_invokes (cbs : list nat) (arg : value) :
  sent ((fun cb => Invoke cb arg) <$> cbs) = [].
Proof. induction cbs as [|cb cbs IH]; [reflexivity | exact IH]. Qed.

(** X10. The clients transmit nothing on their own account and nothing on
    a socket that is not the current, open one. A turn of the hook hands a
    socket a frame only when it is a command, and then exactly that
    command, serialized, to the open socket of [wsRef]; a turn of the
    service does so only for [send], likewise, and for a tick of the ping
    interval, which hands the text [ping] to the open socket of [ws]. No
    frame is queued for later. *)
Theorem frames_only_on_open_socket :
  (forall opts ev s s' es,
     CityHook.step opts ev s = Some (s', es) ->
     sent es = [] \/
     exists id msg,
       ev = CityHook.Command msg /\ sent es = [(id, Serialized msg)] /\
       CityHook.wsRef s = Some id /\ CityHook.browser s !! id = Some OPEN)
  /\
  (forall wsUrl_valid ev s s' es,
     Service.step wsUrl_valid ev s = Some (s', es) ->
     sent es = [] \/
     exists id data,
       sent es = [(id, data)] /\
       Service.ws s = Some id /\ Service.browser s !! id = Some OPEN /\
       ((exists msg, ev = Service.Send msg /\ data = Serialized msg) \/
        (ev = Service.PingTick /\ data = Text "ping"))).
Proof.
  split.
  - intros opts ev [ws n t st le v b] s' es.
    destruct ev; simpl; hook_code; intros H; cases; auto.
    right. eexists _, _. repeat split.
    unfold in_state in *. by case_bool_decide.
  - intros wsUrl_valid ev s s' es.
    destruct ev; simpl;
      try (destruct (onmessage_exec data s) as (cbs & arg & ->); intros H;
           case_match; simplify_eq; rewrite sent_invokes; by left);
      destruct s as [w n p ls cs c b t i]; service_code; intros H; cases;
      rewrite ?sent_app, ?sent_invokes; simpl; auto;
      right; eexists _, _; (split; [reflexivity|]);
      unfold in_state in *; case_bool_decide; try done; eauto 10.
Qed.

Lemma frames_only_on_open_socket_witness :
  let hook := {| CityHook.wsRef := Some 0%nat; CityHook.reconnectAttemptRef := 0;
                 CityHook.reconnectTimerRef := None;
                 CityHook.status := CityHook.connected;
                 CityHook.lastError := None;
                 CityHook.view := CityHook.initial_store;
                 CityHook.browser := [OPEN] |} in
  (sent (CityHook.exec (CityHook.sendMessage Samples.dispatch_ambulance) hook).2
     = [(0%nat, Serialized Samples.dispatch_ambulance)]) /\
  (sent (CityHook.exec (CityHook.sendMessage Samples.dispatch_ambulance)
           CityHook.initial).2 = []) /\
  (forall s' es,
     CityHook.step CityHook.default_options
       (CityHook.SocketMessage 0 (Json Samples.unrecognized)) hook
       = Some (s', es) -> sent es = []).
Proof.
  intros hook. split; [reflexivity|]. split; [reflexivity|].
  intros s' es Hstep.
  destruct (proj1 frames_only_on_open_socket _ _ _ _ _ Hstep)
    as [Hnone|(id & msg & Hev & _)]; [exact Hnone | discriminate].
Defined.

(** ** Further properties of the service *)

Lemma calls_invokes (cbs : list nat) (arg : value) :
  calls ((fun cb => Invoke cb arg) <$> cbs) = (fun cb => (cb, arg)) <$> cbs.
Proof.
  induction cbs as [|cb cbs IH]; [reflexivity|].
  simpl. f_equal. exact IH.
Qed.

Lemma calls_app (es1 es2 : list effect) :
  calls (es1 ++ es2) = calls es1 ++ calls es2.
Proof.
  induction es1 as [|e es1 IH]; [reflexivity|].
  destruct e; simpl; rewrite ?IH; reflexivity.
Qed.

Lemma filter_all {A} (P : A -> Prop) `{forall x, Decision (P x)} (xs : list A) :
  Forall P xs -> filter P xs = xs.
Proof.
  induction 1 as [|x xs Hx _ IH]; [reflexivity|].
  rewrite filter_cons, decide_True by done. by rewrite IH.
Qed.

Section ServiceListeners.

Import Service.

Lemma emit_calls (name : string) (data : value) (s : state) :
  inherited name = false ->
  emit name data s =
    (tt, s, (fun cb => Invoke cb data) <$> default [] (eventListeners s !! name)).
Proof.
  intros Hname. unfold emit. rewrite Hname. service_code.
  by destruct (eventListeners s !! name).
Qed.

(** X11. Registration round trip. For an event name that is not a key a
    plain object inherits: after [on(name, cb)] an [emit] of that event
    calls the listeners registered before, in their order, and then [cb],
    each with the emitted data; after [off(name, cb)] it calls the others
    and never [cb]; and [on] followed by [off] gives back the calls of
    before when [cb] was not registered. Under an inherited key
    ([constructor], [toString], [__proto__], ...) the registry holds no
    list: [on], [off] and [emit] throw a [TypeError] and leave the service
    as it was. In either case the listeners of every other event are
    untouched. *)
Theorem listener_round_trip (name : string) (cb : nat) (data : value)
    (s : state) :
  let registered := default [] (eventListeners s !! name) in
  let added := (exec (on name cb) s).1 in
  let removed := (exec (off name cb) s).1 in
  (inherited name = false ->
   calls (emit name data added).2
     = (fun c => (c, data)) <$> (registered ++ [cb]) /\
   calls (emit name data removed).2
     = (fun c => (c, data)) <$> filter (fun c => c <> cb) registered /\
   (cb ∉ registered ->
    calls (emit name data (exec (off name cb) added).1).2
      = calls (emit name data s).2)) /\
  (inherited name = true ->
   exec (on name cb) s = (s, [Uncaught TypeError]) /\
   exec (off name cb) s = (s, [Uncaught TypeError]) /\
   exec (emit name data) s = (s, [Uncaught TypeError])) /\
  (forall other, other <> name ->
     eventListeners added !! other = eventListeners s !! other /\
     eventListeners removed !! other = eventListeners s !! other).
Proof.
  cbv zeta. split; [|split].
  - intros Hname. rewrite !emit_calls by exact Hname. cbn [snd].
    rewrite !calls_invokes.
    assert (eventListeners (exec (on name cb) s).1
            = <[name := default [] (eventListeners s !! name) ++ [cb]]>
                (eventListeners s)) as Hon.
    { unfold exec, on. rewrite Hname. by destruct s. }
    assert (forall s0 : state,
              default [] (eventListeners (exec (off name cb) s0).1 !! name)
              = filter (fun c => c <> cb)
                  (default [] (eventListeners s0 !! name)))
      as Hoff.
    { intros s0. destruct s0 as [w n p ls cs c b t i].
      unfold exec, off. rewrite Hname. service_code.
      destruct (ls !! name) as [cbs|] eqn:Hl; simpl.
      - by rewrite lookup_insert_eq.
      - by rewrite Hl. }
    split; [|split].
    + by rewrite Hon, lookup_insert_eq.
    + by rewrite Hoff.
    + intros Hfresh. rewrite Hoff, Hon, lookup_insert_eq. simpl.
      rewrite filter_app. f_equal.
      rewrite filter_cons, decide_False, filter_nil, app_nil_r by tauto.
      apply filter_all. apply Forall_forall. intros c Hc ->. done.
  - intros Hname. unfold exec, on, off, emit. rewrite Hname.
    by destruct s.
  - intros other Hother. unfold exec, on, off.
    destruct (inherited name); [by destruct s|].
    destruct s as [w n p ls cs c b t i]. service_code. split.
    + by rewrite lookup_insert_ne.
    + destruct (ls !! name); simpl; [by rewrite lookup_insert_ne | done].
Qed.

Lemma onmessage_typed (msg : value) (kind : string) (s : state) :
  has_type msg kind ->
  falsy msg || negb (is_string (prop msg "type")) = false.
Proof.
  unfold has_type. intros Hty. rewrite Hty.
  destruct msg; simpl in *; congruence.
Qed.

Lemma service_hears_city_update (msg : value) (s : state) :
  has_type msg "city_update" ->
  onmessage (Json msg) s =
    (tt, s, (fun cb => Invoke cb msg) <$>
              default [] (eventListeners s !! "cityUpdate")).
Proof.
  intros Hty. pose proof (onmessage_typed msg _ s Hty) as Hguard.
  unfold onmessage, handleMessage. rewrite Hguard.
  unfold has_type in Hty. rewrite Hty. simpl. by apply emit_calls.
Qed.

(** X12. The dispatch of the service: a message of one of the city kinds,
    or a [pong], is handed unchanged to the listeners of its event and to
    no others; an [error] and a [connection_status] message are handed on
    as a fresh object that carries the message's [message] and
    [timestamp]; a [simulation_update] hands on its [data], and nothing
    when the data is falsy. The listeners are called in the order of
    registration. *)
Theorem listeners_receive_their_kind (msg : value) (s : state) :
  let heard (event : string) (arg : value) : Prop :=
    onmessage (Json msg) s =
      (tt, s, (fun cb => Invoke cb arg) <$>
                default [] (eventListeners s !! event)) in
  (has_type msg "city_update" -> heard "cityUpdate" msg) /\
  (has_type msg "incident_update" -> heard "incidentUpdate" msg) /\
  (has_type msg "ambulance_route_update" -> heard "ambulanceRouteUpdate" msg) /\
  (has_type msg "pong" -> heard "pong" msg) /\
  (has_type msg "error" ->
   exists payload, heard "error" payload /\
     prop payload "error" = prop msg "message" /\
     prop payload "timestamp" = prop msg "timestamp") /\
  (has_type msg "connection_status" ->
   exists payload, heard "connectionStatus" payload /\
     prop payload "status" = prop msg "message" /\
     prop payload "timestamp" = prop msg "timestamp") /\
  (has_type msg "simulation_update" ->
   if falsy (prop msg "data") then onmessage (Json msg) s = (tt, s, [])
   else heard "simulationUpdate" (prop msg "data")).
Proof.
  cbv zeta.
  repeat split; intros Hty;
    pose proof (onmessage_typed msg _ s Hty) as Hguard;
    unfold onmessage, handleMessage; rewrite Hguard;
    unfold has_type in Hty; rewrite Hty; simpl;
    rewrite ?emit_calls by reflexivity; try reflexivity.
  - eexists. split; [reflexivity|]. split.
    + simpl. by rewrite lookup_insert_eq.
    + simpl. rewrite lookup_insert_ne by done. by rewrite lookup_insert_eq.
  - eexists. split; [reflexivity|]. split.
    + simpl. by rewrite lookup_insert_eq.
    + simpl. rewrite lookup_insert_ne by done. by rewrite lookup_insert_eq.
  - destruct (falsy (prop msg "data")); [reflexivity | by apply emit_calls].
Qed.

End ServiceListeners.

Lemma listener_round_trip_witness :
  let s := (Service.exec (Service.on "cityUpdate" 7) Service.initial).1 in
  (calls (Service.emit "cityUpdate" (VNum 1)
            (Service.exec (Service.on "cityUpdate" 8) s).1).2
     = [(7%nat, VNum 1); (8%nat, VNum 1)]) /\
  (calls (Service.emit "cityUpdate" (VNum 1)
            (Service.exec (Service.off "cityUpdate" 8)
               (Service.exec (Service.on "cityUpdate" 8) s).1).1).2
     = calls (Service.emit "cityUpdate" (VNum 1) s).2) /\
  Service.exec (Service.on "constructor" 8) s = (s, [Uncaught TypeError]).
Proof.
  intros s.
  destruct (listener_round_trip "cityUpdate" 8 (VNum 1) s)
    as (Hown & _ & _).
  destruct (Hown eq_refl) as (Hon & _ & Hback).
  destruct (listener_round_trip "constructor" 8 (VNum 1) s)
    as (_ & Hinherited & _).
  destruct (Hinherited eq_refl) as (Hthrows & _).
  split; [exact Hon|]. split; [apply Hback; compute_done | exact Hthrows].
Defined.

Lemma listeners_receive_their_kind_witness :
  let s := (Service.exec (Service.on "cityUpdate" 7) Service.initial).1 in
  let msg := Samples.city_update [Samples.node "A"] [] [] [] in
  Service.onmessage (Json msg) s = (tt, s, [Invoke 7 msg]) /\
  Service.onmessage
    (Json (Samples.incident_update (Samples.incident "X" "active"))) s
    = (tt, s, []).
Proof.
  intros s msg. split.
  - apply (proj1 (listeners_receive_their_kind msg s)). reflexivity.
  - apply (proj1 (proj2 (listeners_receive_their_kind
             (Samples.incident_update (Samples.incident "X" "active")) s))).
    reflexivity.
Defined.

Section ServiceInvariants.

Import Service.

Variable wsUrl_valid : bool.

Lemma service_step_attempts (ev : event) (s s' : state) (es : list effect) :
  service_attempts_bounded s ->
  step wsUrl_valid ev s = Some (s', es) ->
  service_attempts_bounded s'.
Proof.
  intros Hs. unfold service_attempts_bounded, maxReconnectAttempts in *.
  destruct ev; simpl;
    try (destruct (onmessage_exec data s) as (cbs & arg & ->); intros H;
         case_match; by simplify_eq);
    destruct s as [w n p ls cs c b t i]; simpl in Hs;
    service_code; unfold maxReconnectAttempts; intros H; cases; lia.
Qed.

(** X13. The attempt counter of the service stays between 0 and 5 in every
    state reached from the initial one, so a reconnect timeout never finds
    it past the maximum: the callback always takes the branch that calls
    [connect()], and the branch that would emit
    [maxReconnectAttemptsReached] is never taken. *)
Theorem reconnect_timeout_always_connects (evs : list event) (s : state)
    (es : list effect) :
  run wsUrl_valid evs initial = Some (s, es) ->
  0 <= reconnectAttempts s <= maxReconnectAttempts /\
  reconnectTimeout wsUrl_valid s = connect wsUrl_valid s.
Proof.
  intros Hrun.
  assert (service_attempts_bounded s) as Hs.
  { assert (service_attempts_bounded initial) as Hinit
      by (unfold service_attempts_bounded, maxReconnectAttempts; simpl; lia).
    revert Hinit Hrun. generalize initial as s0. revert s es.
    induction evs as [|ev evs IH]; intros s es s0 Hs0 Hrun; simpl in Hrun.
    - by simplify_eq.
    - destruct (step wsUrl_valid ev s0) as [[s1 e1]|] eqn:Hstep; [|discriminate].
      simpl in Hrun.
      destruct (run wsUrl_valid evs s1) as [[s2 e2]|] eqn:Hrest; [|discriminate].
      simpl in Hrun. simplify_eq.
      eapply IH; [|exact Hrest]. by eapply service_step_attempts. }
  split; [exact Hs|].
  unfold reconnectTimeout. cbv beta iota zeta delta [mbind M_bind gets].
  rewrite bool_decide_eq_true_2 by apply Hs.
  destruct (connect wsUrl_valid s) as [[[] s1] e1]. by rewrite app_nil_l.
Qed.



Lemma service_step_connected (ev : event) (s s' : state) (es : list effect) :
  (isConnected s = true -> some_open (browser s)) ->
  step wsUrl_valid ev s = Some (s', es) ->
  isConnected s' = true -> some_open (browser s').
Proof.
  intros Hs. unfold some_open in *.
  destruct ev; simpl;
    try (destruct (onmessage_exec data s) as (cbs & arg & ->); intros H;
         case_match; by simplify_eq);
    destruct s as [w n p ls cs c b t i]; simpl in Hs;
    service_code; intros H; cases; unfold sockets in *;
    intros Hc; try discriminate; try (by apply Hs);
    try (destruct (Hs Hc) as [j Hj]; exists j; by apply lookup_app_l_Some).
  unfold in_state in *. case_bool_decide as Hid; [|done].
  exists id. apply list_lookup_insert_eq. by apply lookup_lt_Some in Hid.
Qed.

(** X15. The service says it is connected only while a socket is open: in
    every state reached from the initial one, [isConnected] being true
    means that some socket the service constructed is open. *)
Theorem connected_means_open (evs : list event) (s : state)
    (es : list effect) :
  run wsUrl_valid evs initial = Some (s, es) ->
  isConnected s = true -> some_open (browser s).
Proof.
  assert (isConnected initial = true -> some_open (browser initial)) as Hinit
    by discriminate.
  revert Hinit. generalize initial as s0. revert s es.
  induction evs as [|ev evs IH]; intros s es s0 Hs0 Hrun; simpl in Hrun.
  - by simplify_eq.
  - destruct (step wsUrl_valid ev s0) as [[s1 e1]|] eqn:Hstep; [|discriminate].
    simpl in Hrun.
    destruct (run wsUrl_valid evs s1) as [[s2 e2]|] eqn:Hrest; [|discriminate].
    simpl in Hrun. simplify_eq.
    eapply IH; [|exact Hrest]. by eapply service_step_connected.
Qed.

End ServiceInvariants.

Lemma reconnect_timeout_always_connects_witness :
  exists s es,
    Service.run true
      [Service.Connect; Service.SocketError 0; Service.SocketClosed 0 1006;
       Service.ReconnectTimeout; Service.ReconnectTimeout;
       Service.SocketError 1; Service.SocketClosed 1 1006;
       Service.SocketError 2; Service.SocketClosed 2 1006] Service.initial
      = Some (s, es) /\
    Service.reconnectAttempts s = 5 /\
    0 <= Service.reconnectAttempts s <= Service.maxReconnectAttempts /\
    Service.reconnectTimeout true s = Service.connect true s.
Proof.
  eexists _, _. split; [vm_compute; reflexivity|]. split; [reflexivity|].
  refine (reconnect_timeout_always_connects true
            [Service.Connect; Service.SocketError 0;
             Service.SocketClosed 0 1006; Service.ReconnectTimeout;
             Service.ReconnectTimeout; Service.SocketError 1;
             Service.SocketClosed 1 1006; Service.SocketError 2;
             Service.SocketClosed 2 1006] _ _ _).
  vm_compute. reflexivity.
Defined.


Lemma connected_means_open_witness :
  exists s es,
    Service.run true [Service.Connect; Service.SocketOpened 0] Service.initial
      = Some (s, es) /\
    Service.isConnected s = true /\ some_open (Service.browser s).
Proof.
  eexists _, _. split; [vm_compute; reflexivity|]. split; [reflexivity|].
  refine (connected_means_open true
            [Service.Connect; Service.SocketOpened 0] _ _ _ _);
    [vm_compute; reflexivity | reflexivity].
Defined.

(** ** The hook [useCityData] *)

Section CityDataHandlers.

Import CityData.

(** What [handleCityUpdate] does to a mounted store. *)
Lemma handleCityUpdate_mounted (now : Z) (msg : value)
    (ns : list value) (s : store) :
  mountedRef s = true ->
  prop (prop msg "city") "nodes" = VArr ns ->
  entries ns ->
  exists s',
    handleCityUpdate now msg s = (Returned tt, s') /\
    selectedIntersectionId s' =
      match ns with
      | first :: _ =>
          if falsy (selectedIntersectionId s)
          then prop first "intersection_id"
          else selectedIntersectionId s
      | [] => selectedIntersectionId s
      end /\
    latestCityUpdate s' = msg /\ city s' = prop msg "city" /\
    incidents s' = or_else (prop msg "incidents") (VArr []) /\
    ambulanceRoutes s' = or_else (prop msg "ambulance_routes") (VArr []) /\
    error s' = VNull /\ lastUpdateTime s' = Some now /\
    nodes s' = VArr ns /\
    isConnected s' = isConnected s /\ mountedRef s' = true.
Proof.
  intros Hm Hns Hentries.
  pose proof (prop_array_not_nullish _ _ _ Hns) as Hc.
  assert (nullish msg = false) as Hn
    by (destruct msg; simpl in *; congruence).
  assert (nodes_length msg = Returned (VNum (Z.of_nat (length ns)))) as Hlen.
  { unfold nodes_length. rewrite (get_not_nullish _ _ Hn). simpl.
    rewrite Hc, Hns. reflexivity. }
  assert (forall s0 : store,
            city s0 = prop msg "city" -> nodes s0 = VArr ns) as Hnodes.
  { intros s0 Hcity. unfold nodes, opt. rewrite Hcity, Hc, Hns. reflexivity. }
  unfold handleCityUpdate.
  cbv beta iota zeta delta [mbind H_bind mret H_ret read set eval].
  rewrite Hm, !(get_not_nullish _ _ Hn). simpl.
  destruct (falsy (selectedIntersectionId s)) eqn:Hsel; simpl.
  - rewrite Hlen. destruct ns as [|first rest]; simpl.
    + eexists. split; [reflexivity|]. simpl. rewrite Hm.
      repeat split. by apply Hnodes.
    + unfold first_node_id. rewrite (get_not_nullish _ _ Hn). simpl.
      rewrite (get_not_nullish _ _ Hc). simpl. rewrite Hns. simpl.
      apply Forall_cons in Hentries as [Hfirst _].
      rewrite (get_not_nullish _ _ Hfirst). simpl.
      eexists. split; [reflexivity|]. simpl. rewrite Hm.
      repeat split. by apply Hnodes.
  - eexists. split; [reflexivity|]. simpl. rewrite Hm.
    destruct ns; repeat split; by apply Hnodes.
Qed.

(** X16. What a snapshot does to the store of [useCityData] while the hook
    is mounted. For a message with a [city] whose [nodes] is a list of
    objects, the handler does not throw; the city, the incidents and the
    routes are those of the message (the empty list for a falsy
    collection), the error is cleared and the time is set; and the
    selection becomes the first node's [intersection_id] when nothing
    truthy was selected and the list has a node, and is left alone
    otherwise. *)
Theorem snapshot_selects_first_node (now : Z) (msg : value)
    (ns : list value) (s : store) :
  mountedRef s = true ->
  prop (prop msg "city") "nodes" = VArr ns ->
  entries ns ->
  exists s',
    handleCityUpdate now msg s = (Returned tt, s') /\
    selectedIntersectionId s' =
      match ns with
      | first :: _ =>
          if falsy (selectedIntersectionId s)
          then prop first "intersection_id"
          else selectedIntersectionId s
      | [] => selectedIntersectionId s
      end /\
    latestCityUpdate s' = msg /\ city s' = prop msg "city" /\
    incidents s' = or_else (prop msg "incidents") (VArr []) /\
    ambulanceRoutes s' = or_else (prop msg "ambulance_routes") (VArr []) /\
    error s' = VNull /\ lastUpdateTime s' = Some now /\
    nodes s' = VArr ns /\
    isConnected s' = isConnected s /\ mountedRef s' = true.
Proof. exact (handleCityUpdate_mounted now msg ns s). Qed.

End CityDataHandlers.

(** ** [useCityData] over the service *)

Lemma closes_app (es1 es2 : list effect) :
  closes (es1 ++ es2) = closes es1 ++ closes es2.
Proof.
  induction es1 as [|e es1 IH]; [reflexivity|].
  destruct e; simpl; rewrite ?IH; reflexivity.
Qed.

Lemma closes_invokes (cbs : list nat) (arg : value) :
  closes ((fun cb => Invoke cb arg) <$> cbs) = [].
Proof. induction cbs as [|cb cbs IH]; [reflexivity | exact IH]. Qed.

Lemma same_selection_refl (v : value) : CityData.same_selection v v = true.
Proof. destruct v; simpl; try reflexivity; by apply bool_decide_eq_true_2. Qed.

(** A listener call that is none of the hook's three leaves the store. *)
Lemma listen_foreign (now : Z) (arg : value) (cbs : list nat)
    (d : CityData.store) :
  CityData.cb_cityUpdate ∉ cbs -> CityData.cb_error ∉ cbs ->
  CityData.cb_connectionStatus ∉ cbs ->
  foldl (CityData.listen now) d ((fun cb => Invoke cb arg) <$> cbs) = d.
Proof.
  unfold CityData.cb_cityUpdate, CityData.cb_error,
    CityData.cb_connectionStatus.
  revert d. induction cbs as [|cb cbs IH]; intros d H0 H1 H2; [reflexivity|].
  apply not_elem_of_cons in H0 as [? ?], H1 as [? ?], H2 as [? ?].
  simpl. destruct cb as [|[|[|cb]]]; try done. by apply IH.
Qed.

(** While the hook is unmounted its listeners leave the store. *)
Lemma listen_unmounted (now : Z) (es : list effect) (d : CityData.store) :
  CityData.mountedRef d = false -> foldl (CityData.listen now) d es = d.
Proof.
  intros Hm. induction es as [|e es IH]; [reflexivity|]. simpl.
  assert (CityData.listen now d e = d) as ->; [|exact IH].
  destruct e as [| | | | | | |cb arg|]; try reflexivity.
  destruct cb as [|[|[|cb]]]; simpl; try reflexivity.
  - unfold CityData.handleCityUpdate.
    cbv beta iota zeta delta
      [mbind CityData.H_bind mret CityData.H_ret CityData.read].
    by rewrite Hm.
  - unfold CityData.handleError. by rewrite Hm.
  - unfold CityData.handleConnectionStatus. by rewrite Hm.
Qed.

Lemma wired_listeners (s : Service.state) (name : string) :
  wired s -> name <> "cityUpdate" -> name <> "error" ->
  (CityData.cb_cityUpdate ∉ default [] (Service.eventListeners s !! name)) /\
  (CityData.cb_error ∉ default [] (Service.eventListeners s !! name)) /\
  (CityData.cb_connectionStatus
     ∉ default [] (Service.eventListeners s !! name)).
Proof.
  intros Hw Hc He.
  destruct (Service.eventListeners s !! name) as [cbs|] eqn:Hl; simpl.
  - destruct (Hw name cbs Hl) as (H0 & H1 & H2). repeat split; auto.
  - repeat split; apply not_elem_of_nil.
Qed.

(** Calls of listeners that are none of the hook's three. *)
Lemma heard_foreign (arg : value) (cbs : list nat) :
  CityData.cb_cityUpdate ∉ cbs -> CityData.cb_error ∉ cbs ->
  CityData.cb_connectionStatus ∉ cbs ->
  CityData.heard ((fun cb => Invoke cb arg) <$> cbs) = false /\
  CityData.snapshot_heard ((fun cb => Invoke cb arg) <$> cbs) = false.
Proof.
  unfold CityData.cb_cityUpdate, CityData.cb_error,
    CityData.cb_connectionStatus.
  induction cbs as [|cb cbs IH]; intros H0 H1 H2; [done|].
  apply not_elem_of_cons in H0 as [? ?], H1 as [? ?], H2 as [? ?].
  destruct (IH ltac:(done) ltac:(done) ltac:(done)) as [IHh IHs].
  simpl. by destruct cb as [|[|[|cb]]].
Qed.

(** Frames other than snapshots and error notices reach no listener of a
    wired service that is one of the hook's. *)
Lemma wired_frame_calls (data : inbound) (s : Service.state) :
  wired s ->
  (forall msg, data = Json msg ->
     ~ has_type msg "city_update" /\ ~ has_type msg "error") ->
  exists cbs arg,
    Service.exec (Service.onmessage data) s
      = (s, (fun cb => Invoke cb arg) <$> cbs) /\
    (CityData.cb_cityUpdate ∉ cbs) /\ (CityData.cb_error ∉ cbs) /\
    (CityData.cb_connectionStatus ∉ cbs).
Proof.
  intros Hw Hkind.
  assert (exists (cbs : list nat) (arg : value),
            (s, @nil effect) = (s, (fun cb => Invoke cb arg) <$> cbs) /\
            (CityData.cb_cityUpdate ∉ cbs) /\ (CityData.cb_error ∉ cbs) /\
            (CityData.cb_connectionStatus ∉ cbs)) as Hskip.
  { exists [], VNull. repeat split; apply not_elem_of_nil. }
  destruct data as [|msg]; [exact Hskip|].
  destruct (Hkind msg eq_refl) as [Hnc Hne]. unfold has_type in *.
  assert (forall name arg, inherited name = false ->
            name <> "cityUpdate" -> name <> "error" ->
            exists cbs arg',
              Service.exec (Service.emit name arg) s
                = (s, (fun cb => Invoke cb arg') <$> cbs) /\
              (CityData.cb_cityUpdate ∉ cbs) /\ (CityData.cb_error ∉ cbs) /\
              (CityData.cb_connectionStatus ∉ cbs)) as Hemit.
  { intros name arg Hname Hc He. unfold Service.exec.
    rewrite emit_calls by exact Hname.
    exists (default [] (Service.eventListeners s !! name)), arg.
    split; [reflexivity|]. by apply wired_listeners. }
  unfold Service.onmessage, Service.handleMessage.
  destruct (falsy msg || negb (is_string (prop msg "type"))); [exact Hskip|].
  destruct (prop msg "type") as [| | | |ty| |]; try exact Hskip.
  repeat (case_bool_decide; subst;
          [first [ by apply Hemit | congruence
                 | destruct (falsy (prop msg "data"));
                     [exact Hskip | by apply Hemit] ] |]).
  exact Hskip.
Qed.

Lemma wired_same (s s' : Service.state) :
  Service.eventListeners s' = Service.eventListeners s -> wired s -> wired s'.
Proof. unfold wired. by intros ->. Qed.

Lemma wired_on (name : string) (cb : nat) (s : Service.state) :
  wired s ->
  (cb = CityData.cb_cityUpdate -> name = "cityUpdate") ->
  (cb = CityData.cb_error -> name = "error") ->
  cb <> CityData.cb_connectionStatus ->
  wired (Service.exec (Service.on name cb) s).1.
Proof.
  intros Hw Hc He Hs. unfold Service.exec, Service.on.
  destruct (inherited name); [by destruct s|].
  intros other cbs. destruct s as [w n p ls cs c b t i].
  revert Hc He Hs. service_code. intros Hc He Hs. simpl in Hw.
  destruct (decide (other = name)) as [->|Hne].
  - rewrite lookup_insert_eq. intros [= <-].
    destruct (ls !! name) as [old|] eqn:Hl; simpl.
    + destruct (Hw name old Hl) as (H0 & H1 & H2).
      split; [|split]; intros Hin;
        apply elem_of_app in Hin as [Hin|Hin]; auto;
        apply list_elem_of_singleton in Hin; auto.
    + split; [|split]; intros Hin; apply list_elem_of_singleton in Hin; auto.
  - rewrite lookup_insert_ne by done. apply Hw.
Qed.

Lemma wired_off (name : string) (cb : nat) (s : Service.state) :
  wired s -> wired (Service.exec (Service.off name cb) s).1.
Proof.
  intros Hw. unfold Service.exec, Service.off.
  destruct (inherited name); [by destruct s|].
  intros other cbs. destruct s as [w n p ls cs c b t i].
  service_code. simpl in Hw. destruct (ls !! name) as [old|] eqn:Hl; simpl.
  - destruct (decide (other = name)) as [->|Hne].
    + rewrite lookup_insert_eq. intros [= <-].
      destruct (Hw name old Hl) as (H0 & H1 & H2).
      split; [|split]; rewrite ?list_elem_of_filter; tauto.
    + rewrite lookup_insert_ne by done. apply Hw.
  - apply Hw.
Qed.

Section CityDataOverService.

Variable wsUrl_valid : bool.

Lemma service_step_listeners (ev : Service.event) (s s' : Service.state)
    (es : list effect) :
  Service.step wsUrl_valid ev s = Some (s', es) ->
  match ev with
  | Service.On name cb => s' = (Service.exec (Service.on name cb) s).1
  | Service.Off name cb => s' = (Service.exec (Service.off name cb) s).1
  | _ => Service.eventListeners s' = Service.eventListeners s
  end.
Proof.
  destruct ev; simpl;
    try (destruct (onmessage_exec data s) as (cbs & arg & ->); intros H;
         case_match; by simplify_eq);
    try (by intros [= <- _]);
    destruct s as [w n p ls cs c b t i]; service_code; intros H; cases;
    reflexivity.
Qed.

Lemma service_step_wired (ev : Service.event) (s s' : Service.state)
    (es : list effect) :
  wired s -> foreign ev ->
  Service.step wsUrl_valid ev s = Some (s', es) -> wired s'.
Proof.
  intros Hw Hf Hstep. pose proof (service_step_listeners _ _ _ _ Hstep) as H.
  destruct ev; try (by eapply wired_same); subst s'.
  - simpl in Hf. apply wired_on; [exact Hw | | |];
      unfold CityData.cb_cityUpdate, CityData.cb_error,
        CityData.cb_connectionStatus; lia.
  - by apply wired_off.
Qed.

Lemma unsubscribe_listeners (s : Service.state) :
  wired s -> wired (CityData.unsubscribe s).1.2.
Proof.
  intros Hw.
  pose proof (wired_off "error" CityData.cb_error _
                (wired_off "cityUpdate" CityData.cb_cityUpdate _ Hw)) as Hoff.
  eapply wired_same; [|exact Hoff].
  destruct s as [w n p ls cs c b t i]. unfold CityData.unsubscribe.
  service_code. cases; reflexivity.
Qed.

Lemma subscribe_listeners (s : Service.state) :
  wired s -> wired (CityData.subscribe wsUrl_valid s).1.2.
Proof.
  intros Hw.
  assert (wired (Service.exec (Service.on "error" CityData.cb_error)
                   (Service.exec (Service.on "cityUpdate" CityData.cb_cityUpdate)
                      s).1).1) as Hon.
  { apply wired_on; [apply wired_on; [exact Hw|..]|..]; done. }
  eapply wired_same; [|exact Hon].
  destruct s as [w n p ls cs c b t i]. unfold CityData.subscribe.
  service_code. cases; reflexivity.
Qed.

Lemma resubscribe_wired (now : Z) (st : CityData.state) :
  wired (CityData.service st) ->
  wired (CityData.service (CityData.resubscribe wsUrl_valid now st).1).
Proof.
  intros Hw. unfold CityData.resubscribe.
  pose proof (unsubscribe_listeners _ Hw) as Hu.
  destruct (CityData.unsubscribe (CityData.service st)) as [[[] sv1] e1].
  pose proof (subscribe_listeners _ Hu) as Hsub. simpl in Hsub.
  destruct (CityData.subscribe wsUrl_valid sv1) as [[[] sv2] e2].
  exact Hsub.
Qed.

Lemma unmount_wired (now : Z) (st : CityData.state) :
  wired (CityData.service st) ->
  wired (CityData.service (CityData.unmount now st).1).
Proof.
  intros Hw. unfold CityData.unmount.
  pose proof (unsubscribe_listeners _ Hw) as Hu.
  destruct (CityData.unsubscribe (CityData.service st)) as [[[] sv1] e1].
  exact Hu.
Qed.

Lemma render_wired (now : Z) (before : value) (st : CityData.state)
    (es : list effect) :
  wired (CityData.service st) ->
  wired (CityData.service (CityData.render wsUrl_valid now before st es).1).
Proof.
  intros Hw. unfold CityData.render.
  destruct (CityData.render_body _ _) as [[]|e].
  - destruct (CityData.same_selection _ _); [exact Hw|].
    pose proof (resubscribe_wired now st Hw) as Hre.
    by destruct (CityData.resubscribe wsUrl_valid now st) as [st1 e1].
  - pose proof (unmount_wired now st Hw) as Hun.
    by destruct (CityData.unmount now st) as [st1 e1].
Qed.

Lemma step_wired (now : Z) (ev : CityData.event) (st st' : CityData.state)
    (es : list effect) :
  wired (CityData.service st) ->
  (forall ev', ev = CityData.Turn ev' -> foreign ev') ->
  CityData.step wsUrl_valid now ev st = Some (st', es) ->
  wired (CityData.service st').
Proof.
  intros Hw Hf.
  assert (forall p : CityData.state * list effect,
            Some p = Some (st', es) -> wired (CityData.service p.1) ->
            wired (CityData.service st')) as Hfin.
  { intros p [= ->]. done. }
  destruct ev as [ev'|id]; unfold CityData.step.
  - destruct (Service.step wsUrl_valid ev' (CityData.service st))
      as [[sv es0]|] eqn:Hstep; [|discriminate].
    pose proof (service_step_wired _ _ _ _ Hw (Hf ev' eq_refl) Hstep) as Hsv.
    simpl. intros Heq. eapply Hfin; [exact Heq|].
    destruct (CityData.mountedRef (CityData.data st) && CityData.heard es0);
      [by apply render_wired | exact Hsv].
  - destruct (negb (CityData.mountedRef (CityData.data st))); [discriminate|].
    destruct (CityData.same_selection _ _).
    + by intros [= <- _].
    + intros Heq. eapply Hfin; [exact Heq|]. by apply render_wired.
Qed.

Lemma mount_wired (now : Z) :
  wired (CityData.service (CityData.mount wsUrl_valid now).1).
Proof.
  assert (wired Service.initial) as Hinit.
  { intros name cbs. simpl. by rewrite lookup_empty. }
  pose proof (subscribe_listeners _ Hinit) as Hsub.
  unfold CityData.mount.
  destruct (CityData.subscribe wsUrl_valid Service.initial) as [[[] sv] es].
  exact Hsub.
Qed.

Lemma run_wired (evs : list (Z * CityData.event)) :
  forall (st st' : CityData.state) (es : list effect),
    wired (CityData.service st) ->
    Forall (fun e => forall ev', e.2 = CityData.Turn ev' -> foreign ev') evs ->
    CityData.run wsUrl_valid evs st = Some (st', es) ->
    wired (CityData.service st').
Proof.
  induction evs as [|[now ev] evs IH]; intros st st' es Hw Hf Hrun;
    simpl in Hrun.
  - by simplify_eq.
  - apply Forall_cons in Hf as [Hev Hf].
    destruct (CityData.step wsUrl_valid now ev st) as [[s1 e1]|] eqn:Hstep;
      [|discriminate].
    simpl in Hrun.
    destruct (CityData.run wsUrl_valid evs s1) as [[s2 e2]|] eqn:Hrest;
      [|discriminate].
    simpl in Hrun. simplify_eq.
    eapply IH; [|exact Hf|exact Hrest]. by eapply step_wired.
Qed.

(** On a wired service, a frame that is neither a snapshot nor an error
    notice calls no setter of the hook: nothing renders, and the hook and
    its service are as they were. *)
Lemma wired_frame_kept (now : Z) (id : nat) (data : inbound)
    (st st' : CityData.state) (es : list effect) :
  wired (CityData.service st) ->
  (forall msg, data = Json msg ->
     ~ has_type msg "city_update" /\ ~ has_type msg "error") ->
  CityData.step wsUrl_valid now
    (CityData.Turn (Service.SocketMessage id data)) st = Some (st', es) ->
  st' = st /\ sent es = [] /\ connection_attempts es = [].
Proof.
  intros Hw Hkind. destruct st as [sv d fs]. simpl in Hw.
  unfold CityData.step. simpl.
  destruct (in_state (Service.browser sv) id OPEN
            || in_state (Service.browser sv) id CLOSING); [|discriminate].
  simpl.
  destruct (wired_frame_calls data sv Hw Hkind)
    as (cbs & arg & -> & H0 & H1 & H2).
  destruct (heard_foreign arg cbs H0 H1 H2) as [-> ->].
  rewrite (listen_foreign now arg cbs d H0 H1 H2), !andb_false_r.
  intros [= <- <-].
  by rewrite sent_invokes, connection_attempts_invokes.
Qed.

(** X17. Through the service, the store of [useCityData] learns of snapshots
    and error notices only. In every state the hook reaches from its mount
    (by socket events, timers, commands, selections, and listeners that
    other components register under callbacks of their own), a frame that
    is not a [city_update] and not an [error] message (an [incident_update],
    an [ambulance_route_update], a [pong], an unknown kind, an unparseable
    payload) leaves the store and the service exactly as they were, sends
    nothing and opens no socket: incremental updates do not reach this
    store. *)
Theorem incremental_frames_do_not_reach_store (start now : Z)
    (evs : list (Z * CityData.event)) (id : nat) (data : inbound)
    (st st' : CityData.state) (es0 es : list effect) :
  Forall (fun e => forall ev', e.2 = CityData.Turn ev' -> foreign ev') evs ->
  CityData.run wsUrl_valid evs (CityData.mount wsUrl_valid start).1
    = Some (st, es0) ->
  (forall msg, data = Json msg ->
     ~ has_type msg "city_update" /\ ~ has_type msg "error") ->
  CityData.step wsUrl_valid now
    (CityData.Turn (Service.SocketMessage id data)) st = Some (st', es) ->
  st' = st /\ sent es = [] /\ connection_attempts es = [].
Proof.
  intros Hf Hrun Hkind Hstep.
  eapply wired_frame_kept; [|exact Hkind|exact Hstep].
  eapply run_wired; [apply mount_wired | exact Hf | exact Hrun].
Qed.

End CityDataOverService.

Lemma unsubscribe_run (k : nat) (s : Service.state) :
  Service.ws s = Some k ->
  closes (CityData.unsubscribe s).2 = [k] /\
  connection_attempts (CityData.unsubscribe s).2 = [] /\
  sent (CityData.unsubscribe s).2 = [] /\
  Service.ws (CityData.unsubscribe s).1.2 = None /\
  Service.browser (CityData.unsubscribe s).1.2 = close k (Service.browser s).
Proof.
  destruct s as [w n p ls cs c b t i]. simpl. intros ->.
  unfold CityData.unsubscribe. service_code.
  destruct (ls !! "cityUpdate") as [l0|]; simpl;
    [rewrite lookup_insert_ne by done|];
    destruct (ls !! "error") as [l1|]; destruct p; simpl;
    rewrite ?closes_invokes, ?connection_attempts_invokes, ?sent_invokes;
    done.
Qed.

Lemma subscribe_run (now : Z) (s : Service.state) (d : CityData.store) :
  Service.ws s = None ->
  closes (CityData.subscribe true s).2 = [] /\
  connection_attempts (CityData.subscribe true s).2
    = [length (Service.browser s)] /\
  sent (CityData.subscribe true s).2 = [] /\
  Service.ws (CityData.subscribe true s).1.2
    = Some (length (Service.browser s)) /\
  foldl (CityData.listen now) d (CityData.subscribe true s).2 = d.
Proof.
  destruct s as [w n p ls cs c b t i]. simpl. intros ->.
  unfold CityData.subscribe. service_code. done.
Qed.

Lemma resubscribe_run (now : Z) (k : nat) (st : CityData.state) :
  Service.ws (CityData.service st) = Some k ->
  closes (CityData.resubscribe true now st).2 = [k] /\
  connection_attempts (CityData.resubscribe true now st).2
    = [length (Service.browser (CityData.service st))] /\
  sent (CityData.resubscribe true now st).2 = [] /\
  Service.ws (CityData.service (CityData.resubscribe true now st).1)
    = Some (length (Service.browser (CityData.service st))) /\
  CityData.data (CityData.resubscribe true now st).1
    = CityData.set_mountedRef true
        (CityData.set_mountedRef false (CityData.data st)).
Proof.
  intros Hws. destruct st as [sv d fs]. simpl in Hws.
  unfold CityData.resubscribe. simpl.
  destruct (unsubscribe_run k sv Hws) as (Hc & Ha & Hs & Hw & Hb).
  destruct (CityData.unsubscribe sv) as [[[] sv1] e1]. simpl in *.
  rewrite listen_unmounted by reflexivity.
  destruct (subscribe_run now sv1
              (CityData.set_mountedRef true (CityData.set_mountedRef false d))
              Hw)
    as (Hc2 & Ha2 & Hs2 & Hw2 & Hd2).
  destruct (CityData.subscribe true sv1) as [[[] sv2] e2]. simpl in *.
  rewrite closes_app, connection_attempts_app, sent_app, Hc, Ha, Hs, Hc2,
    Ha2, Hs2, Hw2, Hd2, Hb, close_length.
  done.
Qed.

Lemma unmount_run (now : Z) (k : nat) (st : CityData.state) :
  Service.ws (CityData.service st) = Some k ->
  closes (CityData.unmount now st).2 = [k] /\
  connection_attempts (CityData.unmount now st).2 = [] /\
  sent (CityData.unmount now st).2 = [] /\
  Service.ws (CityData.service (CityData.unmount now st).1) = None /\
  CityData.data (CityData.unmount now st).1
    = CityData.set_mountedRef false (CityData.data st).
Proof.
  intros Hws. destruct st as [sv d fs]. simpl in Hws.
  unfold CityData.unmount. simpl.
  destruct (unsubscribe_run k sv Hws) as (Hc & Ha & Hs & Hw & Hb).
  destruct (CityData.unsubscribe sv) as [[[] sv1] e1]. simpl in *.
  by rewrite listen_unmounted by reflexivity.
Qed.

(** What the render does after a turn that changed the selection. *)
Lemma render_changed (now : Z) (k : nat) (before : value)
    (st : CityData.state) (es : list effect) :
  Service.ws (CityData.service st) = Some k ->
  CityData.same_selection before
    (CityData.selectedIntersectionId (CityData.data st)) = false ->
  closes es = [] -> connection_attempts es = [] ->
  let after := CityData.render true now before st es in
  (CityData.render_body (CityData.first_selected st) (CityData.data st)
     = Returned tt ->
   closes after.2 = [k] /\
   connection_attempts after.2
     = [length (Service.browser (CityData.service st))] /\
   Service.ws (CityData.service after.1)
     = Some (length (Service.browser (CityData.service st))) /\
   CityData.data after.1
     = CityData.set_mountedRef true
         (CityData.set_mountedRef false (CityData.data st)) /\
   sent after.2 = sent es) /\
  (forall e,
     CityData.render_body (CityData.first_selected st) (CityData.data st)
       = Threw e ->
     closes after.2 = [k] /\
     connection_attempts after.2 = [] /\
     Service.ws (CityData.service after.1) = None /\
     CityData.data after.1
       = CityData.set_mountedRef false (CityData.data st) /\
     sent after.2 = sent es).
Proof.
  intros Hws Hsel Hc Ha. cbv zeta. unfold CityData.render. split.
  - intros ->. rewrite Hsel.
    destruct (resubscribe_run now k st Hws) as (Hc1 & Ha1 & Hs1 & Hw1 & Hd1).
    destruct (CityData.resubscribe true now st) as [st1 e1]. simpl in *.
    by rewrite closes_app, connection_attempts_app, sent_app, Hc, Ha, Hc1,
      Ha1, Hs1, app_nil_r.
  - intros e ->.
    destruct (unmount_run now k st Hws) as (Hc1 & Ha1 & Hs1 & Hw1 & Hd1).
    destruct (CityData.unmount now st) as [st1 e1]. simpl in *.
    by rewrite closes_app, connection_attempts_app, sent_app, Hc, Ha;
      simpl; rewrite Hc1, Ha1, Hs1, app_nil_r.
Qed.

(** X18. Selecting another intersection reconnects, if the hook renders
    with it. [handleCityUpdate] depends on the selection, so after a
    selection that changes it, and a render that returns, React runs the
    effect's cleanup and the effect again: the service's socket is closed
    and a new one is constructed, nothing is sent, and the store keeps its
    connection flag and error as they were, since its status listener was
    removed before the socket was closed. When the render throws (the
    selected node of the stored city lacks the metrics that [lanes] reads),
    React unmounts the hook: the cleanup closes the socket and nothing
    reconnects. Selecting the intersection that is already selected does
    nothing. *)
Theorem selection_change_reconnects (now : Z) (id : string) (k : nat)
    (st st' : CityData.state) (es : list effect) :
  Service.ws (CityData.service st) = Some k ->
  CityData.step true now (CityData.Select id) st = Some (st', es) ->
  let chosen :=
    CityData.setSelectedIntersectionId (VStr id) (CityData.data st) in
  (CityData.selectedIntersectionId (CityData.data st) = VStr id ->
     st' = st /\ es = []) /\
  (CityData.selectedIntersectionId (CityData.data st) <> VStr id ->
   CityData.render_body false chosen = Returned tt ->
     closes es = [k] /\
     connection_attempts es = [length (Service.browser (CityData.service st))] /\
     sent es = [] /\
     Service.ws (CityData.service st')
       = Some (length (Service.browser (CityData.service st))) /\
     CityData.selectedIntersectionId (CityData.data st') = VStr id /\
     CityData.isConnected (CityData.data st')
       = CityData.isConnected (CityData.data st) /\
     CityData.error (CityData.data st') = CityData.error (CityData.data st) /\
     CityData.mountedRef (CityData.data st') = true) /\
  (CityData.selectedIntersectionId (CityData.data st) <> VStr id ->
   forall e, CityData.render_body false chosen = Threw e ->
     closes es = [k] /\ connection_attempts es = [] /\ sent es = [] /\
     Service.ws (CityData.service st') = None /\
     CityData.mountedRef (CityData.data st') = false).
Proof.
  intros Hws. destruct st as [sv d fs]. simpl in Hws.
  unfold CityData.step. simpl.
  destruct (negb (CityData.mountedRef d)); [discriminate|].
  assert (CityData.selectedIntersectionId d <> VStr id ->
          CityData.same_selection
            (CityData.selectedIntersectionId d) (VStr id) = false) as Hdiff.
  { intros Hsel. destruct (CityData.selectedIntersectionId d) eqn:Hd; simpl;
      try reflexivity.
    apply bool_decide_eq_false_2. congruence. }
  intros Hstep. split; [|split].
  - intros Hsel. revert Hstep. rewrite Hsel. simpl.
    rewrite bool_decide_eq_true_2 by reflexivity. by intros [= <- <-].
  - intros Hsel Hbody. revert Hstep. rewrite (Hdiff Hsel).
    pose proof (render_changed now k (CityData.selectedIntersectionId d)
                  {| CityData.service := sv;
                     CityData.data :=
                       CityData.setSelectedIntersectionId (VStr id) d;
                     CityData.first_selected := false |} [] Hws
                  (Hdiff Hsel) eq_refl eq_refl) as [Hok _].
    cbv zeta in Hok. destruct (Hok Hbody) as (Hc & Ha & Hw & Hd & Hs).
    destruct (CityData.render true now _ _ _) as [st1 e1]. simpl in *.
    intros [= <- <-]. rewrite Hd. by destruct d.
  - intros Hsel e Hbody. revert Hstep. rewrite (Hdiff Hsel).
    pose proof (render_changed now k (CityData.selectedIntersectionId d)
                  {| CityData.service := sv;
                     CityData.data :=
                       CityData.setSelectedIntersectionId (VStr id) d;
                     CityData.first_selected := false |} [] Hws
                  (Hdiff Hsel) eq_refl eq_refl) as [_ Hthrows].
    cbv zeta in Hthrows.
    destruct (Hthrows e Hbody) as (Hc & Ha & Hw & Hd & Hs).
    destruct (CityData.render true now _ _ _) as [st1 e1]. simpl in *.
    intros [= <- <-]. by rewrite Hd.
Qed.

(** The render after a snapshot that made the hook select its first node:
    the memo [selectedNode] finds that node and [lanes] reads it. *)
Lemma render_first_node (fs : bool) (d : CityData.store) (first : value)
    (rest : list value) (id : string) :
  CityData.selectedIntersectionId d = VStr id -> id <> "" ->
  CityData.nodes d = VArr (first :: rest) ->
  nullish first = false -> prop first "intersection_id" = VStr id ->
  CityData.render_body fs d = CityData.lanes first.
Proof.
  intros Hsel Hne Hnodes Hfirst Hid.
  unfold CityData.render_body, CityData.selectedNode.
  rewrite Hsel, Hnodes. simpl.
  rewrite bool_decide_eq_false_2 by exact Hne.
  rewrite (get_not_nullish _ _ Hfirst), Hid. simpl.
  by rewrite bool_decide_eq_true_2.
Qed.

(** X19. The first snapshot restarts the connection, or takes the hook
    down. While nothing truthy is selected, a [city_update] frame whose
    city has a first node with a non-empty string [intersection_id] makes
    the hook select that node, and React renders. When the memo [lanes]
    returns for that node, the effect runs again in the same turn, the
    selection being a dependency of [handleCityUpdate]: the socket the
    service holds is closed and a new one is constructed, and the snapshot
    is kept in the store. When [lanes] throws for that node (it has no
    [direction_metrics], say), React unmounts the hook: the socket is
    closed and none is constructed. *)
Theorem first_snapshot_reconnects (now : Z) (k socket : nat) (msg first : value)
    (rest : list value) (id : string) (st st' : CityData.state)
    (es : list effect) :
  Service.ws (CityData.service st) = Some k ->
  Service.eventListeners (CityData.service st) !! "cityUpdate"
    = Some [CityData.cb_cityUpdate] ->
  CityData.mountedRef (CityData.data st) = true ->
  falsy (CityData.selectedIntersectionId (CityData.data st)) = true ->
  has_type msg "city_update" ->
  prop (prop msg "city") "nodes" = VArr (first :: rest) ->
  entries (first :: rest) ->
  prop first "intersection_id" = VStr id -> id <> "" ->
  CityData.step true now
    (CityData.Turn (Service.SocketMessage socket (Json msg))) st
    = Some (st', es) ->
  (CityData.lanes first = Returned tt ->
   closes es = [k] /\
   connection_attempts es = [length (Service.browser (CityData.service st))] /\
   Service.ws (CityData.service st')
     = Some (length (Service.browser (CityData.service st))) /\
   CityData.mountedRef (CityData.data st') = true /\
   CityData.selectedIntersectionId (CityData.data st') = VStr id /\
   CityData.city (CityData.data st') = prop msg "city" /\
   CityData.latestCityUpdate (CityData.data st') = msg) /\
  (forall e, CityData.lanes first = Threw e ->
   closes es = [k] /\ connection_attempts es = [] /\
   Service.ws (CityData.service st') = None /\
   CityData.mountedRef (CityData.data st') = false).
Proof.
  intros Hws Hls Hm Hsel Hty Hns Hentries Hid Hne.
  destruct st as [sv d fs]. simpl in Hws, Hls, Hm, Hsel.
  unfold CityData.step.
  change (Service.step true (Service.SocketMessage socket (Json msg))
            (CityData.service
               {| CityData.service := sv; CityData.data := d;
                  CityData.first_selected := fs |}))
    with (if in_state (Service.browser sv) socket OPEN
             || in_state (Service.browser sv) socket CLOSING
          then Some (Service.exec (Service.onmessage (Json msg)) sv)
          else None).
  unfold Service.exec.
  rewrite (service_hears_city_update msg sv Hty), Hls.
  destruct (in_state (Service.browser sv) socket OPEN
            || in_state (Service.browser sv) socket CLOSING); [|discriminate].
  simpl. rewrite Hm, Hsel. simpl.
  destruct (handleCityUpdate_mounted now msg (first :: rest) d Hm Hns Hentries)
    as (d' & Hrun & Hsel' & Hlatest & Hcity & _ & _ & _ & _ & Hnodes & _ & Hm').
  rewrite Hrun. simpl. rewrite Hsel, Hid in Hsel'.
  assert (CityData.same_selection (CityData.selectedIntersectionId d)
            (CityData.selectedIntersectionId d') = false) as Hdiff.
  { rewrite Hsel'.
    destruct (CityData.selectedIntersectionId d) eqn:Hd; simpl in *;
      try reflexivity; try discriminate.
    apply bool_decide_eq_true in Hsel. subst.
    apply bool_decide_eq_false_2. congruence. }
  apply Forall_cons in Hentries as [Hfirst _].
  pose proof (render_first_node true d' first rest id Hsel' Hne Hnodes Hfirst
                Hid) as Hbody.
  pose proof (render_changed now k (CityData.selectedIntersectionId d)
                {| CityData.service := sv; CityData.data := d';
                   CityData.first_selected := true |}
                [Invoke CityData.cb_cityUpdate msg] Hws Hdiff eq_refl eq_refl)
    as [Hok Hthrows].
  cbv zeta in Hok, Hthrows. simpl in Hok, Hthrows.
  rewrite Hbody in Hok, Hthrows.
  destruct (CityData.render true now _ _ _) as [st1 e1]. simpl in *.
  intros [= <- <-]. split.
  - intros Hlanes. destruct (Hok Hlanes) as (Hc & Ha & Hw & Hd & _).
    rewrite Hd. by destruct d'.
  - intros e Hlanes. destruct (Hthrows e Hlanes) as (Hc & Ha & Hw & Hd & _).
    by rewrite Hd.
Qed.

Lemma snapshot_selects_first_node_witness :
  exists s',
    CityData.handleCityUpdate 7
      (Samples.city_update [Samples.node "A"; Samples.node "B"] [] [] [])
      CityData.initial = (Returned tt, s') /\
    CityData.selectedIntersectionId s' = VStr "A".
Proof.
  destruct (snapshot_selects_first_node 7
              (Samples.city_update [Samples.node "A"; Samples.node "B"] [] [] [])
              [Samples.node "A"; Samples.node "B"] CityData.initial)
    as (s' & Hrun & Hsel & _).
  - reflexivity.
  - vm_compute. reflexivity.
  - repeat constructor.
  - exists s'. split; [exact Hrun|]. rewrite Hsel. vm_compute. reflexivity.
Defined.

Lemma incremental_frames_do_not_reach_store_witness :
  exists st,
    CityData.run true
      [(1, CityData.Turn (Service.SocketOpened 0));
       (2, CityData.Turn (Service.On "incidentUpdate" 5))]
      (CityData.mount true 0).1 = Some (st, [Invoke 2 (VBool true);
                                             SetInterval 30000]) /\
    CityData.step true 3
      (CityData.Turn
         (Service.SocketMessage 0
            (Json (Samples.incident_update (Samples.incident "i1" "active")))))
      st = Some (st, [Invoke 5 (Samples.incident_update
                                  (Samples.incident "i1" "active"))]).
Proof.
  eexists. split; [vm_compute; reflexivity|].
  match goal with
  | |- ?step = Some (?st, ?es) =>
      destruct step as [[st' es']|] eqn:Hstep; [|vm_compute in Hstep; discriminate]
  end.
  refine (match incremental_frames_do_not_reach_store true 0 3
                  [(1, CityData.Turn (Service.SocketOpened 0));
                   (2, CityData.Turn (Service.On "incidentUpdate" 5))]
                  0 _ _ st' _ es' _ _ _ Hstep with
          | conj Hst _ => _
          end).
  - repeat constructor; simpl; intros ev' [= <-]; simpl; lia.
  - vm_compute. reflexivity.
  - intros msg [= <-]. split; vm_compute; discriminate.
  - subst st'. vm_compute in Hstep. vm_compute. congruence.
Defined.

(** A selection before any snapshot: there is no node to render, and the
    hook reconnects. A selection, after a snapshot, of a node that has no
    metrics: the render throws and the hook is unmounted. *)
Lemma selection_change_reconnects_witness :
  let evs :=
    [(1, CityData.Turn (Service.SocketOpened 0));
     (2, CityData.Turn
           (Service.SocketMessage 0
              (Json (Samples.city_update
                       [Samples.junction "A"; Samples.node "B"] [] [] []))))] in
  (exists st es,
     CityData.step true 2 (CityData.Select "B")
       (CityData.mount true 0).1 = Some (st, es) /\
     closes es = [0%nat] /\ connection_attempts es = [1%nat])
  /\
  (exists st0 es0,
     CityData.run true evs (CityData.mount true 0).1 = Some (st0, es0) /\
     CityData.selectedIntersectionId (CityData.data st0) = VStr "A" /\
     exists st es,
       CityData.step true 3 (CityData.Select "B") st0 = Some (st, es) /\
       closes es = [1%nat] /\ connection_attempts es = [] /\
       CityData.mountedRef (CityData.data st) = false).
Proof.
  intros evs. split.
  - destruct (CityData.step true 2 (CityData.Select "B")
                (CityData.mount true 0).1) as [[st es]|] eqn:Hstep;
      [|vm_compute in Hstep; discriminate].
    exists st, es. split; [reflexivity|].
    destruct (selection_change_reconnects 2 "B" 0 (CityData.mount true 0).1
                st es) as (_ & Hchange & _).
    + vm_compute. reflexivity.
    + exact Hstep.
    + destruct Hchange as (Hc & Ha & _).
      * vm_compute. discriminate.
      * vm_compute. reflexivity.
      * split; [exact Hc | exact Ha].
  - destruct (CityData.run true evs (CityData.mount true 0).1)
      as [[st0 es0]|] eqn:Hrun; [|vm_compute in Hrun; discriminate].
    exists st0, es0. split; [reflexivity|].
    vm_compute in Hrun. injection Hrun as <- <-.
    split; [reflexivity|].
    match goal with
    | |- exists st es, ?step = _ /\ _ =>
        destruct step as [[st es]|] eqn:Hstep;
          [|vm_compute in Hstep; discriminate]
    end.
    edestruct (selection_change_reconnects 3 "B" 1) as (_ & _ & Hthrows);
      [|exact Hstep|]; [vm_compute; reflexivity|].
    destruct (Hthrows ltac:(vm_compute; discriminate) TypeError
                ltac:(vm_compute; reflexivity)) as (Hc & Ha & _ & _ & Hm).
    exists st, es. split; [reflexivity|].
    split; [exact Hc|]. split; [exact Ha | exact Hm].
Defined.

(** The first snapshot, once with a node that carries its metrics and once
    with a node that has none. *)
Lemma first_snapshot_reconnects_witness :
  exists st es0 st1 es1 st2 es2,
    CityData.run true [(1, CityData.Turn (Service.SocketOpened 0))]
      (CityData.mount true 0).1 = Some (st, es0) /\
    CityData.step true 2
      (CityData.Turn
         (Service.SocketMessage 0
            (Json (Samples.city_update [Samples.junction "A"] [] [] []))))
      st = Some (st1, es1) /\
    closes es1 = [0%nat] /\ connection_attempts es1 = [1%nat] /\
    CityData.selectedIntersectionId (CityData.data st1) = VStr "A" /\
    CityData.step true 2
      (CityData.Turn
         (Service.SocketMessage 0
            (Json (Samples.city_update [Samples.node "A"] [] [] []))))
      st = Some (st2, es2) /\
    closes es2 = [0%nat] /\ connection_attempts es2 = [] /\
    CityData.mountedRef (CityData.data st2) = false.
Proof.
  destruct (CityData.run true [(1, CityData.Turn (Service.SocketOpened 0))]
              (CityData.mount true 0).1) as [[st es0]|] eqn:Hrun;
    [|vm_compute in Hrun; discriminate].
  exists st, es0. vm_compute in Hrun. injection Hrun as <- <-.
  match goal with
  | |- exists st1 es1 st2 es2, _ /\ ?step1 = _ /\ _ /\ _ /\ _ /\ ?step2 = _ /\ _ =>
      destruct step1 as [[st1 es1]|] eqn:Hstep1;
        [|vm_compute in Hstep1; discriminate];
      destruct step2 as [[st2 es2]|] eqn:Hstep2;
        [|vm_compute in Hstep2; discriminate]
  end.
  exists st1, es1, st2, es2. split; [reflexivity|]. split; [reflexivity|].
  unshelve epose proof
    (first_snapshot_reconnects 2 0 0
       (Samples.city_update [Samples.junction "A"] [] [] [])
       (Samples.junction "A") [] "A" _ st1 es1 _ _ _ _ _ _ _ _ _ Hstep1)
    as [Hgood _];
    [> vm_compute; reflexivity | vm_compute; reflexivity
     | vm_compute; reflexivity | vm_compute; reflexivity
     | vm_compute; reflexivity | vm_compute; reflexivity
     | repeat constructor | vm_compute; reflexivity | discriminate |].
  unshelve epose proof
    (first_snapshot_reconnects 2 0 0
       (Samples.city_update [Samples.node "A"] [] [] [])
       (Samples.node "A") [] "A" _ st2 es2 _ _ _ _ _ _ _ _ _ Hstep2)
    as [_ Hbad];
    [> vm_compute; reflexivity | vm_compute; reflexivity
     | vm_compute; reflexivity | vm_compute; reflexivity
     | vm_compute; reflexivity | vm_compute; reflexivity
     | repeat constructor | vm_compute; reflexivity | discriminate |].
  destruct (Hgood ltac:(vm_compute; reflexivity)) as (Hc & Ha & _ & _ & Hsel & _).
  destruct (Hbad TypeError ltac:(vm_compute; reflexivity)) as (Hc' & Ha' & _ & Hm').
  repeat split; assumption.
Defined.

(** ** The replay page: following, playing, seeking, pausing *)

Section ReplayPlayback.

Import Replay.

Lemma current_at_end (s : state) :
  Z.of_nat (length (bufferRef s)) - 1 <= playIndex s ->
  current s = last (bufferRef s).
Proof.
  intros Hend. unfold current, index. case_bool_decide as Hlen.
  - by destruct (bufferRef s).
  - rewrite bool_decide_eq_true_2 by lia. rewrite last_lookup. f_equal. lia.
Qed.

Lemma last_last_entries (n : nat) (xs : list value) (u : value) :
  (0 < n)%nat -> last (last_entries n (xs ++ [u])) = Some u.
Proof.
  intros Hn. unfold last_entries. rewrite last_lookup, lookup_drop, length_drop.
  rewrite length_app. simpl.
  replace (length xs + 1 - n + pred (length xs + 1 - (length xs + 1 - n)))%nat
    with (length xs + 0)%nat by lia.
  by rewrite lookup_app_r, Nat.add_0_r, Nat.sub_diag by lia.
Qed.

(** The effect while recording and not playing: the update is appended and
    the cursor pinned to it. *)
Lemma record_pins (u : value) (s : state) :
  latestCityUpdate s = Some u -> isRecording s = true -> isPlaying s = false ->
  bufferRef (record s) = last_entries 300 (bufferRef s ++ [u]) /\
  playIndex (record s) = Z.of_nat (length (bufferRef (record s))) - 1 /\
  latestCityUpdate (record s) = Some u /\
  isRecording (record s) = true /\ isPlaying (record s) = false /\
  current (record s) = Some u.
Proof.
  intros Hl Hr Hp.
  destruct (record_buffer u s Hl Hr) as [Hb Hr'].
  assert (playIndex (record s) = Z.of_nat (length (bufferRef (record s))) - 1 /\
          latestCityUpdate (record s) = Some u /\
          isPlaying (record s) = false)
    as (Hi & Hl' & Hp').
  { unfold record. rewrite Hl, Hr. simpl. rewrite Hp. done. }
  repeat (split; [assumption|]).
  rewrite current_at_end by lia. rewrite Hb. apply last_last_entries; lia.
Qed.

Lemma record_latest (s : state) :
  latestCityUpdate (record s) = latestCityUpdate s.
Proof.
  unfold record. destruct (latestCityUpdate s) eqn:Hl; [|exact Hl].
  destruct (isRecording s); simpl; [|exact Hl].
  by destruct (isPlaying s).
Qed.

(** The effect does nothing without a snapshot or while paused. *)
Lemma record_idle (s : state) :
  latestCityUpdate s = None \/ isRecording s = false -> record s = s.
Proof.
  unfold record. intros [Hl|Hr].
  - by rewrite Hl.
  - rewrite Hr. by destruct (latestCityUpdate s).
Qed.

Lemma live_step (ev : event) (s : state) :
  live s -> (exists u, ev = Update u) \/ (exists v, ev = Seek v) ->
  live (step ev s).
Proof.
  intros [Hr Hp] [[u ->]|[v ->]]; simpl.
  - destruct (record_pins u (set_latestCityUpdate (Some u) s) eq_refl Hr Hp)
      as (_ & _ & _ & Hr' & Hp' & _).
    by split.
  - unfold rerun_if_playing_changed. simpl.
    rewrite bool_decide_eq_true_2 by (by rewrite Hp). by split.
Qed.

(** X20. The cursor follows the feed. While the page records and is not
    playing, every update is appended to the buffer and the cursor is set
    to the last position: after any updates and slider moves followed by an
    update, that update is the last entry of the buffer and [playIndex] is
    the length less one. A position chosen on the slider is kept only until
    the next update. (This is the buffer and the cursor after the effect
    has run; the snapshot on the page is computed when it renders.) *)
Theorem live_cursor_follows_feed (evs : list event) (u : value) (s : state) :
  isRecording s = true -> isPlaying s = false ->
  Forall (fun ev => (exists u', ev = Update u') \/ (exists v, ev = Seek v)) evs ->
  last (bufferRef (run (evs ++ [Update u]) s)) = Some u /\
  playIndex (run (evs ++ [Update u]) s)
    = Z.of_nat (length (bufferRef (run (evs ++ [Update u]) s))) - 1 /\
  isRecording (run (evs ++ [Update u]) s) = true /\
  isPlaying (run (evs ++ [Update u]) s) = false.
Proof.
  intros Hr Hp Hevs.
  assert (live (run evs s)) as [Hr' Hp'].
  { assert (live s) as Hlive by (by split). clear Hr Hp. revert s Hlive.
    induction Hevs as [|ev evs Hev _ IH]; intros s Hlive; [exact Hlive|].
    simpl. apply IH. by apply live_step. }
  unfold run in *. rewrite foldl_app. simpl.
  destruct (record_pins u
              (set_latestCityUpdate (Some u) (foldl (fun s ev => step ev s) s evs))
              eq_refl Hr' Hp')
    as (Hb & Hi & _ & Hr2 & Hp2 & _).
  split; [|by repeat split].
  rewrite Hb. apply last_last_entries; lia.
Qed.

(** X21. A snapshot can be recorded more than once. The recording effect
    depends on [isPlaying], so each press of Play or Stop while recording
    appends the latest snapshot once more: after an update and [n] presses
    the buffer ends with [n + 1] copies of it (within the last 300). *)
Theorem play_toggle_records_again (n : nat) (u : value) (s : state) :
  isRecording s = true ->
  bufferRef (run (Update u :: replicate n TogglePlaying) s)
    = last_entries 300 (bufferRef s ++ replicate (S n) u).
Proof.
  intros Hr.
  assert (bufferRef (run (Update u :: replicate n TogglePlaying) s)
            = last_entries 300 (bufferRef s ++ replicate (S n) u) /\
          latestCityUpdate (run (Update u :: replicate n TogglePlaying) s)
            = Some u /\
          isRecording (run (Update u :: replicate n TogglePlaying) s) = true)
    as (H & _ & _); [|exact H].
  induction n as [|n (IHb & IHl & IHr)].
  - change (run (Update u :: replicate 0 TogglePlaying) s)
      with (record (set_latestCityUpdate (Some u) s)).
    rewrite record_latest.
    destruct (record_buffer u (set_latestCityUpdate (Some u) s) eq_refl Hr)
      as [Hb Hr'].
    done.
  - replace (Update u :: replicate (S n) TogglePlaying)
      with ((Update u :: replicate n TogglePlaying) ++ [TogglePlaying])
      by (simpl; f_equal; by rewrite <- replicate_S_end).
    unfold run in *. rewrite foldl_app.
    set (s1 := foldl (fun s ev => step ev s) s
                 (Update u :: replicate n TogglePlaying)) in *.
    change (foldl (fun s ev => step ev s) s1 [TogglePlaying])
      with (record (setIsPlaying (negb (isPlaying s1)) s1)).
    rewrite record_latest.
    destruct (record_buffer u (setIsPlaying (negb (isPlaying s1)) s1) IHl IHr)
      as [Hb Hr'].
    split; [|by split].
    rewrite Hb. simpl. rewrite IHb, last_entries_app, <- app_assoc.
    f_equal. f_equal. by rewrite <- replicate_S_end.
Qed.

Lemma ticks_play (n : nat) :
  forall s : state,
    isPlaying s = true ->
    Z.of_nat n
      = Z.max 0 (Z.max 0 (Z.of_nat (length (bufferRef s)) - 1)
                 - playIndex s - 1) ->
    isPlaying (run (replicate (S n) Tick) s) = false /\
    current (run (replicate (S n) Tick) s)
      = last (bufferRef (run (replicate (S n) Tick) s)) /\
    (forall j, (j <= n)%nat -> isPlaying (run (replicate j Tick) s) = true).
Proof.
  induction n as [|n IH]; intros s Hp Hn.
  - assert (step Tick s
            = record (setPlayIndex
                        (Z.max 0 (Z.of_nat (length (bufferRef s)) - 1))
                        (setIsPlaying false s))) as Hstep.
    { simpl. rewrite Hp. unfold tick.
      rewrite bool_decide_eq_true_2 by lia.
      unfold rerun_if_playing_changed. simpl.
      reflexivity. }
    change (run (replicate 1 Tick) s) with (step Tick s). rewrite Hstep.
    set (s1 := setPlayIndex _ _).
    split; [|split].
    + unfold record. destruct (latestCityUpdate s1); [|reflexivity].
      by destruct (isRecording s1).
    + destruct (latestCityUpdate s1) as [u|] eqn:Hl;
        [destruct (isRecording s1) eqn:Hr|].
      * destruct (record_pins u s1 Hl Hr eq_refl) as (Hb & _ & _ & _ & _ & Hc).
        rewrite Hc, Hb. symmetry. apply last_last_entries; lia.
      * rewrite record_idle by auto. apply current_at_end. simpl. lia.
      * rewrite record_idle by auto. apply current_at_end. simpl. lia.
    + intros j Hj. replace j with 0%nat by lia. exact Hp.
  - assert (step Tick s = setPlayIndex (playIndex s + 1) s) as Hstep.
    { simpl. rewrite Hp. unfold tick.
      rewrite bool_decide_eq_false_2 by lia.
      unfold rerun_if_playing_changed. simpl.
      rewrite ?Hp. reflexivity. }
    change (run (replicate (S (S n)) Tick) s)
      with (run (replicate (S n) Tick) (step Tick s)).
    rewrite Hstep.
    destruct (IH (setPlayIndex (playIndex s + 1) s) Hp) as (H1 & H2 & H3);
      [simpl; lia|].
    split; [exact H1|]. split; [exact H2|].
    intros [|j] Hj; [exact Hp|].
    change (run (replicate (S j) Tick) s)
      with (run (replicate j Tick) (step Tick s)).
    rewrite Hstep. apply H3. lia.
Qed.

(** X22. Playback ends on the last snapshot. From a playing page the timer
    alone stops the playback: it runs for as many ticks as the cursor is
    away from the last position of the buffer (for one tick when the cursor
    is already there or beyond), is still playing before that, and when it
    has stopped the snapshot on display is the last one of the buffer. *)
Theorem playback_stops_on_last_snapshot (s : state) :
  isPlaying s = true ->
  let k := Z.to_nat (Z.max 1 (Z.max 0 (Z.of_nat (length (bufferRef s)) - 1)
                              - playIndex s)) in
  isPlaying (run (replicate k Tick) s) = false /\
  current (run (replicate k Tick) s)
    = last (bufferRef (run (replicate k Tick) s)) /\
  (forall j, (j < k)%nat -> isPlaying (run (replicate j Tick) s) = true).
Proof.
  intros Hp k.
  set (n := Z.to_nat (Z.max 0 (Z.max 0 (Z.of_nat (length (bufferRef s)) - 1)
                               - playIndex s - 1))).
  assert (k = S n) as -> by (unfold k, n; lia).
  destruct (ticks_play n s Hp) as (H1 & H2 & H3); [unfold n; lia|].
  split; [exact H1|]. split; [exact H2|]. intros j Hj. apply H3. lia.
Qed.

(** X23. A slider move during playback does not hold. While the page plays
    and records, moving the slider stops the playback, which runs the
    recording effect again: the latest snapshot is appended and the cursor
    is pinned to it, so the page shows the newest snapshot and not the
    position chosen. On a page that is not playing the slider sets the
    cursor to the chosen value and leaves the buffer alone. *)
Theorem seek_during_playback_jumps_to_latest (v : Z) (u : value) (s : state) :
  (isPlaying s = true -> isRecording s = true -> latestCityUpdate s = Some u ->
   isPlaying (step (Seek v) s) = false /\
   current (step (Seek v) s) = Some u /\
   bufferRef (step (Seek v) s) = last_entries 300 (bufferRef s ++ [u]) /\
   playIndex (step (Seek v) s)
     = Z.of_nat (length (bufferRef (step (Seek v) s))) - 1) /\
  (isPlaying s = false ->
   playIndex (step (Seek v) s) = v /\ bufferRef (step (Seek v) s) = bufferRef s /\
   isPlaying (step (Seek v) s) = false).
Proof.
  split.
  - intros Hp Hr Hl. simpl. unfold rerun_if_playing_changed. simpl.
    rewrite bool_decide_eq_false_2 by (rewrite Hp; discriminate).
    destruct (record_pins u (seek v s) Hl Hr eq_refl)
      as (Hb & Hi & _ & _ & Hp' & Hc).
    done.
  - intros Hp. simpl. unfold rerun_if_playing_changed. simpl.
    by rewrite bool_decide_eq_true_2 by (by rewrite Hp).
Qed.

Lemma paused_updates (updates : list value) :
  forall s : state,
    isRecording s = false ->
    bufferRef (run (Update <$> updates) s) = bufferRef s /\
    playIndex (run (Update <$> updates) s) = playIndex s /\
    isRecording (run (Update <$> updates) s) = false /\
    isPlaying (run (Update <$> updates) s) = isPlaying s /\
    latestCityUpdate (run (Update <$> updates) s)
      = from_option Some (latestCityUpdate s) (last updates).
Proof.
  induction updates as [|u us IH]; intros s Hr; [done|].
  change (run (Update <$> u :: us) s)
    with (run (Update <$> us) (step (Update u) s)).
  assert (step (Update u) s = set_latestCityUpdate (Some u) s) as ->.
  { simpl. apply record_idle. by right. }
  destruct (IH (set_latestCityUpdate (Some u) s) Hr) as (H1 & H2 & H3 & H4 & H5).
  rewrite H1, H2, H3, H4, H5. simpl. repeat split.
  rewrite last_cons. by destruct (last us).
Qed.

(** X24. Pausing drops all but the latest. While recording is paused,
    updates change neither the buffer nor the cursor; when recording is
    switched on again the latest of them is appended at once, the ones
    before it are lost. *)
Theorem pause_keeps_only_latest (updates : list value) (u : value) (s : state) :
  isRecording s = false ->
  bufferRef (run (Update <$> updates ++ [u]) s) = bufferRef s /\
  playIndex (run (Update <$> updates ++ [u]) s) = playIndex s /\
  bufferRef (run ((Update <$> updates ++ [u]) ++ [ToggleRecording]) s)
    = last_entries 300 (bufferRef s ++ [u]).
Proof.
  intros Hr.
  destruct (paused_updates (updates ++ [u]) s Hr) as (Hb & Hi & Hr' & _ & Hl).
  split; [exact Hb|]. split; [exact Hi|].
  rewrite last_snoc in Hl. simpl in Hl.
  unfold run in *. rewrite foldl_app. simpl.
  set (s1 := foldl (fun s ev => step ev s) s (Update <$> updates ++ [u])) in *.
  unfold record. simpl. rewrite Hl, Hr'. simpl.
  rewrite (slice_last 300) by lia.
  destruct (negb (isPlaying s1)); simpl; by rewrite Hb.
Qed.

Lemma live_cursor_follows_feed_witness :
  let u1 := Samples.city_update [Samples.node "A"] [] [] [] in
  let u2 := Samples.city_update [Samples.node "B"] [] [] [] in
  let u3 := Samples.city_update [Samples.node "C"] [] [] [] in
  let s' := run ([Update u1; Seek 0; Update u2; Seek 0] ++ [Update u3])
              (mounted None) in
  last (bufferRef s') = Some u3 /\ playIndex s' = 2.
Proof.
  intros u1 u2 u3 s'.
  destruct (live_cursor_follows_feed
              [Update u1; Seek 0; Update u2; Seek 0]
              u3 (mounted None) eq_refl eq_refl) as (Hlast & Hi & _).
  - repeat apply Forall_cons_2; try apply Forall_nil_2; eauto.
  - split; [exact Hlast | exact Hi].
Defined.

Lemma play_toggle_records_again_witness :
  bufferRef (run (Update (VNum 1) :: replicate 2 TogglePlaying) (mounted None))
    = [VNum 1; VNum 1; VNum 1].
Proof.
  rewrite (play_toggle_records_again 2 (VNum 1) (mounted None)); reflexivity.
Defined.

Lemma playback_stops_on_last_snapshot_witness :
  let s := {| latestCityUpdate := None;
              bufferRef := [VNum 10; VNum 11; VNum 12];
              isRecording := false; isPlaying := true; playIndex := 0 |} in
  isPlaying (run (replicate 2 Tick) s) = false /\
  current (run (replicate 2 Tick) s) = Some (VNum 12) /\
  isPlaying (run (replicate 1 Tick) s) = true.
Proof.
  intros s.
  destruct (playback_stops_on_last_snapshot s eq_refl) as (H1 & H2 & H3).
  split; [exact H1|]. split; [exact H2|]. apply (H3 1%nat). vm_compute. lia.
Defined.

Lemma seek_during_playback_jumps_to_latest_witness :
  let s := {| latestCityUpdate := Some (VNum 12);
              bufferRef := [VNum 10; VNum 11; VNum 12];
              isRecording := true; isPlaying := true; playIndex := 1 |} in
  current (step (Seek 0) s) = Some (VNum 12) /\
  playIndex (step (Seek 0) s) = 3.
Proof.
  intros s.
  destruct (proj1 (seek_during_playback_jumps_to_latest 0 (VNum 12) s)
              eq_refl eq_refl eq_refl) as (_ & Hc & _ & Hi).
  split; [exact Hc | exact Hi].
Defined.

Lemma pause_keeps_only_latest_witness :
  let s := setIsRecording false (mounted None) in
  bufferRef (run ((Update <$> [VNum 1; VNum 2] ++ [VNum 3])
                  ++ [ToggleRecording]) s) = [VNum 3].
Proof.
  intros s.
  exact (proj2 (proj2 (pause_keeps_only_latest [VNum 1; VNum 2] (VNum 3) s
                         eq_refl))).
Defined.

End ReplayPlayback.
